(** * Transcript splitter and record verifier: a shallow embedding

    The development follows the two scripts of the repository:
    - [split.py]: the turn parser ([parse_turns]), the chunk partitioner
      ([chunk_indices]), the skeleton generator ([make_skeleton]) and the
      write-once record writer ([write_memory_yaml]);
    - [verify.py]: the record validator ([validate_field],
      [validate_yaml_against_schema]) and the verify pass ([main]).

    Python integers are [Z]; text is [string], one character per code
    point below 256; exceptions are the [Raise] branch of [outcome]; the
    [while] loop of [chunk_indices], which is not structural, carries
    explicit fuel, and its termination is proved below. *)

From Stdlib Require Import ZArith String Ascii List Lia Bool.
From stdpp Require Import gmap strings list pretty sorting.

Local Open Scope Z_scope.

(** ** Exceptions *)

Inductive error : Type :=
| ValueError (msg : string)
| FileExistsError (path : string).

Inductive outcome (A : Type) : Type :=
| Return (a : A)
| Raise (e : error).
Arguments Return {A} a.
Arguments Raise {A} e.

Definition bind {A B : Type} (m : outcome A) (k : A -> outcome B) : outcome B :=
  match m with
  | Return a => k a
  | Raise e => Raise e
  end.

Notation "'let*' x ':=' m 'in' k" := (bind m (fun x => k))
  (at level 10, x name, m at level 100, k at level 200).

(** ** Chunk partitioner ([split.py], [chunk_indices]) *)

Module Partition.

(** One entry of the returned list: [{"ch_id": .., "start_i": .., "end_i": ..}]. *)
Record Range : Type := mkRange { ch_id : Z; start_i : Z; end_i : Z }.

(** The variables the [while] loop updates. *)
Record loop_state : Type :=
  mkLoop { ranges : list Range; start : Z; next_id : Z }.

Section Loop.
Variables total_turns chunk_size overlap : Z.

(** [while start < total_turns] *)
Definition loop_cond (st : loop_state) : bool := start st <? total_turns.

(** One pass through the loop body; the boolean tells whether the pass
    left through [break]. On [break] the assignment to [start] is not
    reached. *)
Definition loop_body (st : loop_state) : loop_state * bool :=
  let end_ := Z.min (start st + chunk_size) total_turns in
  let ranges' := ranges st ++ [mkRange (next_id st) (start st) end_] in
  let id' := next_id st + 1 in
  if end_ =? total_turns
  then (mkLoop ranges' (start st) id', true)
  else (mkLoop ranges' (Z.max (end_ - overlap) 0) id', false).

(** The loop, with [fuel] bounding the number of passes; [None] is
    "fuel exhausted", never a result of the program. *)
Fixpoint chunk_loop (fuel : nat) (st : loop_state) : option (list Range) :=
  match fuel with
  | O => None
  | S fuel' =>
      if loop_cond st then
        let '(st', brk) := loop_body st in
        if brk then Some (ranges st') else chunk_loop fuel' st'
      else Some (ranges st)
  end.

Definition chunk_indices (fuel : nat) : option (outcome (list Range)) :=
  if chunk_size <=? 0 then
    Some (Raise (ValueError "chunk_size must be > 0"))
  else if (overlap <? 0) || (overlap >=? chunk_size) then
    Some (Raise (ValueError "overlap must be >=0 and < chunk_size"))
  else
    Return <$> chunk_loop fuel (mkLoop [] 0 1).
End Loop.

(** Membership of a turn index in a half-open range. *)
Definition covers (r : Range) (i : Z) : Prop := start_i r <= i < end_i r.

(** Passes that suffice from a given [start]. *)
Definition passes (total_turns start : Z) : nat := S (Z.to_nat (total_turns - start)).

(** [tiles a l b]: the ranges of [l], in order, are non-empty, the first
    starts at [a], each next one starts where the previous one ends, and
    the last ends at [b]. *)
Fixpoint tiles (a : Z) (l : list Range) (b : Z) : Prop :=
  match l with
  | [] => a = b
  | r :: l' => start_i r = a /\ a < end_i r /\ tiles (end_i r) l' b
  end.

End Partition.

(** ** Text primitives shared by both scripts *)

Module Text.

Local Open Scope string_scope.

Definition code (c : ascii) : N := N_of_ascii c.

(** Characters for which [str.isspace] holds; [\s] of [re] and
    [str.strip] use the same class. Below code point 256 these are
    TAB..CR, FS..US, SPACE, NEL and NBSP. *)
Definition is_space (c : ascii) : bool :=
  let n := code c in
  ((9 <=? n) && (n <=? 13) || (28 <=? n) && (n <=? 32)
   || (n =? 133) || (n =? 160))%N.

(** [\d]: the decimal digits (the only ones below code point 256). *)
Definition is_digit (c : ascii) : bool :=
  let n := code c in ((48 <=? n) && (n <=? 57))%N.

(** [.] without DOTALL: anything but a line feed. *)
Definition is_dot (c : ascii) : bool := negb (code c =? 10)%N.

(** Line boundaries of [str.splitlines] below code point 256:
    LF, VT, FF, CR, FS, GS, RS and NEL. *)
Definition is_linebreak (c : ascii) : bool :=
  let n := code c in
  ((10 <=? n) && (n <=? 13) || (28 <=? n) && (n <=? 30) || (n =? 133))%N.

Definition is_empty (s : string) : bool :=
  match s with EmptyString => true | String _ _ => false end.

(** [text.splitlines()]: boundaries are dropped, CR LF counts once, and a
    trailing boundary opens no further line. *)
Fixpoint splitlines (s : string) : list string :=
  match s with
  | EmptyString => []
  | String c s' =>
      if is_linebreak c then
        match s' with
        | String c2 s'' =>
            if ((code c =? 13) && (code c2 =? 10))%N
            then EmptyString :: splitlines s''
            else EmptyString :: splitlines s'
        | EmptyString => [EmptyString]
        end
      else
        match splitlines s' with
        | [] => [String c EmptyString]
        | l :: ls => String c l :: ls
        end
  end.

Fixpoint lstrip (s : string) : string :=
  match s with
  | EmptyString => EmptyString
  | String c s' => if is_space c then lstrip s' else s
  end.

Fixpoint rstrip (s : string) : string :=
  match s with
  | EmptyString => EmptyString
  | String c s' =>
      let r := rstrip s' in
      if is_space c && is_empty r then EmptyString else String c r
  end.

(** [s.strip()] *)
Definition strip (s : string) : string := rstrip (lstrip s).

(** ["\n".join(lines)] *)
Definition join_lines (lines : list string) : string :=
  String.concat (String (ascii_of_N 10) EmptyString) lines.

(** [s.split(" ", 1)]: the part before the first space and, when there is
    a space, the part after it. *)
Fixpoint split_space_once (s : string) : string * option string :=
  match s with
  | EmptyString => (EmptyString, None)
  | String c s' =>
      if Ascii.eqb c " " then (EmptyString, Some s')
      else let '(a, b) := split_space_once s' in (String c a, b)
  end.

(** [s.replace("-", "/")] *)
Fixpoint replace_dash (s : string) : string :=
  match s with
  | EmptyString => EmptyString
  | String c s' =>
      String (if Ascii.eqb c "-" then "/"%char else c) (replace_dash s')
  end.

(** [len(s)] *)
Definition len (s : string) : Z := Z.of_nat (String.length s).

(** Every character of [s] is in the class [p]. *)
Definition all_chars (p : ascii -> bool) (s : string) : Prop :=
  forall c, In c (list_ascii_of_string s) -> p c = true.

(** No character of [line] is a line boundary. *)
Definition no_linebreak (line : string) : Prop :=
  all_chars (fun c => negb (is_linebreak c)) line.

End Text.

(** ** A backtracking matcher for the fragment of [re] the scripts use *)

Module Regex.

Import Text.

(** Pattern items. Quantifiers only ever apply to one-character classes
    in [MSG_START_RE], and so does [Repeat]. *)
Inductive item : Type :=
| Lit (c : ascii)
| Class (p : ascii -> bool)
| Repeat (p : ascii -> bool) (min : nat) (greedy : bool)
| GroupOpen (g : nat)
| GroupClose (g : nat)
| EndAnchor.

(** Group bookkeeping: the input left when a group was opened, and the
    text of the groups closed so far. *)
Record captures : Type :=
  mkCaps { opened : list (nat * string); closed : list (nat * string) }.

Definition no_captures : captures := mkCaps [] [].

Fixpoint assoc (g : nat) (l : list (nat * string)) : option string :=
  match l with
  | [] => None
  | (g', s) :: l' => if Nat.eqb g g' then Some s else assoc g l'
  end.

Definition open_group (g : nat) (s : string) (cs : captures) : captures :=
  mkCaps ((g, s) :: opened cs) (closed cs).

Definition close_group (g : nat) (s : string) (cs : captures) : captures :=
  match assoc g (opened cs) with
  | Some s0 =>
      mkCaps (opened cs)
             ((g, substring 0 (String.length s0 - String.length s) s0) :: closed cs)
  | None => cs
  end.

(** [$] without MULTILINE: at the end, or before a final line feed. *)
Definition at_end (s : string) : bool :=
  match s with
  | EmptyString => true
  | String c EmptyString => (code c =? 10)%N
  | _ => false
  end.

Definition cont : Type := string -> captures -> option captures.

(** Greedy repetition: take a character when possible, and fall back to
    the continuation when the longer attempt fails. *)
Fixpoint rep_greedy (p : ascii -> bool) (k : cont) (min : nat)
         (s : string) (cs : captures) : option captures :=
  let stop := match min with O => k s cs | S _ => None end in
  match s with
  | String c s' =>
      if p c then
        match rep_greedy p k (Nat.pred min) s' cs with
        | Some r => Some r
        | None => stop
        end
      else stop
  | EmptyString => stop
  end.

(** Lazy repetition: try the continuation first, take a character only
    when that fails. *)
Fixpoint rep_lazy (p : ascii -> bool) (k : cont) (min : nat)
         (s : string) (cs : captures) : option captures :=
  let more :=
    match s with
    | String c s' => if p c then rep_lazy p k (Nat.pred min) s' cs else None
    | EmptyString => None
    end in
  match min with
  | O => match k s cs with Some r => Some r | None => more end
  | S _ => more
  end.

Fixpoint exec (re : list item) : cont :=
  match re with
  | [] => fun _ cs => Some cs
  | it :: re' =>
      let k := exec re' in
      match it with
      | Lit c => fun s cs =>
          match s with
          | String c' s' => if Ascii.eqb c c' then k s' cs else None
          | EmptyString => None
          end
      | Class p => fun s cs =>
          match s with
          | String c' s' => if p c' then k s' cs else None
          | EmptyString => None
          end
      | Repeat p min true => rep_greedy p k min
      | Repeat p min false => rep_lazy p k min
      | GroupOpen g => fun s cs => k s (open_group g s cs)
      | GroupClose g => fun s cs => k s (close_group g s cs)
      | EndAnchor => fun s cs => if at_end s then k s cs else None
      end
  end.

(** [pattern.match(s)]: only position 0 is tried. *)
Definition re_match (re : list item) (s : string) : option captures :=
  exec re s no_captures.

(** [m.group(g)] for a group that took part in the match. *)
Definition group (m : captures) (g : nat) : string :=
  default EmptyString (assoc g (closed m)).

(** What a pattern accepts, read off its items: the declarative
    counterpart of [exec], with no search order and no groups. *)
Fixpoint denote (re : list item) (s : string) : Prop :=
  match re with
  | [] => True
  | Lit c :: re' => exists s', s = String c s' /\ denote re' s'
  | Class p :: re' => exists c s', s = String c s' /\ p c = true /\ denote re' s'
  | Repeat p min _ :: re' =>
      exists w s', s = (w ++ s')%string /\ (min <= String.length w)%nat
                   /\ all_chars p w /\ denote re' s'
  | GroupOpen _ :: re' => denote re' s
  | GroupClose _ :: re' => denote re' s
  | EndAnchor :: re' => at_end s = true /\ denote re' s
  end.

End Regex.

(** ** Turn parser ([split.py], [MSG_START_RE] and [parse_turns]) *)

Module Parser.

Import Text Regex.
Local Open Scope string_scope.

Definition digits2 : list item := [Class is_digit; Class is_digit].

(** The pattern of the source, item by item. Group 1 is the timestamp
    [20\d{2}-\d{2}-\d{2}\s+\d{2}:\d{2}:\d{2}] between the brackets, group 2
    the lazy speaker [.+?] and group 3 the greedy rest of the line; the
    leading [^] is implied by [re_match]. *)
Definition MSG_START_RE : list item :=
  [Lit "["; GroupOpen 1; Lit "2"; Lit "0"] ++ digits2
  ++ [Lit "-"] ++ digits2 ++ [Lit "-"] ++ digits2
  ++ [Repeat is_space 1 true]
  ++ digits2 ++ [Lit ":"] ++ digits2 ++ [Lit ":"] ++ digits2
  ++ [GroupClose 1; Lit "]"; Repeat is_space 0 true;
      GroupOpen 2; Repeat is_dot 1 false; GroupClose 2;
      Lit ":"; Repeat is_space 0 true;
      GroupOpen 3; Repeat is_dot 0 true; GroupClose 3; EndAnchor].

Record Turn : Type :=
  mkTurn { idx : Z; timestamp : string; speaker : string; content : string }.

(** The [current] dictionary of the loop. *)
Record open_turn : Type :=
  mkOpen { cur_timestamp : string; cur_speaker : string;
           content_lines : list string }.

(** The loop variables [turns], [current] and [idx]. *)
Record parse_state : Type :=
  mkParse { turns : list Turn; current : option open_turn; last_idx : Z }.

Definition initial : parse_state := mkParse [] None 0.

(** [idx += 1; turns.append(Turn(...))] when a turn is open. *)
Definition flush (st : parse_state) : parse_state :=
  match current st with
  | Some cur =>
      let i := last_idx st + 1 in
      mkParse (turns st ++ [mkTurn i (cur_timestamp cur) (cur_speaker cur)
                                   (strip (join_lines (content_lines cur)))])
              (current st) i
  | None => st
  end.

(** The body of [for line in lines]. *)
Definition step (st : parse_state) (line : string) : parse_state :=
  match re_match MSG_START_RE line with
  | Some m =>
      let st' := flush st in
      let first_tail := group m 3 in
      mkParse (turns st')
              (Some (mkOpen (group m 1) (strip (group m 2))
                            (if is_empty first_tail then [] else [first_tail])))
              (last_idx st')
  | None =>
      match current st with
      | None => st
      | Some cur =>
          mkParse (turns st)
                  (Some (mkOpen (cur_timestamp cur) (cur_speaker cur)
                                (content_lines cur ++ [line])))
                  (last_idx st)
      end
  end.

Definition parse_lines (lines : list string) : list Turn :=
  turns (flush (fold_left step lines initial)).

Definition parse_turns (text : string) : list Turn :=
  parse_lines (splitlines text).

(** A line is a turn-start marker when the pattern matches it. *)
Definition is_turn_start (line : string) : bool :=
  match re_match MSG_START_RE line with Some _ => true | None => false end.

(** Turns opened so far: the closed ones and the open one, if any. *)
Definition opened_turns (st : parse_state) : nat :=
  (length (turns st) + match current st with Some _ => 1 | None => 0 end)%nat.

(** The marker shape in words: [[], a date [20YY-MM-DD], a run of one or
    more whitespace characters, a time [HH:MM:SS], []], optional
    whitespace, a non-empty speaker, [:], optional whitespace, and the
    inline content. *)
Definition marker_shape (line : string) : Prop :=
  exists y1 y2 mo1 mo2 d1 d2 gap h1 h2 mi1 mi2 s1 s2 ws1 spk ws2 tail,
    line =
      "[" ++ "20" ++ String y1 (String y2 "") ++ "-"
      ++ String mo1 (String mo2 "") ++ "-" ++ String d1 (String d2 "")
      ++ gap
      ++ String h1 (String h2 "") ++ ":" ++ String mi1 (String mi2 "")
      ++ ":" ++ String s1 (String s2 "")
      ++ "]" ++ ws1 ++ spk ++ ":" ++ ws2 ++ tail
    /\ Forall (fun c => is_digit c = true)
              [y1; y2; mo1; mo2; d1; d2; h1; h2; mi1; mi2; s1; s2]
    /\ gap <> "" /\ all_chars is_space gap
    /\ all_chars is_space ws1
    /\ spk <> ""
    /\ all_chars is_space ws2.

(** The same shape with exactly one space between date and time. *)
Definition marker_shape_one_space (line : string) : Prop :=
  exists y1 y2 mo1 mo2 d1 d2 h1 h2 mi1 mi2 s1 s2 ws1 spk ws2 tail,
    line =
      "[" ++ "20" ++ String y1 (String y2 "") ++ "-"
      ++ String mo1 (String mo2 "") ++ "-" ++ String d1 (String d2 "")
      ++ " "
      ++ String h1 (String h2 "") ++ ":" ++ String mi1 (String mi2 "")
      ++ ":" ++ String s1 (String s2 "")
      ++ "]" ++ ws1 ++ spk ++ ":" ++ ws2 ++ tail
    /\ Forall (fun c => is_digit c = true)
              [y1; y2; mo1; mo2; d1; d2; h1; h2; mi1; mi2; s1; s2]
    /\ all_chars is_space ws1
    /\ spk <> ""
    /\ all_chars is_space ws2.

End Parser.

(** ** Decoded documents and the schema *)

Module Doc.

Local Open Scope string_scope.

(** Keys of a decoded mapping: text or integer scalars. *)
Inductive key : Type :=
| KStr (s : string)
| KInt (z : Z).

#[global] Instance key_eq_dec : EqDecision key.
Proof. solve_decision. Defined.

(** What [yaml.safe_load] yields and [yaml.safe_dump] accepts. A mapping
    keeps its insertion order, as a Python [dict] does. *)
#[local] Unset Elimination Schemes.
Inductive value : Type :=
| VNone
| VBool (b : bool)
| VInt (z : Z)
| VStr (s : string)
| VList (l : list value)
| VDict (d : list (key * value)).
#[local] Set Elimination Schemes.

Abbreviation pydict := (list (key * value)).

(** [d.get(k)] *)
Fixpoint dict_get (k : key) (d : pydict) : option value :=
  match d with
  | [] => None
  | (k', v) :: d' => if decide (k = k') then Some v else dict_get k d'
  end.

(** [d[k] = v]: an existing key keeps its place, a new one goes last. *)
Fixpoint dict_set (k : key) (v : value) (d : pydict) : pydict :=
  match d with
  | [] => [(k, v)]
  | (k', v') :: d' =>
      if decide (k = k') then (k, v) :: d' else (k', v') :: dict_set k v d'
  end.

(** The mapping without the key [k]. *)
Definition dict_del (k : key) (d : pydict) : pydict :=
  filter (fun kv => kv.1 <> k) d.

(** [k in d] *)
Definition dict_mem (k : key) (d : pydict) : bool :=
  match dict_get k d with Some _ => true | None => false end.

(** [d.keys()] and [d.values()] *)
Definition dict_keys_of (d : pydict) : list key := map fst d.
Definition dict_values (d : pydict) : list value := map snd d.

(** [str(k)] *)
Definition key_str (k : key) : string :=
  match k with
  | KStr s => s
  | KInt z => pretty z
  end.

(** One entry of the schema's [fields] list, read through the [get]
    calls of the scripts: [required], [non_empty] and [non_empty_any] by
    truthiness, the numeric bounds as present integers or not, [pattern]
    as present text or not, [dict_keys] with its [[]] default. *)
Record Field : Type := mkField {
  name : string;
  ftype : string;
  required : bool;
  non_empty : bool;
  max_chars : option Z;
  pattern : option string;
  min_items : option Z;
  max_items : option Z;
  min_non_empty_items : option Z;
  dict_keys : list key;
  non_empty_any : bool
}.

(** The decoded schema: [fields] in document order and the [derived]
    mapping from field name to derivation-rule name. *)
Record Schema : Type := mkSchema {
  fields : list Field;
  derived : gmap string string
}.

End Doc.

(** ** Skeleton generator ([split.py]) *)

Module Skeleton.

Import Text Parser Doc.
Local Open Scope string_scope.

Definition _date_ymd_slash (timestamp : string) : string :=
  replace_dash (strip (fst (split_space_once timestamp))).

Definition _time_hms (timestamp : string) : string :=
  match snd (split_space_once timestamp) with
  | Some rest => strip rest
  | None => ""
  end.

(** [derived_value]: [Return None] is the Python [None]. The guard
    [if not fn] sends an unbound name and an empty rule name the same
    way. *)
Definition derived_value (name : string) (first_turn last_turn : Turn)
           (derived : gmap string string) : outcome (option string) :=
  match derived !! name with
  | None => Return None
  | Some fn =>
      if is_empty fn then Return None
      else if String.eqb fn "from_first_turn_date_ymd_slash" then
        Return (Some (_date_ymd_slash (timestamp first_turn)))
      else if String.eqb fn "from_first_last_turn_time_range" then
        let t1 := _time_hms (timestamp first_turn) in
        let t2 := _time_hms (timestamp last_turn) in
        Return (Some (if is_empty t2 || String.eqb t1 t2
                      then t1 else t1 ++ "-" ++ t2))
      else Raise (ValueError ("Unknown derived function: " ++ fn))
  end.

Definition default_value_for_field (field : Field) : value :=
  let t := ftype field in
  if String.eqb t "string" then VStr ""
  else if String.eqb t "list" then VList []
  else if String.eqb t "dict" then
    VDict (fold_left (fun d k => dict_set k (VStr "") d) (dict_keys field) [])
  else VNone.

(** [dv if dv is not None else default_value_for_field(field)]: what the
    loop stores under the field's name. *)
Definition stored (dv : option string) (field : Field) : value :=
  match dv with
  | Some s => VStr s
  | None => default_value_for_field field
  end.

(** The body of [for field in schema.get("fields", [])], threaded over
    the record [out] under construction. *)
Fixpoint skeleton_loop (fs : list Field) (first_turn last_turn : Turn)
         (derived : gmap string string) (out : pydict) : outcome pydict :=
  match fs with
  | [] => Return out
  | field :: fs' =>
      let* dv := derived_value (name field) first_turn last_turn derived in
      skeleton_loop fs' first_turn last_turn derived
        (dict_set (KStr (name field)) (stored dv field) out)
  end.

Definition make_skeleton (schema : Schema) (first_turn last_turn : Turn)
  : outcome pydict :=
  skeleton_loop (fields schema) first_turn last_turn (derived schema) [].

End Skeleton.

(** ** Record validator ([verify.py]) *)

Module Validator.

Import Text Doc.
Local Open Scope string_scope.

(** The messages of the validator, one constructor per format string. *)
Inductive violation : Type :=
| MissingKey (name : string)
| MustBeString (name : string)
| IsEmpty (name : string)
| ExceedsMaxChars (name : string) (max_chars : Z) (len : Z)
| PatternMismatch (name : string) (pattern : string)
| MustBeList (name : string)
| TooFewItems (name : string) (min_items : Z)
| TooManyItems (name : string) (max_items : Z)
| TooFewNonEmptyItems (name : string) (min_non_empty_items : Z)
| MustBeDict (name : string)
| DictMissingKey (name : string) (k : key)
| NoNonEmptyValues (name : string)
| UnsupportedType (name : string) (ftype : string)
| YamlParseError
| RootNotMapping
| ExtraKeys (keys : list key).

(** [isinstance(x, str) and x.strip()] *)
Definition non_blank_str (x : value) : bool :=
  match x with
  | VStr s => negb (is_empty (strip s))
  | _ => false
  end.

Definition when (b : bool) (v : violation) : list violation :=
  if b then [v] else [].

Section Validate.
(** [re.match(pattern, v)] for the patterns a schema may carry, as
    "matched or not". *)
Variable re_match : string -> string -> bool.

Definition validate_string (field : Field) (value : string) : list violation :=
  let v := strip value in
  when (non_empty field && is_empty v) (IsEmpty (name field))
  ++ match max_chars field with
     | Some m => when (m <? len v)%Z (ExceedsMaxChars (name field) m (len v))
     | None => []
     end
  ++ match pattern field with
     | Some p =>
         when (negb (is_empty p) && negb (re_match p v))
              (PatternMismatch (name field) p)
     | None => []
     end.

Definition validate_list (field : Field) (value : list Doc.value) : list violation :=
  let n := Z.of_nat (length value) in
  match min_items field with
  | Some m => when (n <? m)%Z (TooFewItems (name field) m)
  | None => []
  end
  ++ match max_items field with
     | Some m => when (m <? n)%Z (TooManyItems (name field) m)
     | None => []
     end
  ++ match min_non_empty_items field with
     | Some m =>
         let non_empty := Z.of_nat (length (filter (fun x => non_blank_str x = true) value)) in
         when (non_empty <? m)%Z (TooFewNonEmptyItems (name field) m)
     | None => []
     end.

Definition validate_dict (field : Field) (value : pydict) : list violation :=
  flat_map (fun k =>
              when (negb (dict_mem k value)
                    && negb (dict_mem (KStr (key_str k)) value))
                   (DictMissingKey (name field) k))
           (dict_keys field)
  ++ when (non_empty_any field
           && negb (existsb non_blank_str (dict_values value)))
          (NoNonEmptyValues (name field)).

Definition validate_field (value : Doc.value) (field : Field) : list violation :=
  match value with
  | VNone => when (required field) (MissingKey (name field))
  | _ =>
      if String.eqb (ftype field) "string" then
        match value with
        | VStr s => validate_string field s
        | _ => [MustBeString (name field)]
        end
      else if String.eqb (ftype field) "list" then
        match value with
        | VList l => validate_list field l
        | _ => [MustBeList (name field)]
        end
      else if String.eqb (ftype field) "dict" then
        match value with
        | VDict d => validate_dict field d
        | _ => [MustBeDict (name field)]
        end
      else [UnsupportedType (name field) (ftype field)]
  end.

(** [data.get(name)], with Python's [None] for an absent key. *)
Definition record_get (data : pydict) (name : string) : Doc.value :=
  default VNone (dict_get (KStr name) data).

(** [loaded] is what [yaml.safe_load] made of the file: [None] when it
    raised. *)
Definition validate_yaml_against_schema (loaded : option Doc.value)
           (schema : Schema) : list violation :=
  match loaded with
  | None => [YamlParseError]
  | Some (VDict data) =>
      let field_names := map (fun f => KStr (name f)) (fields schema) in
      let extra_keys :=
        filter (fun k => k ∉ field_names) (dict_keys_of data) in
      when (negb (bool_decide (extra_keys = []))) (ExtraKeys extra_keys)
      ++ flat_map (fun f => validate_field (record_get data (name f)) f)
                  (fields schema)
  | Some _ => [RootNotMapping]
  end.

(** Constraints that the type default of a field meets: a string field
    that is not [non_empty], whose [max_chars] (if any) is not negative
    and whose [pattern] (if any) accepts the empty text; a list field
    whose lower bounds (if any) are at most 0 and whose [max_items] (if
    any) is not negative; a dict field that is not [non_empty_any]; a
    field of any other type that is not [required]. *)
Definition admits_default (field : Field) : bool :=
  if String.eqb (ftype field) "string" then
    negb (non_empty field)
    && match max_chars field with Some m => (0 <=? m)%Z | None => true end
    && match pattern field with
       | Some p => is_empty p || re_match p ""
       | None => true
       end
  else if String.eqb (ftype field) "list" then
    match min_items field with Some m => (m <=? 0)%Z | None => true end
    && match max_items field with Some m => (0 <=? m)%Z | None => true end
    && match min_non_empty_items field with
       | Some m => (m <=? 0)%Z
       | None => true
       end
  else if String.eqb (ftype field) "dict" then negb (non_empty_any field)
  else negb (required field).

(** A string field that declares no content constraint. *)
Definition unconstrained_string (field : Field) : bool :=
  String.eqb (ftype field) "string"
  && negb (non_empty field)
  && match max_chars field with Some _ => false | None => true end
  && match pattern field with Some p => is_empty p | None => true end.

(** What a schema must satisfy for its own skeleton to pass: fields
    bound to a derivation rule are unconstrained strings, the others
    admit their type default. *)
Definition skeleton_conforming (schema : Schema) : Prop :=
  NoDup (map name (fields schema))
  /\ forall f, In f (fields schema) ->
       match derived schema !! name f with
       | Some fn =>
           if is_empty fn then admits_default f = true
           else unconstrained_string f = true
       | None => admits_default f = true
       end.
End Validate.

End Validator.

(** ** The record writer ([split.py], [write_memory_yaml]) *)

Module Store.

Import Text Parser Doc Skeleton.
Local Open Scope string_scope.

(** What a path names. *)
Inductive node : Type :=
| Dir
| File (bytes : string).

(** The file system as the script sees it: a finite map from paths to
    nodes. Parent directories are not tracked apart from the directory
    itself. *)
Abbreviation filesystem := (gmap string node).

(** [path.exists()] *)
Definition exists_ (fs : filesystem) (path : string) : bool :=
  match fs !! path with Some _ => true | None => false end.

(** [out_dir.mkdir(parents=True, exist_ok=True)] *)
Definition mkdir (out_dir : string) (fs : filesystem) : filesystem * outcome unit :=
  match fs !! out_dir with
  | Some (File _) => (fs, Raise (FileExistsError out_dir))
  | Some Dir => (fs, Return tt)
  | None => (<[out_dir := Dir]> fs, Return tt)
  end.

(** [f"{n:04d}"]: at least four characters, zero-padded after the sign. *)
Definition zero_pad (width : nat) (digits : string) : string :=
  String.concat "" (replicate (width - String.length digits) "0") ++ digits.

Definition format_04d (n : Z) : string :=
  if (n <? 0)%Z then "-" ++ zero_pad 3 (pretty (Z.abs n))
  else zero_pad 4 (pretty n).

(** [out_dir / f"ch_{ch_id:04d}.yaml"] *)
Definition record_path (out_dir : string) (ch_id : Z) : string :=
  out_dir ++ "/" ++ "ch_" ++ format_04d ch_id ++ ".yaml".

Section Writer.
(** [yaml.safe_dump(data, allow_unicode=True, sort_keys=False)] *)
Variable safe_dump : pydict -> string.

(** The file system after the call, and the returned path or the
    exception. *)
Definition write_memory_yaml (ch_id : Z) (schema : Schema)
           (first_turn last_turn : Turn) (out_dir : string)
           (fs : filesystem) : filesystem * outcome string :=
  match mkdir out_dir fs with
  | (fs1, Raise e) => (fs1, Raise e)
  | (fs1, Return _) =>
      let path := record_path out_dir ch_id in
      if negb (exists_ fs1 path) then
        match make_skeleton schema first_turn last_turn with
        | Raise e => (fs1, Raise e)
        | Return data => (<[path := File (safe_dump data)]> fs1, Return path)
        end
      else (fs1, Return path)
  end.
End Writer.

End Store.

(** ** The verify pass ([verify.py], [main]) *)

Module Verify.

Import Text Doc Validator.
Local Open Scope string_scope.

(** What [main] reads: the file names of the chunk directory, the files
    of the record directory with what [yaml.safe_load] makes of each
    ([None] when it raises), and the decoded schema. A directory or the
    schema file that is absent is [None]. *)
Record World : Type := mkWorld {
  chunks_dir : option (gset string);
  out_chapters_dir : option (gmap string (option value));
  schema_file : option Schema
}.

Definition has_prefix (p s : string) : bool := String.prefix p s.

Definition has_suffix (p s : string) : bool :=
  String.prefix (String.rev p) (String.rev s).

(** [glob("ch_*" + ext)] on one file name. *)
Definition glob_ch (ext name : string) : bool :=
  has_prefix "ch_" name && has_suffix ext name
  && (String.length "ch_" + String.length ext <=? String.length name)%nat.

(** [p.stem] for a name ending in [ext]. *)
Definition stem (ext name : string) : string :=
  substring 0 (String.length name - String.length ext) name.

Definition by_name : relation string := fun a b => String.leb a b = true.

#[global] Instance by_name_dec : RelDecision by_name.
Proof. intros a b. unfold by_name. apply _. Defined.

(** [list_sorted(dir_path, pattern)], on the names of a directory. *)
Definition list_sorted (ext : string) (names : list string) : list string :=
  merge_sort by_name (filter (fun n => glob_ch ext n = true) names).

Section Main.
Variable re_match : string -> string -> bool.

(** The intermediate values of [main] once the three existence checks
    have passed. *)
Record report : Type := mkReport {
  missing_yaml : list string;
  extra_yaml : list string;
  bad : list (string * list violation)
}.

Definition examine (chunk_files : gset string)
           (yaml_files : gmap string (option value))
           (schema : Schema) : report :=
  let chunks := list_sorted ".txt" (elements chunk_files) in
  let yamls := list_sorted ".yaml" (elements (dom yaml_files)) in
  let chunk_ids : gset string := list_to_set (map (stem ".txt") chunks) in
  let yaml_ids : gset string := list_to_set (map (stem ".yaml") yamls) in
  mkReport
    (merge_sort by_name (elements (chunk_ids ∖ yaml_ids)))
    (merge_sort by_name (elements (yaml_ids ∖ chunk_ids)))
    (flat_map (fun y =>
                 let errs :=
                   validate_yaml_against_schema
                     re_match (default None (yaml_files !! y)) schema in
                 match errs with [] => [] | _ => [(y, errs)] end)
              yamls).

Definition problems (r : report) : Z :=
  (Z.of_nat (length (missing_yaml r)) + Z.of_nat (length (bad r)))%Z.

(** The exit status [main] returns. *)
Definition main (w : World) : Z :=
  match chunks_dir w with
  | None => 2
  | Some chunk_files =>
      match out_chapters_dir w with
      | None => 2
      | Some yaml_files =>
          match schema_file w with
          | None => 2
          | Some schema =>
              if (problems (examine chunk_files yaml_files schema) =? 0)%Z
              then 0 else 1
          end
      end
  end.
End Main.

End Verify.

(** ** Notions used to state further properties of the parser *)

Module ParserNotions.

Import Text Regex Parser.
Local Open Scope string_scope.

(** What a pattern makes of the group bookkeeping along one way of
    matching [s]: [trace re s cs cs'] reads the items as [denote] does
    and threads the captures as [exec] does. *)
Fixpoint trace (re : list item) (s : string) (cs cs' : captures) : Prop :=
  match re with
  | [] => cs' = cs
  | Lit c :: re' => exists s', s = String c s' /\ trace re' s' cs cs'
  | Class p :: re' =>
      exists c s', s = String c s' /\ p c = true /\ trace re' s' cs cs'
  | Repeat p min _ :: re' =>
      exists w s', s = w ++ s' /\ (min <= String.length w)%nat
                   /\ all_chars p w /\ trace re' s' cs cs'
  | GroupOpen g :: re' => trace re' s (open_group g s cs) cs'
  | GroupClose g :: re' => trace re' s (close_group g s cs) cs'
  | EndAnchor :: re' => at_end s = true /\ trace re' s cs cs'
  end.

(** A timestamp as the pattern captures it: [20YY-MM-DD], a run of one or
    more whitespace characters, [HH:MM:SS]. *)
Definition timestamp_shape (date gap time : string) : Prop :=
  exists y1 y2 mo1 mo2 d1 d2 h1 h2 mi1 mi2 s1 s2,
    date = "20" ++ String y1 (String y2 "") ++ "-"
           ++ String mo1 (String mo2 "") ++ "-" ++ String d1 (String d2 "")
    /\ time = String h1 (String h2 "") ++ ":" ++ String mi1 (String mi2 "")
              ++ ":" ++ String s1 (String s2 "")
    /\ Forall (fun c => is_digit c = true)
              [y1; y2; mo1; mo2; d1; d2; h1; h2; mi1; mi2; s1; s2]
    /\ gap <> "" /\ all_chars is_space gap.

(** [ts] is such a timestamp. *)
Definition shaped (ts : string) : Prop :=
  exists date gap time,
    ts = date ++ gap ++ time /\ timestamp_shape date gap time.

(** No character of [s] is whitespace; no character of [s] is a space. *)
Definition solid (s : string) : Prop :=
  all_chars (fun c => negb (is_space c)) s.

Definition spaceless (s : string) : Prop :=
  all_chars (fun c => negb (Ascii.eqb c " ")) s.

(** [s.strip() == s] *)
Definition trimmed (s : string) : Prop := strip s = s.

(** The turns [ts] with every index moved up by [n]. *)
Definition renumber (n : Z) (ts : list Turn) : list Turn :=
  map (fun t => mkTurn (idx t + n) (timestamp t) (speaker t) (content t)) ts.

(** Two states of the parser loop that differ by turns already closed:
    the same open turn, and the closed turns of the second one,
    renumbered, after [done]. *)
Definition ahead (done : list Turn) (st st' : parse_state) : Prop :=
  turns st = (done ++ renumber (Z.of_nat (length done)) (turns st'))%list
  /\ current st = current st'
  /\ last_idx st = (Z.of_nat (length done) + last_idx st')%Z.

End ParserNotions.

(** ** What the validator checks, stated as a predicate *)

Module Conformance.

Import Text Doc Validator.
Local Open Scope string_scope.

(** The field a violation is about; [None] for the three violations that
    concern the record as a whole. *)
Definition violation_field (v : violation) : option string :=
  match v with
  | MissingKey n | MustBeString n | IsEmpty n | ExceedsMaxChars n _ _
  | PatternMismatch n _ | MustBeList n | TooFewItems n _ | TooManyItems n _
  | TooFewNonEmptyItems n _ | MustBeDict n | DictMissingKey n _
  | NoNonEmptyValues n | UnsupportedType n _ => Some n
  | YamlParseError | RootNotMapping | ExtraKeys _ => None
  end.

Section Conforms.
Variable re_match : string -> string -> bool.





End Conforms.

End Conformance.

(** ** The chunk writer and the split run ([split.py], [write_chunk_file]
    and [main]) *)

Module Split.

Import Text Parser Doc Skeleton Store Partition.
Local Open Scope string_scope.

(** The exceptions a split run can end with: those of the functions
    above, and those of indexing, file access and schema loading. *)
Inductive exn : Type :=
| Lower (e : error)
| IndexError
| IsADirectoryError (path : string)
| FileNotFoundError (msg : string)
| YAMLError.

Inductive result (A : Type) : Type :=
| Ok (a : A)
| Err (e : exn).
Arguments Ok {A} a.
Arguments Err {A} e.

(** [out_dir / f"ch_{ch_id:04d}.txt"] *)
Definition chunk_path (out_dir : string) (ch_id : Z) : string :=
  out_dir ++ "/" ++ "ch_" ++ format_04d ch_id ++ ".txt".

(** [path.write_text(text)]: creates or replaces the file; a directory
    at [path] makes it raise. *)
Definition write_text (path text : string) (fs : filesystem)
  : filesystem * result unit :=
  match fs !! path with
  | Some Dir => (fs, Err (IsADirectoryError path))
  | _ => (<[path := File text]> fs, Ok tt)
  end.

(** [path.read_text()] *)
Definition read_text (path : string) (fs : filesystem) : result string :=
  match fs !! path with
  | Some (File text) => Ok text
  | Some Dir => Err (IsADirectoryError path)
  | None => Err (FileNotFoundError path)
  end.

(** The three lines a turn contributes to the body of a chunk file. *)
Definition turn_lines (t : Turn) : list string :=
  ["[" ++ timestamp t ++ "] " ++ speaker t ++ ":";
   if is_empty (content t) then "(empty)" else content t;
   ""].

(** The text of a chunk file; [None] when [turns] is empty, where
    [turns[0]] raises. *)
Definition chunk_text (turns : list Turn) (ch_id : Z) : option string :=
  match turns, last turns with
  | t0 :: _, Some tn =>
      let header :=
        ["# chunk_id: ch_" ++ format_04d ch_id;
         "# turns_range: " ++ pretty (idx t0) ++ ".." ++ pretty (idx tn);
         "# turns_count: " ++ pretty (Z.of_nat (length turns));
         ""] in
      Some (join_lines (header ++ flat_map turn_lines turns))
  | _, _ => None
  end.

Definition write_chunk_file (turns : list Turn) (ch_id : Z) (out_dir : string)
           (fs : filesystem) : filesystem * result string :=
  match mkdir out_dir fs with
  | (fs1, Raise e) => (fs1, Err (Lower e))
  | (fs1, Return _) =>
      let filename := chunk_path out_dir ch_id in
      match chunk_text turns ch_id with
      | None => (fs1, Err IndexError)
      | Some text =>
          match write_text filename text fs1 with
          | (fs2, Err e) => (fs2, Err e)
          | (fs2, Ok _) => (fs2, Ok filename)
          end
      end
  end.

Definition INPUT_PATH : string := "input/raw_chat.txt".
Definition CHUNKS_DIR : string := "chunks".
Definition OUT_CHAPTERS_DIR : string := "output/chapters".
Definition SCHEMA_PATH : string := "schema.yaml".
Definition TURNS_PER_CHUNK : Z := 10.
Definition OVERLAP_TURNS : Z := 0.

(** An index of a slice, brought into [[0, n]] as Python does. *)
Definition slice_index (n i : Z) : Z :=
  if (i <? 0)%Z then Z.max (i + n) 0 else Z.min i n.

(** [l[a:b]] *)
Definition py_slice {A : Type} (l : list A) (a b : Z) : list A :=
  let n := Z.of_nat (length l) in
  let a' := slice_index n a in
  let b' := slice_index n b in
  take (Z.to_nat (b' - a')) (drop (Z.to_nat a') l).

Section Run.
(** [yaml.safe_load] on the text of the schema file, read as a schema;
    [None] when it raises. *)
Variable safe_load_schema : string -> option Schema.
Variable safe_dump : pydict -> string.

Definition load_schema (fs : filesystem) : result Schema :=
  if negb (exists_ fs SCHEMA_PATH) then
    Err (FileNotFoundError "Missing schema file: schema.yaml")
  else
    match read_text SCHEMA_PATH fs with
    | Err e => Err e
    | Ok text =>
        match safe_load_schema text with
        | Some schema => Ok schema
        | None => Err YAMLError
        end
    end.

(** The body of [for r in ranges], threaded over the file system. *)
Fixpoint write_chunks (ranges : list Range) (turns : list Turn)
         (schema : Schema) (fs : filesystem) : filesystem * result unit :=
  match ranges with
  | [] => (fs, Ok tt)
  | r :: ranges' =>
      let chunk_turns := py_slice turns (start_i r) (end_i r) in
      match write_chunk_file chunk_turns (ch_id r) CHUNKS_DIR fs with
      | (fs1, Err e) => (fs1, Err e)
      | (fs1, Ok _) =>
          match chunk_turns, last chunk_turns with
          | t0 :: _, Some tn =>
              match write_memory_yaml safe_dump (ch_id r) schema t0 tn
                                      OUT_CHAPTERS_DIR fs1 with
              | (fs2, Raise e) => (fs2, Err (Lower e))
              | (fs2, Return _) => write_chunks ranges' turns schema fs2
              end
          | _, _ => (fs1, Err IndexError)
          end
      end
  end.

(** The run: the file system it leaves and how it ends, with the two
    counts it prints (turns parsed, chunks written) on success. The outer
    [None] stands for the partitioner running out of fuel. *)
Definition main (fs : filesystem) : filesystem * option (result (Z * Z)) :=
  if negb (exists_ fs INPUT_PATH) then
    (fs, Some (Err (FileNotFoundError "Missing input file: input/raw_chat.txt")))
  else
    match load_schema fs with
    | Err e => (fs, Some (Err e))
    | Ok schema =>
        match read_text INPUT_PATH fs with
        | Err e => (fs, Some (Err e))
        | Ok text =>
            let turns := parse_turns text in
            match turns with
            | [] =>
                (fs, Some (Err (Lower (ValueError
                   "No turns parsed. Check input format or MSG_START_RE."))))
            | _ :: _ =>
                let n := Z.of_nat (length turns) in
                match chunk_indices n TURNS_PER_CHUNK OVERLAP_TURNS (passes n 0) with
                | None => (fs, None)
                | Some (Raise e) => (fs, Some (Err (Lower e)))
                | Some (Return ranges) =>
                    match mkdir CHUNKS_DIR fs with
                    | (fs1, Raise e) => (fs1, Some (Err (Lower e)))
                    | (fs1, Return _) =>
                        match mkdir OUT_CHAPTERS_DIR fs1 with
                        | (fs2, Raise e) => (fs2, Some (Err (Lower e)))
                        | (fs2, Return _) =>
                            match write_chunks ranges turns schema fs2 with
                            | (fs3, Err e) => (fs3, Some (Err e))
                            | (fs3, Ok _) =>
                                (fs3, Some (Ok (n, Z.of_nat (length ranges))))
                            end
                        end
                    end
                end
            end
        end
    end.
End Run.

End Split.

(** ** What a directory listing shows of a file system *)

Module Listing.

Import Text Store.
Local Open Scope string_scope.

(** A file name: one path component, with no separator in it. *)
Definition is_name (n : string) : Prop :=
  all_chars (fun c => negb (Ascii.eqb c "/")) n.

(** [names] is what [dir.glob(pattern)] ranges over before the pattern is
    applied: the names of the entries of [dir]. *)
Definition entries (fs : filesystem) (dir : string) (names : gset string) : Prop :=
  forall n, n ∈ names <-> is_name n /\ is_Some (fs !! (dir ++ "/" ++ n)).

End Listing.

(** * Properties of the chunk partitioner *)

Section PartitionFacts.
Import Partition.
Variables total size overlap : Z.

Lemma chunk_loop_mono fuel st rs :
  chunk_loop total size overlap fuel st = Some rs ->
  forall fuel', (fuel <= fuel')%nat ->
  chunk_loop total size overlap fuel' st = Some rs.
Proof.
  revert st. induction fuel as [|fuel IH]; intros st H fuel' Hle; [discriminate|].
  destruct fuel' as [|fuel']; [lia|].
  simpl in *. destruct (loop_cond total st); [|exact H].
  destruct (loop_body total size overlap st) as [st' brk].
  destruct brk; [exact H|]. apply IH; [exact H|lia].
Qed.

(** One pass either leaves through [break], having emitted a range
    that ends at [total], or moves [start] strictly forward. *)
Lemma loop_body_progress st :
  0 <= overlap < size -> loop_cond total st = true ->
  match loop_body total size overlap st with
  | (st', true) =>
      last (ranges st') = Some (mkRange (next_id st) (start st) total)
  | (st', false) => start st < start st'
  end.
Proof.
  intros Hov Hc. unfold loop_cond in Hc. apply Z.ltb_lt in Hc.
  unfold loop_body.
  destruct (Z.eqb_spec (Z.min (start st + size) total) total) as [E|E].
  - cbn [ranges]. rewrite last_snoc, E. reflexivity.
  - cbn [start]. lia.
Qed.

Lemma chunk_loop_runs :
  0 <= overlap < size ->
  forall fuel st, 0 <= start st -> (passes total (start st) <= fuel)%nat ->
  exists tl,
    chunk_loop total size overlap fuel st = Some (ranges st ++ tl)
    /\ (start st < total -> exists r, last tl = Some r /\ end_i r = total)
    /\ (total <= start st -> tl = []).
Proof.
  intros Hov. unfold passes.
  induction fuel as [|fuel IH]; intros st Hst Hf; [lia|].
  simpl. unfold loop_cond. destruct (Z.ltb_spec (start st) total) as [Hlt|Hge].
  - pose proof (loop_body_progress st Hov) as Hp.
    unfold loop_cond in Hp. rewrite (proj2 (Z.ltb_lt _ _) Hlt) in Hp.
    specialize (Hp eq_refl).
    unfold loop_body in *.
    destruct (Z.min (start st + size) total =? total) eqn:E.
    + cbn [ranges] in *. eexists [_]. split; [reflexivity|]. split; [|lia].
      intros _. eexists. split; [reflexivity|]. cbn. apply Z.eqb_eq in E. exact E.
    + cbn [start] in Hp.
      set (st' := mkLoop _ _ _) in *.
      destruct (IH st') as (tl & Hrun & Hlast & Hnil).
      { subst st'. cbn [start]. lia. }
      { subst st'. cbn [start]. lia. }
      rewrite Hrun. subst st'. cbn [ranges start] in *.
      eexists (_ :: tl). split; [rewrite <- app_assoc; reflexivity|].
      split; [|lia]. intros _.
      destruct (Z.ltb_spec (Z.max (Z.min (start st + size) total - overlap) 0) total) as [H1|H1].
      * destruct (Hlast H1) as (r & Hr & Hend). exists r. split; [|exact Hend].
        destruct tl; [discriminate|]. exact Hr.
      * apply Z.eqb_neq in E. lia.
  - exists []. rewrite app_nil_r. split; [reflexivity|]. split; [lia|reflexivity].
Qed.
End PartitionFacts.

Section Tiling.
Import Partition.

Lemma chunk_loop_tiles total size :
  0 < size ->
  forall fuel st, 0 <= start st <= total ->
  (passes total (start st) <= fuel)%nat ->
  exists tl,
    chunk_loop total size 0 fuel st = Some (ranges st ++ tl)
    /\ tiles (start st) tl total.
Proof.
  intros Hsz. unfold passes.
  induction fuel as [|fuel IH]; intros st Hst Hf; [lia|].
  simpl. unfold loop_cond, loop_body.
  destruct (Z.ltb_spec (start st) total) as [Hlt|Hge].
  - destruct (Z.eqb_spec (Z.min (start st + size) total) total) as [E|E].
    + cbn [ranges]. eexists [_]. split; [reflexivity|].
      cbn. rewrite E. lia.
    + set (st' := mkLoop _ _ _).
      destruct (IH st') as (tl & Hrun & Htl).
      { subst st'. cbn [start]. lia. }
      { subst st'. cbn [start]. lia. }
      rewrite Hrun. subst st'. cbn [ranges start] in *.
      eexists (_ :: tl). split; [rewrite <- app_assoc; reflexivity|].
      cbn. split; [reflexivity|]. split; [lia|].
      replace (Z.max (Z.min (start st + size) total - 0) 0)
        with (Z.min (start st + size) total) in Htl by lia.
      exact Htl.
  - exists []. rewrite app_nil_r. split; [reflexivity|]. cbn. lia.
Qed.

Lemma tiles_le a l b : tiles a l b -> a <= b.
Proof.
  revert a. induction l as [|r l IH]; cbn; intros a H; [lia|].
  destruct H as (_ & Hlt & Ht). apply IH in Ht. lia.
Qed.

Lemma tiles_bounds a l b :
  tiles a l b ->
  Forall (fun r => a <= start_i r /\ start_i r < end_i r /\ end_i r <= b) l.
Proof.
  revert a. induction l as [|r l IH]; cbn; intros a H; [constructor|].
  destruct H as (Hs & Hlt & Ht). constructor.
  - apply tiles_le in Ht. lia.
  - apply IH in Ht. eapply Forall_impl; [exact Ht|].
    cbn. intros r' ?. lia.
Qed.

Lemma tiles_cover a l b :
  tiles a l b ->
  forall i, a <= i < b ->
  exists k r, l !! k = Some r /\ covers r i
    /\ forall k' r', l !! k' = Some r' -> covers r' i -> k' = k.
Proof.
  revert a. induction l as [|r l IH]; cbn; intros a H i Hi; [lia|].
  destruct H as (Hs & Hlt & Ht).
  destruct (Z.lt_ge_cases i (end_i r)) as [Hin|Hout].
  - exists 0%nat, r. split; [reflexivity|]. split; [unfold covers; lia|].
    intros [|k'] r' Hk' Hc; [reflexivity|]. cbn in Hk'.
    apply tiles_bounds in Ht. rewrite Forall_forall in Ht.
    apply list_elem_of_lookup_2 in Hk'. apply Ht in Hk'.
    unfold covers in Hc. lia.
  - destruct (IH _ Ht i) as (k & r0 & Hk & Hc & Huniq); [lia|].
    exists (S k), r0. split; [exact Hk|]. split; [exact Hc|].
    intros [|k'] r' Hk' Hc'.
    + cbn in Hk'. injection Hk' as <-. unfold covers in Hc'. lia.
    + f_equal. eapply Huniq; eassumption.
Qed.
End Tiling.

Import Partition.

(** C10. For [chunk_size > 0] and [0 <= overlap < chunk_size] the loop of
    [chunk_indices] terminates: any fuel from [passes total_turns 0] on
    yields one and the same returned list, and every pass of the loop
    either leaves through [break] with the emitted range ending at
    [total_turns], or continues with a strictly larger [start]. *)
Theorem chunk_indices_terminates (total_turns chunk_size overlap : Z) :
  0 < chunk_size -> 0 <= overlap < chunk_size ->
  (exists rs, forall fuel, (passes total_turns 0 <= fuel)%nat ->
     chunk_indices total_turns chunk_size overlap fuel = Some (Return rs))
  /\ (forall st, loop_cond total_turns st = true ->
        match loop_body total_turns chunk_size overlap st with
        | (st', true) =>
            last (ranges st') = Some (mkRange (next_id st) (start st) total_turns)
        | (st', false) => start st < start st'
        end).
Proof.
  intros Hsz Hov. split.
  - destruct (chunk_loop_runs total_turns chunk_size overlap Hov
                (passes total_turns 0) (mkLoop [] 0 1))
      as (tl & Hrun & _); [cbn; lia|cbn; lia|].
    exists tl. intros fuel Hfuel. unfold chunk_indices.
    destruct (Z.leb_spec chunk_size 0); [lia|].
    destruct (Z.ltb_spec overlap 0); [lia|].
    destruct (Z.geb_spec overlap chunk_size); [lia|]. cbn [orb].
    rewrite (chunk_loop_mono _ _ _ _ _ _ Hrun fuel Hfuel). reflexivity.
  - intros st Hc. apply loop_body_progress; assumption.
Qed.

Lemma chunk_indices_terminates_witness :
  (exists rs, forall fuel, (passes 25 0 <= fuel)%nat ->
     chunk_indices 25 10 3 fuel = Some (Return rs))
  /\ (forall st, loop_cond 25 st = true ->
        match loop_body 25 10 3 st with
        | (st', true) =>
            last (ranges st') = Some (mkRange (next_id st) (start st) 25)
        | (st', false) => start st < start st'
        end).
Proof. apply (chunk_indices_terminates 25 10 3); lia. Defined.

Lemma chunk_indices_valid (total_turns chunk_size overlap : Z) (fuel : nat) :
  0 < chunk_size -> 0 <= overlap < chunk_size ->
  chunk_indices total_turns chunk_size overlap fuel
  = Return <$> chunk_loop total_turns chunk_size overlap fuel (mkLoop [] 0 1).
Proof.
  intros Hsz Hov. unfold chunk_indices.
  destruct (Z.leb_spec chunk_size 0); [lia|].
  destruct (Z.ltb_spec overlap 0); [lia|].
  destruct (Z.geb_spec overlap chunk_size); [lia|]. reflexivity.
Qed.

(** C3, as the code has it. For [total_turns > 0] (and valid
    [chunk_size], [overlap]) the returned list is non-empty and its last
    range ends at [total_turns]; for [total_turns = 0] the loop is never
    entered and the returned list is empty. *)
Theorem chunk_indices_last_end (total_turns chunk_size overlap : Z) :
  0 <= total_turns -> 0 < chunk_size -> 0 <= overlap < chunk_size ->
  exists rs,
    (forall fuel, (passes total_turns 0 <= fuel)%nat ->
       chunk_indices total_turns chunk_size overlap fuel = Some (Return rs))
    /\ (0 < total_turns -> exists r, last rs = Some r /\ end_i r = total_turns)
    /\ (total_turns = 0 -> rs = []).
Proof.
  intros Htot Hsz Hov.
  destruct (chunk_loop_runs total_turns chunk_size overlap Hov
              (passes total_turns 0) (mkLoop [] 0 1))
    as (tl & Hrun & Hlast & Hnil); [cbn; lia|cbn; lia|].
  cbn [ranges start app] in *. exists tl. split; [|split].
  - intros fuel Hfuel. rewrite chunk_indices_valid by assumption.
    rewrite (chunk_loop_mono _ _ _ _ _ _ Hrun fuel Hfuel). reflexivity.
  - exact Hlast.
  - intros ->. apply Hnil. lia.
Qed.

Lemma chunk_indices_last_end_witness :
  exists rs,
    (forall fuel, (passes 25 0 <= fuel)%nat ->
       chunk_indices 25 10 3 fuel = Some (Return rs))
    /\ (0 < 25 -> exists r, last rs = Some r /\ end_i r = 25)
    /\ (25 = 0 -> rs = []).
Proof. apply (chunk_indices_last_end 25 10 3); lia. Defined.

(** C3 as stated fails at [total_turns = 0]: the call returns, and what
    it returns is the empty list, which has no last range. *)
Lemma chunk_indices_last_end_counterexample :
  chunk_indices 0 1 0 (passes 0 0) = Some (Return [])
  /\ ~ (exists fuel rs r,
          chunk_indices 0 1 0 fuel = Some (Return rs)
          /\ last rs = Some r /\ end_i r = 0).
Proof.
  split; [reflexivity|].
  intros (fuel & rs & r & Hrun & Hlast & _).
  destruct fuel as [|fuel]; cbn in Hrun; [discriminate|].
  injection Hrun as <-. discriminate Hlast.
Qed.

(** C6. With [overlap = 0], [total_turns >= 0] and [chunk_size > 0] the
    returned ranges tile [[0, total_turns)]: each range is non-empty and
    lies within [[0, total_turns]], the first starts at 0, each next one
    starts where the previous one ends, the last one ends at
    [total_turns], and every index of [[0, total_turns)] is covered by
    the range at exactly one position of the list. *)
Theorem chunk_indices_tiles (total_turns chunk_size : Z) :
  0 <= total_turns -> 0 < chunk_size ->
  exists rs,
    (forall fuel, (passes total_turns 0 <= fuel)%nat ->
       chunk_indices total_turns chunk_size 0 fuel = Some (Return rs))
    /\ Forall (fun r => 0 <= start_i r /\ start_i r < end_i r
                        /\ end_i r <= total_turns) rs
    /\ tiles 0 rs total_turns
    /\ (forall i, 0 <= i < total_turns ->
          exists k r, rs !! k = Some r /\ covers r i
            /\ forall k' r', rs !! k' = Some r' -> covers r' i -> k' = k).
Proof.
  intros Htot Hsz.
  destruct (chunk_loop_tiles total_turns chunk_size Hsz
              (passes total_turns 0) (mkLoop [] 0 1))
    as (tl & Hrun & Htiles); [cbn; lia|cbn; lia|].
  cbn [ranges start app] in *. exists tl. repeat split.
  - intros fuel Hfuel. rewrite chunk_indices_valid by lia.
    rewrite (chunk_loop_mono _ _ _ _ _ _ Hrun fuel Hfuel). reflexivity.
  - apply tiles_bounds. exact Htiles.
  - exact Htiles.
  - apply tiles_cover. exact Htiles.
Qed.

Lemma chunk_indices_tiles_witness :
  exists rs,
    (forall fuel, (passes 25 0 <= fuel)%nat ->
       chunk_indices 25 10 0 fuel = Some (Return rs))
    /\ Forall (fun r => 0 <= start_i r /\ start_i r < end_i r
                        /\ end_i r <= 25) rs
    /\ tiles 0 rs 25
    /\ (forall i, 0 <= i < 25 ->
          exists k r, rs !! k = Some r /\ covers r i
            /\ forall k' r', rs !! k' = Some r' -> covers r' i -> k' = k).
Proof. apply (chunk_indices_tiles 25 10); lia. Defined.

(** * Properties of the pattern matcher *)

Section RegexFacts.
Import Text Regex.
Local Open Scope string_scope.

Lemma append_nil_l (s : string) : "" ++ s = s.
Proof. reflexivity. Qed.

Lemma append_cons c (w s : string) : String c w ++ s = String c (w ++ s).
Proof. reflexivity. Qed.

Lemma rep_greedy_spec p (k : cont) (K : string -> Prop) :
  (forall s cs, is_Some (k s cs) <-> K s) ->
  forall s min cs,
    is_Some (rep_greedy p k min s cs) <->
    exists w s', s = w ++ s' /\ (min <= String.length w)%nat
                 /\ all_chars p w /\ K s'.
Proof.
  intros Hk. induction s as [|c s IH]; intros min cs.
  - cbn. split.
    + destruct min; [|intros [? ?]; discriminate].
      intros H. exists "", "". repeat split; [lia| intros ? []|].
      apply (Hk _ cs), H.
    + intros (w & s' & E & Hm & _ & HK).
      destruct w; [|discriminate]. rewrite append_nil_l in E; subst s'.
      cbn in Hm. destruct min; [|lia]. apply Hk, HK.
  - cbn. split.
    + intros H.
      assert (Hstop : is_Some (match min with O => k (String c s) cs | S _ => None end)
                      -> exists w s', String c s = w ++ s' /\ (min <= String.length w)%nat
                                      /\ all_chars p w /\ K s').
      { destruct min; [|intros [? ?]; discriminate].
        intros H'. exists "", (String c s). repeat split; [cbn; lia|intros ? []|].
        apply (Hk _ cs), H'. }
      destruct (p c) eqn:Hp; [|auto].
      destruct (rep_greedy p k (Nat.pred min) s cs) eqn:Hr; [|auto].
      assert (Hs : is_Some (rep_greedy p k (Nat.pred min) s cs)) by (rewrite Hr; eauto).
      apply IH in Hs. destruct Hs as (w & s' & E & Hm & Hall & HK).
      exists (String c w), s'. repeat split.
      * rewrite append_cons. now rewrite E.
      * cbn. lia.
      * intros c' [<-|Hin]; [exact Hp|apply Hall, Hin].
      * exact HK.
    + intros (w & s' & E & Hm & Hall & HK).
      destruct w as [|c' w].
      * rewrite append_nil_l in E; cbn in Hm; subst s'. destruct min; [|lia].
        assert (Hs : is_Some (k (String c s) cs)) by (apply Hk, HK).
        destruct (p c); [|exact Hs].
        destruct (rep_greedy p k (Nat.pred 0) s cs); [eauto|exact Hs].
      * rewrite append_cons in E; injection E as <- ->.
        rewrite (Hall c) by (left; reflexivity).
        assert (Hs : is_Some (rep_greedy p k (Nat.pred min) (w ++ s') cs)).
        { apply IH. exists w, s'. repeat split; [cbn in Hm; lia| |exact HK].
          intros c0 Hc. apply Hall. right. exact Hc. }
        destruct Hs as [r ->]. eauto.
Qed.

Lemma rep_lazy_spec p (k : cont) (K : string -> Prop) :
  (forall s cs, is_Some (k s cs) <-> K s) ->
  forall s min cs,
    is_Some (rep_lazy p k min s cs) <->
    exists w s', s = w ++ s' /\ (min <= String.length w)%nat
                 /\ all_chars p w /\ K s'.
Proof.
  intros Hk. induction s as [|c s IH]; intros min cs.
  - destruct min; cbn.
    + split.
      * intros H. exists "", "". repeat split; [lia|intros ? []|].
        apply (Hk _ cs). destruct (k "" cs); [eauto|destruct H; discriminate].
      * intros (w & s' & E & _ & _ & HK).
        destruct w; [|discriminate]. rewrite append_nil_l in E; subst s'.
        apply (Hk _ cs) in HK. destruct HK as [r ->]. eauto.
    + split; [intros [? ?]; discriminate|].
      intros (w & s' & E & Hm & _). destruct w; [cbn in Hm; lia|discriminate].
  - assert (Hmore : forall m,
      is_Some (if p c then rep_lazy p k m s cs else None) <->
      exists w s', String c s = String c w ++ s' /\ (m <= String.length w)%nat
                   /\ all_chars p (String c w) /\ K s').
    { intros m. split.
      - destruct (p c) eqn:Hp; [|intros [? ?]; discriminate].
        intros H. apply IH in H. destruct H as (w & s' & E & Hm & Hall & HK).
        exists w, s'. repeat split; [rewrite append_cons; now rewrite E|exact Hm| |exact HK].
        intros c' [<-|Hin]; [exact Hp|apply Hall, Hin].
      - intros (w & s' & E & Hm & Hall & HK).
        rewrite (Hall c) by (left; reflexivity).
        rewrite append_cons in E; injection E as ->. apply IH.
        exists w, s'. repeat split; [exact Hm| |exact HK].
        intros c' Hc. apply Hall. right. exact Hc. }
    destruct min; cbn.
    + split.
      * intros H. destruct (k (String c s) cs) eqn:Hkc.
        -- exists "", (String c s). repeat split; [cbn; lia|intros ? []|].
           apply (Hk _ cs). rewrite Hkc. eauto.
        -- apply (Hmore 0%nat) in H. destruct H as (w & s' & E & Hm & Hall & HK).
           exists (String c w), s'. repeat split; [exact E|cbn; lia|exact Hall|exact HK].
      * intros (w & s' & E & _ & Hall & HK).
        destruct (k (String c s) cs) eqn:Hkc; [eauto|].
        apply (Hmore 0%nat). destruct w as [|c' w].
        -- rewrite append_nil_l in E; subst s'. apply (Hk _ cs) in HK. rewrite Hkc in HK.
           destruct HK; discriminate.
        -- rewrite append_cons in E; injection E as <- ->. exists w, s'.
           repeat split; [lia|exact Hall|exact HK].
    + rewrite (Hmore min). split.
      * intros (w & s' & E & Hm & Hall & HK).
        exists (String c w), s'. repeat split; [exact E|cbn; lia|exact Hall|exact HK].
      * intros (w & s' & E & Hm & Hall & HK).
        destruct w as [|c' w]; [cbn in Hm; lia|].
        rewrite append_cons in E; injection E as <- ->. exists w, s'.
        repeat split; [cbn in Hm; lia|exact Hall|exact HK].
Qed.

(** The search of [exec] finds a match exactly when the pattern, read
    declaratively, accepts the text; the group bookkeeping plays no
    part in that. *)
Lemma exec_spec re : forall s cs, is_Some (exec re s cs) <-> denote re s.
Proof.
  induction re as [|it re IH]; intros s cs.
  - cbn. split; eauto.
  - destruct it as [c|p|p min [|]|g|g|]; cbn [exec denote].
    + destruct s as [|c' s].
      * split; [intros [? ?]; discriminate|intros (? & ? & _); discriminate].
      * destruct (Ascii.eqb_spec c c') as [<-|Hne].
        -- rewrite IH. split; [eauto|]. intros (s' & E & H). now injection E as <-.
        -- split; [intros [? ?]; discriminate|].
           intros (s' & E & _). injection E as -> _. now destruct Hne.
    + destruct s as [|c' s].
      * split; [intros [? ?]; discriminate|intros (? & ? & ? & _); discriminate].
      * destruct (p c') eqn:Hp.
        -- rewrite IH. split; [eauto 6|].
           intros (c0 & s' & E & _ & H). now injection E as _ <-.
        -- split; [intros [? ?]; discriminate|].
           intros (c0 & s' & E & Hp' & _). injection E as <- _. congruence.
    + apply rep_greedy_spec. exact IH.
    + apply rep_lazy_spec. exact IH.
    + apply IH.
    + apply IH.
    + destruct (at_end s).
      * rewrite IH. tauto.
      * split; [intros [? ?]; discriminate|intros [? _]; discriminate].
Qed.
End RegexFacts.

(** * Properties of the turn parser *)

Section ParserFacts.
Import Text Regex Parser.
Local Open Scope string_scope.

Lemma all_chars_nil p : all_chars p "".
Proof. intros ? []. Qed.

Lemma all_chars_cons p c s :
  all_chars p (String c s) <-> p c = true /\ all_chars p s.
Proof.
  split.
  - intros H. split; [apply H; left; reflexivity|].
    intros c' Hc. apply H. right. exact Hc.
  - intros [Hc Hs] c' [<-|Hin]; [exact Hc|apply Hs, Hin].
Qed.

Lemma all_chars_app p a b :
  all_chars p (a ++ b) <-> all_chars p a /\ all_chars p b.
Proof.
  induction a as [|c a IH].
  - rewrite append_nil_l. split; [intros H; split; [apply all_chars_nil|exact H]|tauto].
  - rewrite append_cons, !all_chars_cons, IH. tauto.
Qed.

Lemma splitlines_cons c s' :
  splitlines (String c s') =
  if is_linebreak c then
    match s' with
    | String c2 s'' =>
        if ((code c =? 13) && (code c2 =? 10))%N
        then "" :: splitlines s''
        else "" :: splitlines s'
    | "" => [""]
    end
  else
    match splitlines s' with
    | [] => [String c ""]
    | l :: ls => String c l :: ls
    end.
Proof. reflexivity. Qed.

Lemma splitlines_no_linebreak_aux (s : string) :
  Forall no_linebreak (splitlines s)
  /\ forall c, Forall no_linebreak (splitlines (String c s)).
Proof.
  assert (Hnil : no_linebreak "") by apply all_chars_nil.
  assert (Hcons : forall c l, is_linebreak c = false -> no_linebreak l ->
                              no_linebreak (String c l)).
  { intros c l Hc Hl. apply all_chars_cons. rewrite Hc. split; [reflexivity|exact Hl]. }
  induction s as [|c2 s [IH1 IH2]].
  - split; [constructor|]. intros c. cbn.
    destruct (is_linebreak c) eqn:Hc;
      (apply List.Forall_cons; [|apply List.Forall_nil]); auto.
  - split; [apply IH2|]. intros c.
    rewrite splitlines_cons. destruct (is_linebreak c) eqn:Hc.
    + destruct ((code c =? 13)%N && (code c2 =? 10)%N).
      * apply List.Forall_cons; [exact Hnil|exact IH1].
      * apply List.Forall_cons; [exact Hnil|apply IH2].
    + specialize (IH2 c2).
      destruct (splitlines (String c2 s)) as [|l ls].
      * apply List.Forall_cons; [|apply List.Forall_nil]. apply Hcons; auto.
      * inversion IH2; subst. apply List.Forall_cons; auto.
Qed.

Lemma splitlines_no_linebreak text line :
  In line (splitlines text) -> no_linebreak line.
Proof.
  intros Hin. pose proof (proj1 (splitlines_no_linebreak_aux text)) as H.
  rewrite Forall_forall in H. apply H. apply list_elem_of_In. exact Hin.
Qed.

Lemma is_turn_start_denote line :
  is_turn_start line = true <-> denote MSG_START_RE line.
Proof.
  unfold is_turn_start, re_match. rewrite <- (exec_spec _ line no_captures).
  destruct (exec MSG_START_RE line no_captures); split; eauto; try discriminate.
  intros [? ?]; discriminate.
Qed.

Lemma nonempty_length (w : string) : (1 <= String.length w)%nat <-> w <> "".
Proof. destruct w; cbn; split; intros; try lia; congruence. Qed.

Lemma linebreak_dot c : negb (is_linebreak c) = true -> is_dot c = true.
Proof.
  unfold is_linebreak, is_dot. destruct (N.eqb_spec (code c) 10) as [->|]; [|reflexivity].
  discriminate.
Qed.

Lemma denote_marker_shape line :
  denote MSG_START_RE line -> marker_shape line.
Proof.
  cbv [MSG_START_RE digits2 app]. cbn [denote].
  intros H.
  repeat match type of H with
         | exists _, _ => destruct H as [? H]
         | _ /\ _ => let H' := fresh "H" in destruct H as [H' H]
         end.
  subst. unfold marker_shape.
  do 17 eexists. split; [reflexivity|].
  repeat split; try assumption.
  - repeat constructor; assumption.
  - apply nonempty_length. assumption.
  - apply nonempty_length. assumption.
Qed.

Lemma marker_shape_denote line :
  no_linebreak line -> marker_shape line -> denote MSG_START_RE line.
Proof.
  intros Hnl (y1 & y2 & mo1 & mo2 & d1 & d2 & gap & h1 & h2 & mi1 & mi2
              & s1 & s2 & ws1 & spk & ws2 & tail
              & -> & Hdig & Hgap & Hgs & Hws1 & Hspk & Hws2).
  repeat match type of Hdig with
         | Forall _ (_ :: _) => apply Forall_cons in Hdig; destruct Hdig as [? Hdig]
         end.
  unfold no_linebreak in Hnl.
  repeat first [rewrite append_cons in Hnl | rewrite append_nil_l in Hnl].
  repeat first [rewrite all_chars_cons in Hnl | rewrite all_chars_app in Hnl].
  assert (Hdot : forall w, all_chars (fun c => negb (is_linebreak c)) w ->
                           all_chars is_dot w).
  { intros w Hw c Hc. apply linebreak_dot, Hw, Hc. }
  cbv [MSG_START_RE digits2 app]. cbn [denote].
  repeat first
    [ eexists _, _; split; [reflexivity|]; split; [eassumption|]
    | eexists; split; [reflexivity|] ].
  exists gap. eexists. split; [reflexivity|].
  split; [apply nonempty_length; exact Hgap|]. split; [exact Hgs|].
  repeat first
    [ eexists _, _; split; [reflexivity|]; split; [eassumption|]
    | eexists; split; [reflexivity|] ].
  exists ws1. eexists. split; [reflexivity|].
  split; [lia|]. split; [exact Hws1|].
  exists spk. eexists. split; [reflexivity|].
  split; [apply nonempty_length; exact Hspk|]. split; [apply Hdot; tauto|].
  eexists. split; [reflexivity|].
  exists ws2. eexists. split; [reflexivity|].
  split; [lia|]. split; [exact Hws2|].
  exists tail, "". split; [|split; [lia|split; [apply Hdot; tauto|]]].
  - clear. induction tail as [|c t IH]; [reflexivity|].
    rewrite append_cons, <- IH. reflexivity.
  - split; [reflexivity|exact I].
Qed.

(** A line matches the pattern exactly when it has the marker shape. *)
Lemma is_turn_start_shape line :
  no_linebreak line -> (is_turn_start line = true <-> marker_shape line).
Proof.
  intros Hnl. rewrite is_turn_start_denote. split.
  - apply denote_marker_shape.
  - apply marker_shape_denote. exact Hnl.
Qed.

(** A pass of the loop opens a turn exactly on a matching line. *)
Lemma step_opened st line :
  opened_turns (step st line)
  = (opened_turns st + if is_turn_start line then 1 else 0)%nat.
Proof.
  unfold step, is_turn_start, opened_turns, flush.
  destruct (re_match MSG_START_RE line).
  - destruct (current st); cbn; rewrite ?length_app; cbn; lia.
  - destruct (current st) eqn:E; cbn; rewrite ?E; lia.
Qed.

Lemma flush_numbered st :
  last_idx st = Z.of_nat (length (turns st)) ->
  map idx (turns st) = map Z.of_nat (seq 1 (length (turns st))) ->
  last_idx (flush st) = Z.of_nat (length (turns (flush st)))
  /\ map idx (turns (flush st))
     = map Z.of_nat (seq 1 (length (turns (flush st))))
  /\ length (turns (flush st)) = opened_turns st.
Proof.
  intros Hi Hm. unfold flush, opened_turns.
  destruct (current st); cbn [turns last_idx].
  - rewrite length_app, map_app, Hm, Nat.add_1_r, seq_S, map_app. cbn.
    rewrite Hi.
    replace (Z.of_nat (length (turns st)) + 1) with (Z.of_nat (S (length (turns st)))) by lia.
    repeat split; lia.
  - repeat split; auto; lia.
Qed.

Lemma fold_step_numbered lines : forall st,
  last_idx st = Z.of_nat (length (turns st)) ->
  map idx (turns st) = map Z.of_nat (seq 1 (length (turns st))) ->
  let st' := fold_left step lines st in
  last_idx st' = Z.of_nat (length (turns st'))
  /\ map idx (turns st') = map Z.of_nat (seq 1 (length (turns st')))
  /\ opened_turns st'
     = (opened_turns st
        + length (filter (fun l => is_turn_start l = true) lines))%nat.
Proof.
  induction lines as [|line lines IH]; intros st Hi Hm; cbn [fold_left].
  - cbn. repeat split; auto.
  - assert (Hs : last_idx (step st line) = Z.of_nat (length (turns (step st line)))
                 /\ map idx (turns (step st line))
                    = map Z.of_nat (seq 1 (length (turns (step st line))))).
    { unfold step. destruct (re_match MSG_START_RE line).
      - cbn [turns last_idx]. destruct (flush_numbered st Hi Hm) as (? & ? & _). auto.
      - destruct (current st); cbn [turns last_idx]; auto. }
    destruct Hs as [Hi' Hm'].
    destruct (IH _ Hi' Hm') as (H1 & H2 & H3).
    cbn zeta. repeat split; [exact H1|exact H2|].
    rewrite H3, step_opened, filter_cons.
    destruct (is_turn_start line); [rewrite decide_True by reflexivity|
                                    rewrite decide_False by discriminate]; cbn; lia.
Qed.
End ParserFacts.

Import Text Regex Parser.

(** C5. If [N] lines of the transcript match the turn-start pattern,
    [parse_turns] returns [N] turns and their [idx] fields are
    [1, 2, ..., N] in order. *)
Theorem parse_turns_count (text : string) :
  let n := length (filter (fun l => is_turn_start l = true) (splitlines text)) in
  length (parse_turns text) = n
  /\ map idx (parse_turns text) = map Z.of_nat (seq 1 n).
Proof.
  unfold parse_turns, parse_lines.
  destruct (fold_step_numbered (splitlines text) initial eq_refl eq_refl)
    as (Hi & Hm & Ho).
  destruct (flush_numbered _ Hi Hm) as (_ & Hm' & Hl).
  cbn zeta. rewrite Hm', Hl, Ho. cbn. auto.
Qed.

(** C4, as the code has it. For a line of the transcript, the pattern
    matches exactly when the line has the marker shape with a run of one
    or more whitespace characters (not exactly one space) between date
    and time; and a pass of the loop opens a new turn exactly when the
    pattern matches the line. *)
Theorem turn_start_marker (text line : string) :
  In line (splitlines text) ->
  (is_turn_start line = true <-> marker_shape line)
  /\ (forall st, opened_turns (step st line)
                 = (opened_turns st + if is_turn_start line then 1 else 0)%nat).
Proof.
  intros Hin. split.
  - apply is_turn_start_shape. eapply splitlines_no_linebreak. exact Hin.
  - intros st. apply step_opened.
Qed.

Lemma turn_start_marker_witness :
  In "[2024-01-01 00:00:00] A: hi"%string
     (splitlines "[2024-01-01 00:00:00] A: hi")
  /\ ((is_turn_start "[2024-01-01 00:00:00] A: hi" = true
       <-> marker_shape "[2024-01-01 00:00:00] A: hi")
      /\ (forall st, opened_turns (step st "[2024-01-01 00:00:00] A: hi")
                     = (opened_turns st
                        + if is_turn_start "[2024-01-01 00:00:00] A: hi"
                          then 1 else 0)%nat)).
Proof.
  assert (H : In "[2024-01-01 00:00:00] A: hi"%string
                 (splitlines "[2024-01-01 00:00:00] A: hi"))
    by (vm_compute; left; reflexivity).
  split; [exact H|].
  exact (turn_start_marker "[2024-01-01 00:00:00] A: hi"
                           "[2024-01-01 00:00:00] A: hi" H).
Defined.

(** C4 as stated fails on a line with two spaces between date and time:
    the pattern matches it and the parser opens a turn for it, although
    it has not the shape with exactly one space. *)
Lemma turn_start_one_space_counterexample :
  is_turn_start "[2024-01-01  00:00:00] A: hi" = true
  /\ parse_turns "[2024-01-01  00:00:00] A: hi"
     = [mkTurn 1 "2024-01-01  00:00:00" "A" "hi"]
  /\ ~ marker_shape_one_space "[2024-01-01  00:00:00] A: hi".
Proof.
  split; [reflexivity|]. split; [reflexivity|].
  intros (y1 & y2 & mo1 & mo2 & d1 & d2 & h1 & h2 & mi1 & mi2 & s1 & s2
          & ws1 & spk & ws2 & tail & Heq & Hdig & _).
  repeat first [rewrite append_cons in Heq | rewrite append_nil_l in Heq].
  discriminate Heq.
Qed.

(** * Properties of the skeleton generator and the record validator *)

Section DictFacts.
Import Doc.

Lemma dict_get_set_eq k v d : dict_get k (dict_set k v d) = Some v.
Proof.
  induction d as [|[k' v'] d IH]; cbn.
  - rewrite decide_True; auto.
  - destruct (decide (k = k')) as [->|Hne]; cbn.
    + rewrite decide_True; auto.
    + rewrite decide_False; auto.
Qed.

Lemma dict_get_set_ne k k' v d :
  k <> k' -> dict_get k' (dict_set k v d) = dict_get k' d.
Proof.
  intros Hne. induction d as [|[k0 v0] d IH]; cbn.
  - rewrite decide_False; auto.
  - destruct (decide (k = k0)) as [->|Hne0]; cbn.
    + rewrite !decide_False; auto.
    + destruct (decide (k' = k0)); auto.
Qed.

Lemma dict_keys_set k v d x :
  In x (dict_keys_of (dict_set k v d)) -> x = k \/ In x (dict_keys_of d).
Proof.
  induction d as [|[k0 v0] d IH]; cbn.
  - intros [<-|[]]. auto.
  - destruct (decide (k = k0)) as [->|Hne]; cbn.
    + intros [<-|H]; auto.
    + intros [<-|H]; auto. destruct (IH H); auto.
Qed.

Lemma dict_get_del k k' d :
  dict_get k' (dict_del k d) = if decide (k' = k) then None else dict_get k' d.
Proof.
  unfold dict_del. induction d as [|[k0 v0] d IH].
  - cbn. destruct (decide (k' = k)); reflexivity.
  - rewrite filter_cons. cbn [fst dict_get].
    destruct (decide (k0 <> k)) as [Hne|Heq]; cbn [dict_get].
    + rewrite IH. destruct (decide (k' = k0)) as [->|]; [|reflexivity].
      rewrite decide_False; auto.
    + apply dec_stable in Heq. subst k0. rewrite IH.
      destruct (decide (k' = k)); reflexivity.
Qed.

Lemma dict_mem_fold_set (keys : list key) : forall d k,
  In k keys \/ dict_mem k d = true ->
  dict_mem k (fold_left (fun d k => dict_set k (VStr "") d) keys d) = true.
Proof.
  unfold dict_mem.
  induction keys as [|k0 keys IH]; cbn; intros d k H.
  - destruct H as [[]|H]; exact H.
  - apply IH. destruct H as [[->|H]|H]; auto.
    + right. rewrite dict_get_set_eq. reflexivity.
    + right. destruct (decide (k0 = k)) as [->|Hne].
      * rewrite dict_get_set_eq. reflexivity.
      * rewrite dict_get_set_ne by exact Hne. exact H.
Qed.
End DictFacts.

Section SkeletonFacts.
Import Text Parser Doc Skeleton.
Variables (first_turn last_turn : Turn) (derived : gmap string string).

Lemma skeleton_loop_spec fs : forall out0 out,
  skeleton_loop fs first_turn last_turn derived out0 = Return out ->
  (forall k, In k (dict_keys_of out) ->
             In k (dict_keys_of out0) \/ In k (map (fun f => KStr (name f)) fs))
  /\ (forall n, ~ In n (map name fs) ->
                dict_get (KStr n) out = dict_get (KStr n) out0)
  /\ (NoDup (map name fs) ->
      forall f, In f fs ->
        exists dv, derived_value (name f) first_turn last_turn derived = Return dv
                   /\ dict_get (KStr (name f)) out = Some (stored dv f)).
Proof.
  induction fs as [|f0 fs IH]; cbn [skeleton_loop]; intros out0 out Hrun.
  - injection Hrun as <-. repeat split; auto. intros _ f [].
  - destruct (derived_value (name f0) first_turn last_turn derived) as [dv|e] eqn:Hdv;
      cbn [bind] in Hrun; [|discriminate].
    destruct (IH _ _ Hrun) as (Hkeys & Hframe & Hget). repeat split.
    + intros k Hk. destruct (Hkeys k Hk) as [H|H]; [|right; right; exact H].
      apply dict_keys_set in H. destruct H as [->|H]; [right; left; reflexivity|left; exact H].
    + intros n Hn. cbn in Hn. rewrite Hframe by tauto.
      apply dict_get_set_ne. intros E. injection E as E. tauto.
    + intros Hnd f [<-|Hin].
      * exists dv. split; [exact Hdv|]. cbn in Hnd. apply NoDup_cons in Hnd.
        destruct Hnd as [Hnotin _]. rewrite Hframe.
        -- apply dict_get_set_eq.
        -- rewrite <- list_elem_of_In. exact Hnotin.
      * cbn in Hnd. apply NoDup_cons in Hnd. destruct Hnd as [_ Hnd].
        apply Hget; assumption.
Qed.

Lemma derived_value_unknown n fn :
  derived !! n = Some fn -> fn <> ""%string ->
  fn <> "from_first_turn_date_ymd_slash"%string ->
  fn <> "from_first_last_turn_time_range"%string ->
  derived_value n first_turn last_turn derived
  = Raise (ValueError ("Unknown derived function: " ++ fn)).
Proof.
  intros Hfn Hne H1 H2. unfold derived_value. rewrite Hfn.
  destruct fn as [|c fn]; [congruence|]. cbn [is_empty].
  destruct (String.eqb_spec (String c fn) "from_first_turn_date_ymd_slash"); [congruence|].
  destruct (String.eqb_spec (String c fn) "from_first_last_turn_time_range"); [congruence|].
  reflexivity.
Qed.

Lemma derived_value_raise n e :
  derived_value n first_turn last_turn derived = Raise e ->
  exists fn, derived !! n = Some fn
             /\ e = ValueError ("Unknown derived function: " ++ fn).
Proof.
  unfold derived_value. destruct (derived !! n) as [fn|]; [|discriminate].
  destruct (is_empty fn); [discriminate|].
  destruct (String.eqb fn "from_first_turn_date_ymd_slash"); [discriminate|].
  destruct (String.eqb fn "from_first_last_turn_time_range"); [discriminate|].
  intros [= <-]. eauto.
Qed.

Lemma skeleton_loop_raises fs : forall out0 f e,
  In f fs ->
  derived_value (name f) first_turn last_turn derived = Raise e ->
  exists fn, skeleton_loop fs first_turn last_turn derived out0
             = Raise (ValueError ("Unknown derived function: " ++ fn)).
Proof.
  induction fs as [|f0 fs IH]; intros out0 f e Hin Hraise; [destruct Hin|].
  cbn [skeleton_loop].
  destruct (derived_value (name f0) first_turn last_turn derived) as [dv|e0] eqn:Hdv.
  - cbn [bind]. destruct Hin as [->|Hin]; [congruence|].
    eapply IH; eassumption.
  - cbn [bind]. apply derived_value_raise in Hdv. destruct Hdv as (fn & _ & ->).
    eauto.
Qed.
End SkeletonFacts.

Import Text Parser Doc Skeleton Validator.

(** C7, as the code has it. If the schema declares a field whose name the
    [derived] mapping binds to a non-empty rule name other than the two
    built-ins, [make_skeleton] raises the "Unknown derived function"
    error and produces no record. (A binding for a name that no declared
    field carries is never looked up, and an empty rule name counts as
    no binding.) *)
Theorem make_skeleton_unknown_rule (schema : Schema) (first_turn last_turn : Turn)
        (f : Field) (fn : string) :
  In f (fields schema) ->
  derived schema !! name f = Some fn ->
  fn <> ""%string ->
  fn <> "from_first_turn_date_ymd_slash"%string ->
  fn <> "from_first_last_turn_time_range"%string ->
  exists fn', make_skeleton schema first_turn last_turn
              = Raise (ValueError ("Unknown derived function: " ++ fn')).
Proof.
  intros Hin Hfn Hne H1 H2. unfold make_skeleton.
  eapply skeleton_loop_raises; [exact Hin|].
  apply derived_value_unknown; eassumption.
Qed.

Lemma make_skeleton_unknown_rule_witness :
  exists fn', make_skeleton
                (mkSchema [mkField "mood" "string" false false None None
                                   None None None [] false]
                          {[ "mood"%string := "from_stars"%string ]})
                (mkTurn 1 "2024-01-02 10:00:00" "A" "hi")
                (mkTurn 1 "2024-01-02 10:00:00" "A" "hi")
              = Raise (ValueError ("Unknown derived function: " ++ fn')).
Proof.
  apply (make_skeleton_unknown_rule
           (mkSchema [mkField "mood" "string" false false None None
                              None None None [] false]
                     {[ "mood"%string := "from_stars"%string ]})
           (mkTurn 1 "2024-01-02 10:00:00" "A" "hi")
           (mkTurn 1 "2024-01-02 10:00:00" "A" "hi")
           (mkField "mood" "string" false false None None None None None [] false)
           "from_stars").
  - left. reflexivity.
  - vm_compute. reflexivity.
  - discriminate.
  - discriminate.
  - discriminate.
Defined.

(** C7 as stated fails twice: a rule name bound to a name that no
    declared field carries is never resolved, and an empty rule name
    bound to a declared field is taken as "no derivation"; in both cases
    a record is produced. *)
Lemma make_skeleton_unknown_rule_counterexample :
  (let schema := mkSchema [] {[ "mood"%string := "from_stars"%string ]} in
   derived schema !! "mood"%string = Some "from_stars"%string
   /\ make_skeleton schema (mkTurn 1 "2024-01-02 10:00:00" "A" "hi")
                     (mkTurn 1 "2024-01-02 10:00:00" "A" "hi")
      = Return [])
  /\ (let schema :=
        mkSchema [mkField "mood" "string" false false None None
                          None None None [] false]
                 {[ "mood"%string := ""%string ]} in
      derived schema !! "mood"%string = Some ""%string
      /\ make_skeleton schema (mkTurn 1 "2024-01-02 10:00:00" "A" "hi")
                        (mkTurn 1 "2024-01-02 10:00:00" "A" "hi")
         = Return [(KStr "mood", VStr "")]).
Proof. repeat split; vm_compute; reflexivity. Qed.

Section ValidatorFacts.
Variable re_match : string -> string -> bool.

Lemma validate_field_none f :
  validate_field re_match VNone f
  = if required f then [MissingKey (name f)] else [].
Proof. reflexivity. Qed.

Lemma validate_string_unconstrained f s :
  unconstrained_string f = true ->
  validate_field re_match (VStr s) f = [].
Proof.
  unfold unconstrained_string, validate_field, validate_string, when.
  intros H. repeat (apply andb_prop in H; destruct H as [H ?]).
  rewrite H. destruct (non_empty f); [discriminate|].
  destruct (max_chars f); [discriminate|].
  destruct (pattern f) as [p|]; [|reflexivity].
  destruct (is_empty p); [reflexivity|discriminate].
Qed.

Lemma validate_default f :
  admits_default re_match f = true ->
  validate_field re_match (default_value_for_field f) f = [].
Proof.
  unfold admits_default, default_value_for_field, validate_field.
  destruct (String.eqb (ftype f) "string") eqn:Es.
  { unfold validate_string, when. change (strip "") with ""%string.
    change (len "") with 0. cbn [is_empty].
    intros H. destruct (non_empty f); [discriminate|]. cbn [negb andb app] in *.
    apply andb_prop in H. destruct H as [Hm Hp].
    assert (Hpat : match pattern f with
                   | Some p => if negb (is_empty p) && negb (re_match p "")
                               then [PatternMismatch (name f) p] else []
                   | None => []
                   end = []).
    { destruct (pattern f) as [p|]; [|reflexivity].
      destruct (is_empty p); [reflexivity|]. cbn in *. now rewrite Hp. }
    rewrite Hpat. destruct (max_chars f) as [m|]; [|reflexivity].
    apply Z.leb_le in Hm. destruct (Z.ltb_spec m 0); [lia|reflexivity]. }
  destruct (String.eqb (ftype f) "list") eqn:El.
  { unfold validate_list, when. cbn [length filter list_filter].
    change (Z.of_nat 0) with 0.
    intros H. apply andb_prop in H. destruct H as [H H3].
    apply andb_prop in H. destruct H as [H1 H2].
    destruct (min_items f) as [m1|];
      [apply Z.leb_le in H1; destruct (Z.ltb_spec 0 m1); [lia|]|];
      (destruct (max_items f) as [m2|];
       [apply Z.leb_le in H2; destruct (Z.ltb_spec m2 0); [lia|]|]);
      (destruct (min_non_empty_items f) as [m3|];
       [apply Z.leb_le in H3; destruct (Z.ltb_spec 0 m3); [lia|]|]);
      reflexivity. }
  destruct (String.eqb (ftype f) "dict") eqn:Ed.
  { unfold validate_dict, when. intros H.
    destruct (non_empty_any f); [discriminate|]. cbn [andb]. rewrite app_nil_r.
    set (d := fold_left _ _ _).
    assert (Hall : forall k, In k (dict_keys f) -> dict_mem k d = true).
    { intros k Hk. apply dict_mem_fold_set. left. exact Hk. }
    clearbody d. induction (dict_keys f) as [|k ks IH]; [reflexivity|].
    cbn [flat_map]. rewrite (Hall k) by (left; reflexivity). cbn.
    apply IH. intros k' Hk'. apply Hall. right. exact Hk'. }
  intros H. cbn. destruct (required f); [discriminate|reflexivity].
Qed.

Lemma flat_map_nil {A B} (g : A -> list B) (l : list A) :
  (forall x, In x l -> g x = []) -> flat_map g l = [].
Proof.
  induction l as [|x l IH]; intros H; [reflexivity|].
  cbn. rewrite H by (left; reflexivity). apply IH. intros y Hy. apply H. right. exact Hy.
Qed.

Lemma flat_map_ext_in {A B} (g h : A -> list B) (l : list A) :
  (forall x, In x l -> g x = h x) -> flat_map g l = flat_map h l.
Proof.
  induction l as [|x l IH]; intros H; [reflexivity|].
  cbn. rewrite H by (left; reflexivity). f_equal. apply IH.
  intros y Hy. apply H. right. exact Hy.
Qed.

(** On the record [make_skeleton] returns for a schema with distinct
    field names, the validator reports no extra key and, field by
    field, what [validate_field] says of the value stored for that
    field. *)
Lemma validate_skeleton schema first_turn last_turn out :
  NoDup (map name (fields schema)) ->
  make_skeleton schema first_turn last_turn = Return out ->
  validate_yaml_against_schema re_match (Some (VDict out)) schema
  = flat_map (fun f =>
                match derived_value (name f) first_turn last_turn (derived schema) with
                | Return dv => validate_field re_match (stored dv f) f
                | Raise _ => []
                end)
             (fields schema).
Proof.
  intros Hnd Hrun. unfold make_skeleton in Hrun.
  destruct (skeleton_loop_spec _ _ _ _ _ _ Hrun) as (Hkeys & _ & Hget).
  unfold validate_yaml_against_schema.
  assert (Hextra : filter (fun k => k ∉ map (fun f => KStr (name f)) (fields schema))
                          (dict_keys_of out) = []).
  { induction (dict_keys_of out) as [|k ks IH]; [reflexivity|].
    rewrite filter_cons. rewrite decide_False.
    - apply IH. intros k' Hk'. apply Hkeys. right. exact Hk'.
    - intros Hnot. apply Hnot. apply list_elem_of_In.
      destruct (Hkeys k) as [[]|H]; [left; reflexivity|exact H]. }
  rewrite Hextra. cbn [when bool_decide negb app].
  rewrite bool_decide_eq_true_2 by reflexivity. cbn [negb when app].
  apply flat_map_ext_in. intros f Hf.
  destruct (Hget Hnd f Hf) as (dv & Hdv & Hlook).
  rewrite Hdv. unfold record_get. rewrite Hlook. reflexivity.
Qed.

Lemma validate_del_null (schema : Schema) (data : pydict) (n : string) :
  In n (map name (fields schema)) ->
  dict_get (KStr n) data = Some VNone ->
  validate_yaml_against_schema re_match (Some (VDict data)) schema
  = validate_yaml_against_schema
      re_match (Some (VDict (dict_del (KStr n) data))) schema.
Proof.
  intros Hn Hnull. unfold validate_yaml_against_schema.
  assert (Hextra :
    filter (fun k => k ∉ map (fun f => KStr (name f)) (fields schema))
           (dict_keys_of (dict_del (KStr n) data))
    = filter (fun k => k ∉ map (fun f => KStr (name f)) (fields schema))
             (dict_keys_of data)).
  { assert (Hin : KStr n ∈ map (fun f => KStr (name f)) (fields schema)).
    { apply list_elem_of_In. apply in_map_iff in Hn. destruct Hn as (f & <- & Hf).
      apply in_map_iff. eauto. }
    clear Hnull. unfold dict_del, dict_keys_of.
    induction data as [|[k v] d IH]; [reflexivity|].
    rewrite filter_cons. cbn [fst map].
    destruct (decide (k <> KStr n)) as [Hne|Heq].
    - cbn [map fst]. rewrite !filter_cons, IH. reflexivity.
    - apply dec_stable in Heq. subst k. rewrite filter_cons, IH.
      rewrite decide_False; [reflexivity|]. intros Hnot. apply Hnot, Hin. }
  rewrite Hextra. f_equal. apply flat_map_ext_in. intros f _.
  unfold record_get. rewrite dict_get_del.
  destruct (decide (KStr (name f) = KStr n)) as [E|_]; [|reflexivity].
  rewrite E, Hnull. reflexivity.
Qed.
End ValidatorFacts.

(** C9. A field stored as null is validated as if it were absent: for a
    declared field [f] whose key holds null in the record, [validate_field]
    yields the single "Missing key" violation when [f] is required and
    nothing otherwise, whatever type and content constraints [f]
    declares; and the whole record gets the same violations as the
    record with that key removed. *)
Theorem null_validated_as_absent (re_match : string -> string -> bool)
        (schema : Schema) (data : pydict) (f : Field) :
  In f (fields schema) ->
  dict_get (KStr (name f)) data = Some VNone ->
  validate_field re_match (record_get data (name f)) f
  = (if required f then [MissingKey (name f)] else [])
  /\ validate_field re_match (record_get data (name f)) f
     = validate_field re_match
         (record_get (dict_del (KStr (name f)) data) (name f)) f
  /\ validate_yaml_against_schema re_match (Some (VDict data)) schema
     = validate_yaml_against_schema
         re_match (Some (VDict (dict_del (KStr (name f)) data))) schema.
Proof.
  intros Hf Hnull. unfold record_get at 1 2 3.
  rewrite Hnull, dict_get_del, decide_True by reflexivity. cbn [default].
  repeat split.
  apply validate_del_null; [|exact Hnull]. apply in_map. exact Hf.
Qed.

Lemma null_validated_as_absent_witness :
  let f := mkField "tags" "list" true false None None (Some 2) None None [] false in
  let schema := mkSchema [f] ∅ in
  let data := [(KStr "tags", VNone)] in
  validate_field (fun _ _ => true) (record_get data (name f)) f
  = (if required f then [MissingKey (name f)] else [])
  /\ validate_field (fun _ _ => true) (record_get data (name f)) f
     = validate_field (fun _ _ => true)
         (record_get (dict_del (KStr (name f)) data) (name f)) f
  /\ validate_yaml_against_schema (fun _ _ => true) (Some (VDict data)) schema
     = validate_yaml_against_schema
         (fun _ _ => true) (Some (VDict (dict_del (KStr (name f)) data))) schema.
Proof.
  intros f schema data.
  apply (null_validated_as_absent (fun _ _ => true) schema data f).
  - left. reflexivity.
  - reflexivity.
Defined.

(** C2, as the code has it. For a schema with distinct field names in
    which every field bound to a derivation rule is a string field
    without content constraints and every other field admits its type
    default, the record [make_skeleton] returns passes the validator
    with zero violations. A required string field with [non_empty]
    false and its fresh [""] yields no violation; with [non_empty] true
    the same fresh value yields exactly one, so such a schema is outside
    the round trip. *)
Theorem skeleton_round_trip (re_match : string -> string -> bool)
        (schema : Schema) (first_turn last_turn : Turn) (out : pydict) :
  skeleton_conforming re_match schema ->
  make_skeleton schema first_turn last_turn = Return out ->
  validate_yaml_against_schema re_match (Some (VDict out)) schema = []
  /\ (forall n,
        let f := mkField n "string" true false None None None None None [] false in
        validate_field re_match (default_value_for_field f) f = [])
  /\ (forall n,
        let f := mkField n "string" true true None None None None None [] false in
        validate_field re_match (default_value_for_field f) f = [IsEmpty n]).
Proof.
  intros [Hnd Hok] Hrun. split; [|split; reflexivity].
  rewrite (validate_skeleton _ _ _ _ _ Hnd Hrun).
  apply flat_map_nil. intros f Hf. specialize (Hok f Hf).
  unfold derived_value.
  destruct (derived schema !! name f) as [fn|]; [|apply validate_default, Hok].
  destruct (is_empty fn); [apply validate_default, Hok|].
  destruct (String.eqb fn "from_first_turn_date_ymd_slash");
    [apply validate_string_unconstrained, Hok|].
  destruct (String.eqb fn "from_first_last_turn_time_range");
    [apply validate_string_unconstrained, Hok|reflexivity].
Qed.

Lemma skeleton_round_trip_witness :
  let t1 := mkTurn 1 "2024-01-02 10:00:00" "A" "hi" in
  let t2 := mkTurn 2 "2024-01-02 10:05:00" "B" "ho" in
  let schema :=
    mkSchema
      [mkField "summary" "string" true false (Some 80) None None None None [] false;
       mkField "date" "string" true false None None None None None [] false;
       mkField "tags" "list" true false None None (Some 0) (Some 5) None [] false;
       mkField "people" "dict" true false None None None None None
               [KStr "a"; KInt 1] false;
       mkField "score" "number" false false None None None None None [] false]
      {[ "date"%string := "from_first_turn_date_ymd_slash"%string ]} in
  let out :=
    [(KStr "summary", VStr ""); (KStr "date", VStr "2024/01/02");
     (KStr "tags", VList []);
     (KStr "people", VDict [(KStr "a", VStr ""); (KInt 1, VStr "")]);
     (KStr "score", VNone)] in
  validate_yaml_against_schema (fun _ _ => true) (Some (VDict out)) schema = []
  /\ (forall n,
        let f := mkField n "string" true false None None None None None [] false in
        validate_field (fun _ _ => true) (default_value_for_field f) f = [])
  /\ (forall n,
        let f := mkField n "string" true true None None None None None [] false in
        validate_field (fun _ _ => true) (default_value_for_field f) f = [IsEmpty n]).
Proof.
  intros t1 t2 schema out.
  apply (skeleton_round_trip (fun _ _ => true) schema t1 t2 out).
  - split.
    + apply (bool_decide_unpack _). vm_compute. exact I.
    + intros f Hf. cbn in Hf.
      repeat (destruct Hf as [<-|Hf]; [vm_compute; reflexivity|]).
      destruct Hf.
  - vm_compute. reflexivity.
Defined.

(** C2 as stated fails for a schema with a required [non_empty] string
    field: the skeleton holds [""] for it and the validator reports
    "is empty". *)
Lemma skeleton_round_trip_counterexample :
  let t := mkTurn 1 "2024-01-02 10:00:00" "A" "hi" in
  let schema :=
    mkSchema [mkField "summary" "string" true true None None None None None [] false]
             ∅ in
  make_skeleton schema t t = Return [(KStr "summary", VStr "")]
  /\ validate_yaml_against_schema
       (fun _ _ => true) (Some (VDict [(KStr "summary", VStr "")])) schema
     = [IsEmpty "summary"].
Proof. split; vm_compute; reflexivity. Qed.

(** * Properties of the record writer *)

Section StoreFacts.
Import Store.
Local Open Scope string_scope.

Lemma length_append (a b : string) :
  String.length (a ++ b) = (String.length a + String.length b)%nat.
Proof.
  induction a as [|c a IH]; [reflexivity|].
  rewrite append_cons. cbn. rewrite IH. reflexivity.
Qed.

Lemma record_path_inside out_dir ch_id : record_path out_dir ch_id <> out_dir.
Proof.
  intros E. apply (f_equal String.length) in E.
  unfold record_path in E. rewrite length_append, append_cons in E.
  cbn in E. lia.
Qed.

Lemma mkdir_keeps out_dir (fs : filesystem) p nd :
  p <> out_dir -> fs !! p = Some nd -> (mkdir out_dir fs).1 !! p = Some nd.
Proof.
  intros Hne Hp. unfold mkdir.
  destruct (fs !! out_dir) as [[|?]|]; cbn; [exact Hp|exact Hp|].
  rewrite lookup_insert_ne by congruence. exact Hp.
Qed.

Lemma mkdir_files out_dir (fs : filesystem) p b :
  fs !! p = Some (File b) -> (mkdir out_dir fs).1 !! p = Some (File b).
Proof.
  intros Hp. unfold mkdir.
  destruct (fs !! out_dir) as [[|?]|] eqn:E; cbn; [exact Hp|exact Hp|].
  rewrite lookup_insert_ne; [exact Hp|]. intros <-. congruence.
Qed.

(** When nothing exists at the record path, the directory can be made
    and the skeleton is generated, the dump of the skeleton is what
    gets written there. *)
Lemma write_memory_yaml_fresh safe_dump ch_id schema first_turn last_turn
      out_dir (fs : filesystem) data :
  fs !! record_path out_dir ch_id = None ->
  (mkdir out_dir fs).2 = Return tt ->
  make_skeleton schema first_turn last_turn = Return data ->
  write_memory_yaml safe_dump ch_id schema first_turn last_turn out_dir fs
  = (<[record_path out_dir ch_id := File (safe_dump data)]> (mkdir out_dir fs).1,
     Return (record_path out_dir ch_id)).
Proof.
  intros Hno Hmk Hsk. unfold write_memory_yaml.
  assert (Hno' : (mkdir out_dir fs).1 !! record_path out_dir ch_id = None).
  { unfold mkdir. destruct (fs !! out_dir) as [[|?]|]; cbn; try exact Hno.
    rewrite lookup_insert_ne; [exact Hno|]. intros E. symmetry in E.
    exact (record_path_inside _ _ E). }
  destruct (mkdir out_dir fs) as [fs1 r]. cbn [fst snd] in *. subst r.
  unfold exists_. rewrite Hno', Hsk. reflexivity.
Qed.
End StoreFacts.

(** C8. [write_memory_yaml] writes once: if something already exists at
    the record path of the chunk identifier, the call leaves it as it is,
    byte for byte, whatever the schema and the turns, and whether the
    call returns or raises; no existing file anywhere changes; and the
    only effect of the call is that of [mkdir], so no skeleton is
    written. *)
Theorem write_memory_yaml_write_once
        (safe_dump : pydict -> string) (ch_id : Z) (schema : Schema)
        (first_turn last_turn : Turn) (out_dir : string)
        (fs : Store.filesystem) (existing : Store.node) :
  let path := Store.record_path out_dir ch_id in
  let fs' := (Store.write_memory_yaml safe_dump ch_id schema first_turn
                                      last_turn out_dir fs).1 in
  fs !! path = Some existing ->
  fs' !! path = Some existing
  /\ (forall p bytes, fs !! p = Some (Store.File bytes) ->
                      fs' !! p = Some (Store.File bytes))
  /\ fs' = (Store.mkdir out_dir fs).1.
Proof.
  intros path fs' Hex. subst fs'. unfold Store.write_memory_yaml.
  pose proof (mkdir_keeps out_dir fs path existing
                (record_path_inside out_dir ch_id) Hex) as Hkeep.
  pose proof (mkdir_files out_dir fs) as Hfiles.
  destruct (Store.mkdir out_dir fs) as [fs1 [[]|e]]; cbn [fst] in *;
    [|split; [exact Hkeep|split; [exact Hfiles|reflexivity]]].
  fold path. unfold Store.exists_. rewrite Hkeep. cbn.
  split; [exact Hkeep|split; [exact Hfiles|reflexivity]].
Qed.

Lemma write_memory_yaml_write_once_witness :
  let fs : Store.filesystem :=
    {[ "output/chapters"%string := Store.Dir;
       "output/chapters/ch_0007.yaml"%string := Store.File "summary: edited" ]} in
  let schema :=
    mkSchema [mkField "summary" "string" true false None None None None None [] false]
             ∅ in
  let t := mkTurn 1 "2024-01-02 10:00:00" "A" "hi" in
  let path := Store.record_path "output/chapters" 7 in
  let fs' := (Store.write_memory_yaml (fun _ => "summary: ''"%string) 7 schema t t
                                      "output/chapters" fs).1 in
  fs' !! path = Some (Store.File "summary: edited")
  /\ (forall p bytes, fs !! p = Some (Store.File bytes) ->
                      fs' !! p = Some (Store.File bytes))
  /\ fs' = (Store.mkdir "output/chapters" fs).1.
Proof.
  intros fs schema t.
  apply (write_memory_yaml_write_once
           (fun _ => "summary: ''"%string) 7 schema t t "output/chapters" fs
           (Store.File "summary: edited")).
  vm_compute. reflexivity.
Defined.

(** * Properties of the verify pass *)

Section VerifyFacts.
Import Verify.
Variable re_match : string -> string -> bool.

Lemma elem_of_list_sorted ext names x :
  x ∈ list_sorted ext names <-> glob_ch ext x = true /\ x ∈ names.
Proof.
  unfold list_sorted. rewrite merge_sort_Permutation, list_elem_of_filter.
  reflexivity.
Qed.

Lemma merge_sort_nil (l : list string) : merge_sort by_name l = [] <-> l = [].
Proof.
  split; [|intros ->; reflexivity].
  intros H. apply Permutation_nil_r. rewrite <- H.
  symmetry. apply merge_sort_Permutation.
Qed.

Lemma missing_yaml_nil chunk_files yaml_files schema :
  missing_yaml (examine re_match chunk_files yaml_files schema) = [] <->
  forall c, c ∈ chunk_files -> glob_ch ".txt" c = true ->
    exists y, y ∈ dom yaml_files /\ glob_ch ".yaml" y = true
              /\ stem ".yaml" y = stem ".txt" c.
Proof.
  unfold examine. cbn [missing_yaml]. rewrite merge_sort_nil.
  rewrite elements_empty_iff.
  split.
  - intros Hsub c Hc Hg.
    assert (Hin : stem ".txt" c ∈
              (list_to_set (map (stem ".txt") (list_sorted ".txt" (elements chunk_files)))
               : gset string)).
    { apply elem_of_list_to_set, list_elem_of_In, in_map, list_elem_of_In.
      apply elem_of_list_sorted. split; [exact Hg|]. apply elem_of_elements, Hc. }
    destruct (decide (stem ".txt" c ∈
              (list_to_set (map (stem ".yaml")
                 (list_sorted ".yaml" (elements (dom yaml_files)))) : gset string)))
      as [Hy|Hy];
      [|exfalso; apply (not_elem_of_empty (C:=gset string) (stem ".txt" c));
        rewrite <- Hsub; apply elem_of_difference; split; assumption].
    apply elem_of_list_to_set, list_elem_of_In, in_map_iff in Hy.
    destruct Hy as (y & Hst & Hy). apply list_elem_of_In, elem_of_list_sorted in Hy.
    destruct Hy as [Hgy Hy]. apply elem_of_elements in Hy. eauto.
  - intros H. apply set_equiv. intros s. split;
      [|intros Hs; exfalso; exact (not_elem_of_empty _ Hs)].
    intros Hs. apply elem_of_difference in Hs. destruct Hs as [Hc Hny].
    apply elem_of_list_to_set, list_elem_of_In, in_map_iff in Hc.
    destruct Hc as (c & <- & Hc). apply list_elem_of_In, elem_of_list_sorted in Hc.
    destruct Hc as [Hg Hc]. apply elem_of_elements in Hc.
    destruct (H c Hc Hg) as (y & Hy & Hgy & Hst).
    exfalso. apply Hny. apply elem_of_list_to_set, list_elem_of_In, in_map_iff.
    exists y. split; [exact Hst|]. apply list_elem_of_In, elem_of_list_sorted.
    split; [exact Hgy|]. apply elem_of_elements, Hy.
Qed.

End VerifyFacts.



(** * The definitions on small inputs *)

Example parse_turns_drops_preamble :
  parse_turns ("junk" ++ String (ascii_of_N 10) "[2024-01-01 00:00:00] A: hi")
  = [mkTurn 1 "2024-01-01 00:00:00" "A" "hi"].
Proof. vm_compute. reflexivity. Qed.

Example marker_needs_speaker :
  is_turn_start "[2024-01-01 00:00:00]:" = false
  /\ is_turn_start "[1999-01-01 00:00:00] A: hi" = false.
Proof. split; vm_compute; reflexivity. Qed.

Example chunk_indices_overlap :
  Partition.chunk_indices 25 10 3 (Partition.passes 25 0)
  = Some (Return [Partition.mkRange 1 0 10; Partition.mkRange 2 7 17;
                  Partition.mkRange 3 14 24; Partition.mkRange 4 21 25]).
Proof. vm_compute. reflexivity. Qed.

Example chunk_indices_rejects :
  Partition.chunk_indices 25 0 0 1
  = Some (Raise (ValueError "chunk_size must be > 0"))
  /\ Partition.chunk_indices 25 10 10 1
     = Some (Raise (ValueError "overlap must be >=0 and < chunk_size")).
Proof. split; reflexivity. Qed.

Example time_range_rule :
  let first_turn := mkTurn 1 "2024-01-02 10:00:00" "A" "hi" in
  let last_turn := mkTurn 9 "2024-01-02 10:05:00" "B" "ho" in
  let derived : gmap string string :=
    {[ "time"%string := "from_first_last_turn_time_range"%string ]} in
  derived_value "time" first_turn last_turn derived
  = Return (Some "10:00:00-10:05:00"%string)
  /\ derived_value "time" first_turn first_turn derived
     = Return (Some "10:00:00"%string).
Proof. split; vm_compute; reflexivity. Qed.

Example record_path_padded :
  Store.record_path "output/chapters" 7 = "output/chapters/ch_0007.yaml"%string.
Proof. vm_compute. reflexivity. Qed.

(** * Further properties of the chunk partitioner *)

Section PartitionShape.
Import Partition.
Variables total size overlap : Z.
Hypothesis Hvalid : 0 <= overlap < size.

(** From a state with [start >= 0], the ranges the loop still emits are
    those of an arithmetic progression of starts with step
    [size - overlap], and only the last one ends at [total]. *)
Lemma chunk_loop_closed :
  forall fuel st, 0 <= start st -> (passes total (start st) <= fuel)%nat ->
  exists tl,
    chunk_loop total size overlap fuel st = Some (ranges st ++ tl)
    /\ (forall k r, tl !! k = Some r ->
          r = mkRange (next_id st + Z.of_nat k)
                      (start st + Z.of_nat k * (size - overlap))
                      (Z.min (start st + Z.of_nat k * (size - overlap) + size) total))
    /\ (forall k r, tl !! k = Some r ->
          (end_i r = total <-> S k = length tl))
    /\ (start st < total -> tl <> []).
Proof.
  unfold passes.
  induction fuel as [|fuel IH]; intros st Hst Hf; [lia|].
  simpl. unfold loop_cond, loop_body.
  destruct (Z.ltb_spec (start st) total) as [Hlt|Hge].
  - destruct (Z.eqb_spec (Z.min (start st + size) total) total) as [E|E].
    + cbn [ranges]. eexists [_]. split; [reflexivity|]. split; [|split].
      * intros [|k] r Hk; [|destruct k; discriminate]. injection Hk as <-.
        f_equal; lia.
      * intros [|k] r Hk; [|destruct k; discriminate]. injection Hk as <-.
        cbn. tauto.
      * discriminate.
    + set (st' := mkLoop _ _ _).
      destruct (IH st') as (tl & Hrun & Hform & Hlast & Hne).
      { subst st'. cbn [start]. lia. }
      { subst st'. cbn [start]. lia. }
      rewrite Hrun. subst st'. cbn [ranges start next_id] in *.
      eexists (_ :: tl). split; [rewrite <- app_assoc; reflexivity|].
      split; [|split].
      * intros [|k] r Hk.
        -- injection Hk as <-. f_equal; lia.
        -- cbn in Hk. rewrite (Hform k r Hk). f_equal; lia.
      * intros [|k] r Hk.
        -- injection Hk as <-. cbn [end_i length]. split; [contradiction|].
           intros Hlen. exfalso. apply Hne; [lia|].
           destruct tl; [reflexivity|discriminate].
        -- cbn in Hk. cbn [length]. rewrite (Hlast k r Hk). lia.
      * discriminate.
  - exists []. rewrite app_nil_r. split; [reflexivity|].
    split; [|split]; try (intros k r Hk; destruct k; discriminate). lia.
Qed.

(** Whatever the overlap, the ranges still to be emitted are non-empty,
    lie within [[start, total]], are at most [size] long, and leave no
    index of [[start, total)] uncovered. *)
Lemma chunk_loop_covers :
  forall fuel st, 0 <= start st -> (passes total (start st) <= fuel)%nat ->
  exists tl,
    chunk_loop total size overlap fuel st = Some (ranges st ++ tl)
    /\ Forall (fun r => start st <= start_i r /\ start_i r < end_i r
                        /\ end_i r <= total /\ end_i r - start_i r <= size) tl
    /\ (forall i, start st <= i < total ->
          exists k r, tl !! k = Some r /\ covers r i).
Proof.
  unfold passes.
  induction fuel as [|fuel IH]; intros st Hst Hf; [lia|].
  simpl. unfold loop_cond, loop_body.
  destruct (Z.ltb_spec (start st) total) as [Hlt|Hge].
  - destruct (Z.eqb_spec (Z.min (start st + size) total) total) as [E|E].
    + cbn [ranges]. eexists [_]. split; [reflexivity|]. split.
      * apply List.Forall_cons; [cbn; lia|apply List.Forall_nil].
      * intros i Hi. exists 0%nat. eexists. split; [reflexivity|].
        unfold covers. cbn. lia.
    + set (st' := mkLoop _ _ _).
      destruct (IH st') as (tl & Hrun & Hall & Hcov).
      { subst st'. cbn [start]. lia. }
      { subst st'. cbn [start]. lia. }
      rewrite Hrun. subst st'. cbn [ranges start] in *.
      eexists (_ :: tl). split; [rewrite <- app_assoc; reflexivity|]. split.
      * apply List.Forall_cons; [cbn; lia|].
        eapply Forall_impl; [exact Hall|]. cbn. intros r ?. lia.
      * intros i Hi.
        destruct (Z.lt_ge_cases i (Z.min (start st + size) total)) as [Hin|Hout].
        -- exists 0%nat. eexists. split; [reflexivity|]. unfold covers. cbn. lia.
        -- destruct (Hcov i) as (k & r & Hk & Hc); [lia|].
           exists (S k), r. split; [exact Hk|exact Hc].
  - exists []. rewrite app_nil_r. split; [reflexivity|].
    split; [apply List.Forall_nil|]. intros i Hi. lia.
Qed.
End PartitionShape.

Import Partition.

(** Everything the two lemmas above say of the list [chunk_indices]
    returns. *)
Lemma chunk_indices_shape (total_turns chunk_size overlap : Z) :
  0 <= overlap < chunk_size ->
  exists rs,
    (forall fuel, (passes total_turns 0 <= fuel)%nat ->
       chunk_indices total_turns chunk_size overlap fuel = Some (Return rs))
    /\ (forall k r, rs !! k = Some r ->
          r = mkRange (Z.of_nat k + 1) (Z.of_nat k * (chunk_size - overlap))
                      (Z.min (Z.of_nat k * (chunk_size - overlap) + chunk_size)
                             total_turns))
    /\ (forall k r, rs !! k = Some r ->
          (end_i r = total_turns <-> S k = length rs))
    /\ (0 < total_turns -> rs <> [])
    /\ Forall (fun r => 0 <= start_i r /\ start_i r < end_i r
                        /\ end_i r <= total_turns
                        /\ end_i r - start_i r <= chunk_size) rs
    /\ (forall i, 0 <= i < total_turns ->
          exists k r, rs !! k = Some r /\ covers r i).
Proof.
  intros Hov.
  destruct (chunk_loop_closed total_turns chunk_size overlap Hov
              (passes total_turns 0) (mkLoop [] 0 1))
    as (tl & Hrun & Hform & Hlast & Hne); [cbn; lia|cbn; lia|].
  destruct (chunk_loop_covers total_turns chunk_size overlap Hov
              (passes total_turns 0) (mkLoop [] 0 1))
    as (tl' & Hrun' & Hall & Hcov); [cbn; lia|cbn; lia|].
  rewrite Hrun in Hrun'. injection Hrun' as Heq. cbn in Heq. subst tl'.
  cbn [ranges start next_id app] in *. exists tl. repeat split.
  - intros fuel Hfuel. rewrite chunk_indices_valid by lia.
    rewrite (chunk_loop_mono _ _ _ _ _ _ Hrun fuel Hfuel). reflexivity.
  - intros k r Hk. rewrite (Hform k r Hk). f_equal; lia.
  - apply Hlast. assumption.
  - apply Hlast. assumption.
  - exact Hne.
  - exact Hall.
  - exact Hcov.
Qed.

(** Without overlap, a list of that shape has [total / size], rounded
    up, entries. *)
Lemma shape_count (total_turns chunk_size : Z) (rs : list Range) :
  0 <= total_turns -> 0 < chunk_size ->
  (forall k r, rs !! k = Some r ->
     r = mkRange (Z.of_nat k + 1) (Z.of_nat k * (chunk_size - 0))
                 (Z.min (Z.of_nat k * (chunk_size - 0) + chunk_size) total_turns)) ->
  (forall k r, rs !! k = Some r -> (end_i r = total_turns <-> S k = length rs)) ->
  (0 < total_turns -> rs <> []) ->
  Forall (fun r => 0 <= start_i r /\ start_i r < end_i r
                   /\ end_i r <= total_turns
                   /\ end_i r - start_i r <= chunk_size) rs ->
  Z.of_nat (length rs) = (total_turns + chunk_size - 1) / chunk_size.
Proof.
  intros Htot Hsz Hform Hlast Hne Hall.
  apply Z.div_unique with
    (r := total_turns + chunk_size - 1 - chunk_size * Z.of_nat (length rs)); [|lia].
  left.
  destruct (decide (total_turns = 0)) as [->|Hpos].
  - destruct rs as [|r0 rs']; [cbn; lia|].
    apply Forall_cons in Hall. destruct Hall as [Hb _]. lia.
  - assert (Hnz : rs <> []) by (apply Hne; lia).
    destruct (exists_last Hnz) as (front & rl & ->).
    assert (Hl : (front ++ [rl]) !! length front = Some rl).
    { rewrite lookup_app_r by lia. rewrite Nat.sub_diag. reflexivity. }
    pose proof (Hform _ _ Hl) as El.
    assert (Hendl : end_i rl = total_turns).
    { apply (Hlast _ _ Hl). rewrite length_app. cbn. lia. }
    rewrite El in Hendl. cbn [end_i] in Hendl.
    rewrite length_app. cbn [length].
    destruct (decide (front = [])) as [->|Hfront]; [cbn in *; lia|].
    destruct (exists_last Hfront) as (front' & r0 & ->).
    assert (Hp : ((front' ++ [r0]) ++ [rl]) !! length front' = Some r0).
    { rewrite lookup_app_l by (rewrite length_app; cbn; lia).
      rewrite lookup_app_r by lia. rewrite Nat.sub_diag. reflexivity. }
    pose proof (Hform _ _ Hp) as Ep.
    assert (Hnp : end_i r0 <> total_turns).
    { intros E. apply (Hlast _ _ Hp) in E.
      rewrite !length_app in E. cbn in E. lia. }
    rewrite Ep in Hnp. cbn [end_i] in Hnp.
    rewrite length_app in *. cbn [length] in *. lia.
Qed.

(** X1. The range at position [k] of the returned list has identifier
    [k + 1], starts at [k * (chunk_size - overlap)] and ends at that
    start plus [chunk_size], cut off at [total_turns]. *)
Theorem chunk_indices_kth (total_turns chunk_size overlap : Z) :
  0 <= overlap < chunk_size ->
  exists rs,
    (forall fuel, (passes total_turns 0 <= fuel)%nat ->
       chunk_indices total_turns chunk_size overlap fuel = Some (Return rs))
    /\ (forall k r, rs !! k = Some r ->
          ch_id r = Z.of_nat k + 1
          /\ start_i r = Z.of_nat k * (chunk_size - overlap)
          /\ end_i r = Z.min (Z.of_nat k * (chunk_size - overlap) + chunk_size)
                             total_turns).
Proof.
  intros Hov.
  destruct (chunk_indices_shape total_turns chunk_size overlap Hov)
    as (rs & Hrun & Hform & _).
  exists rs. split; [exact Hrun|].
  intros k r Hk. rewrite (Hform k r Hk). cbn. repeat split.
Qed.

Lemma chunk_indices_kth_witness :
  exists rs,
    (forall fuel, (passes 25 0 <= fuel)%nat ->
       chunk_indices 25 10 3 fuel = Some (Return rs))
    /\ (forall k r, rs !! k = Some r ->
          ch_id r = Z.of_nat k + 1
          /\ start_i r = Z.of_nat k * (10 - 3)
          /\ end_i r = Z.min (Z.of_nat k * (10 - 3) + 10) 25).
Proof. apply (chunk_indices_kth 25 10 3). lia. Defined.

(** X2. Two consecutive ranges share exactly [overlap] turns: the earlier
    one is a full [chunk_size] long, the later one starts [overlap]
    before the earlier one ends and carries the next identifier, and
    the indices that lie in both are the last [overlap] ones of the
    earlier range. *)
Theorem chunk_indices_overlap_shared (total_turns chunk_size overlap : Z) :
  0 <= overlap < chunk_size ->
  exists rs,
    (forall fuel, (passes total_turns 0 <= fuel)%nat ->
       chunk_indices total_turns chunk_size overlap fuel = Some (Return rs))
    /\ (forall k r r', rs !! k = Some r -> rs !! S k = Some r' ->
          end_i r = start_i r + chunk_size
          /\ start_i r' = end_i r - overlap
          /\ ch_id r' = ch_id r + 1
          /\ (forall i, covers r i /\ covers r' i
                        <-> end_i r - overlap <= i < end_i r)).
Proof.
  intros Hov.
  destruct (chunk_indices_shape total_turns chunk_size overlap Hov)
    as (rs & Hrun & Hform & Hlast & _).
  exists rs. split; [exact Hrun|].
  intros k r r' Hk Hk'.
  assert (Hnl : end_i r <> total_turns).
  { intros E. apply (Hlast k r Hk) in E.
    apply lookup_lt_Some in Hk'. lia. }
  rewrite (Hform k r Hk) in *. rewrite (Hform (S k) r' Hk') in *.
  unfold covers. cbn [start_i end_i ch_id] in *.
  repeat split; try lia.
Qed.

Lemma chunk_indices_overlap_shared_witness :
  exists rs,
    (forall fuel, (passes 25 0 <= fuel)%nat ->
       chunk_indices 25 10 3 fuel = Some (Return rs))
    /\ (forall k r r', rs !! k = Some r -> rs !! S k = Some r' ->
          end_i r = start_i r + 10
          /\ start_i r' = end_i r - 3
          /\ ch_id r' = ch_id r + 1
          /\ (forall i, covers r i /\ covers r' i
                        <-> end_i r - 3 <= i < end_i r)).
Proof. apply (chunk_indices_overlap_shared 25 10 3). lia. Defined.

(** X3. Whatever the overlap, every returned range is non-empty, lies
    within [[0, total_turns]] and holds at most [chunk_size] turns, and
    every index of [[0, total_turns)] lies in at least one range. *)
Theorem chunk_indices_covers (total_turns chunk_size overlap : Z) :
  0 <= overlap < chunk_size ->
  exists rs,
    (forall fuel, (passes total_turns 0 <= fuel)%nat ->
       chunk_indices total_turns chunk_size overlap fuel = Some (Return rs))
    /\ Forall (fun r => 0 <= start_i r /\ start_i r < end_i r
                        /\ end_i r <= total_turns
                        /\ end_i r - start_i r <= chunk_size) rs
    /\ (forall i, 0 <= i < total_turns ->
          exists k r, rs !! k = Some r /\ covers r i).
Proof.
  intros Hov.
  destruct (chunk_indices_shape total_turns chunk_size overlap Hov)
    as (rs & Hrun & _ & _ & _ & Hall & Hcov).
  exists rs. auto.
Qed.

Lemma chunk_indices_covers_witness :
  exists rs,
    (forall fuel, (passes 25 0 <= fuel)%nat ->
       chunk_indices 25 10 3 fuel = Some (Return rs))
    /\ Forall (fun r => 0 <= start_i r /\ start_i r < end_i r
                        /\ end_i r <= 25
                        /\ end_i r - start_i r <= 10) rs
    /\ (forall i, 0 <= i < 25 ->
          exists k r, rs !! k = Some r /\ covers r i).
Proof. apply (chunk_indices_covers 25 10 3). lia. Defined.

(** X4. Without overlap the number of chunks is [total_turns / chunk_size]
    rounded up. *)
Theorem chunk_indices_count (total_turns chunk_size : Z) :
  0 <= total_turns -> 0 < chunk_size ->
  exists rs,
    (forall fuel, (passes total_turns 0 <= fuel)%nat ->
       chunk_indices total_turns chunk_size 0 fuel = Some (Return rs))
    /\ Z.of_nat (length rs) = (total_turns + chunk_size - 1) / chunk_size.
Proof.
  intros Htot Hsz.
  destruct (chunk_indices_shape total_turns chunk_size 0 ltac:(lia))
    as (rs & Hrun & Hform & Hlast & Hne & Hall & _).
  exists rs. split; [exact Hrun|].
  apply shape_count; assumption.
Qed.

Lemma chunk_indices_count_witness :
  exists rs,
    (forall fuel, (passes 25 0 <= fuel)%nat ->
       chunk_indices 25 10 0 fuel = Some (Return rs))
    /\ Z.of_nat (length rs) = (25 + 10 - 1) / 10.
Proof. apply (chunk_indices_count 25 10); lia. Defined.

(** X5. [chunk_indices] raises exactly on invalid parameters, and does so
    before the loop: a [chunk_size] that is not positive gives the
    chunk-size error whatever the overlap, otherwise an overlap outside
    [[0, chunk_size)] gives the overlap error, and with valid parameters
    no exception is raised for any number of turns. *)
Theorem chunk_indices_raises (total_turns chunk_size overlap : Z) (fuel : nat) :
  (chunk_size <= 0 ->
     chunk_indices total_turns chunk_size overlap fuel
     = Some (Raise (ValueError "chunk_size must be > 0")))
  /\ (0 < chunk_size -> overlap < 0 \/ chunk_size <= overlap ->
        chunk_indices total_turns chunk_size overlap fuel
        = Some (Raise (ValueError "overlap must be >=0 and < chunk_size")))
  /\ (0 < chunk_size -> 0 <= overlap < chunk_size ->
        forall e, chunk_indices total_turns chunk_size overlap fuel
                  <> Some (Raise e)).
Proof.
  unfold chunk_indices. repeat split.
  - intros H. destruct (Z.leb_spec chunk_size 0); [reflexivity|lia].
  - intros Hsz Hov. destruct (Z.leb_spec chunk_size 0); [lia|].
    destruct (Z.ltb_spec overlap 0); [reflexivity|].
    destruct (Z.geb_spec overlap chunk_size); [reflexivity|lia].
  - intros Hsz Hov e. destruct (Z.leb_spec chunk_size 0); [lia|].
    destruct (Z.ltb_spec overlap 0); [lia|].
    destruct (Z.geb_spec overlap chunk_size); [lia|]. cbn [orb].
    destruct (chunk_loop _ _ _ _ _); discriminate.
Qed.

(** * Further properties of the text primitives *)

Section TextFacts.
Import Text.
Local Open Scope string_scope.

Lemma append_nil_r (s : string) : s ++ "" = s.
Proof. induction s as [|c s IH]; [reflexivity|]. rewrite append_cons, IH. reflexivity. Qed.

Lemma lstrip_head s :
  lstrip s = "" \/ exists c t, lstrip s = String c t /\ is_space c = false.
Proof.
  induction s as [|c s IH]; cbn; [left; reflexivity|].
  destruct (is_space c) eqn:E; [exact IH|]. right. eauto.
Qed.

Lemma rstrip_idem s : rstrip (rstrip s) = rstrip s.
Proof.
  induction s as [|c s IH]; [reflexivity|]. cbn.
  destruct (is_space c && is_empty (rstrip s)) eqn:E; [reflexivity|].
  cbn. rewrite IH, E. reflexivity.
Qed.

Lemma strip_idem s : strip (strip s) = strip s.
Proof.
  unfold strip. destruct (lstrip_head s) as [->|(c & t & -> & Hc)]; [reflexivity|].
  assert (E : rstrip (String c t) = String c (rstrip t))
    by (cbn; rewrite Hc; reflexivity).
  assert (E' : lstrip (String c (rstrip t)) = String c (rstrip t))
    by (cbn; rewrite Hc; reflexivity).
  rewrite E, E', <- E. apply rstrip_idem.
Qed.

Lemma lstrip_spaces w s : all_chars is_space w -> lstrip (w ++ s) = lstrip s.
Proof.
  induction w as [|c w IH]; intros Hw; [reflexivity|].
  apply all_chars_cons in Hw. destruct Hw as [Hc Hw].
  rewrite append_cons. cbn. rewrite Hc. apply IH, Hw.
Qed.

Lemma rstrip_spaces_nil w : all_chars is_space w -> rstrip w = "".
Proof.
  induction w as [|c w IH]; intros Hw; [reflexivity|].
  apply all_chars_cons in Hw. destruct Hw as [Hc Hw].
  cbn. rewrite (IH Hw), Hc. reflexivity.
Qed.

Lemma rstrip_spaces s w : all_chars is_space w -> rstrip (s ++ w) = rstrip s.
Proof.
  intros Hw. induction s as [|c s IH].
  - rewrite append_nil_l. apply rstrip_spaces_nil, Hw.
  - rewrite append_cons. cbn. rewrite IH. reflexivity.
Qed.

Lemma lstrip_app_nonspace s w :
  lstrip s <> "" -> lstrip (s ++ w) = lstrip s ++ w.
Proof.
  induction s as [|c s IH]; cbn; [congruence|].
  intros H. rewrite append_cons. cbn. destruct (is_space c); [apply IH, H|].
  rewrite append_cons. reflexivity.
Qed.

Lemma lstrip_all_space s : lstrip s = "" -> all_chars is_space s.
Proof.
  induction s as [|c s IH]; cbn; [intros _; apply all_chars_nil|].
  destruct (is_space c) eqn:E; [|discriminate].
  intros H. apply all_chars_cons. split; [exact E|apply IH, H].
Qed.

(** Whitespace around a text does not survive [strip]. *)
Lemma strip_spaces w1 s w2 :
  all_chars is_space w1 -> all_chars is_space w2 ->
  strip (w1 ++ s ++ w2) = strip s.
Proof.
  intros H1 H2. unfold strip. rewrite lstrip_spaces by exact H1.
  destruct (string_dec (lstrip s) "") as [E|E].
  - rewrite E. cbn. apply rstrip_spaces_nil.
    assert (Hall : all_chars is_space (s ++ w2)).
    { apply all_chars_app. split; [apply lstrip_all_space, E|exact H2]. }
    clear -Hall. induction (s ++ w2) as [|c t IH]; [apply all_chars_nil|].
    apply all_chars_cons in Hall. destruct Hall as [Hc Ht].
    cbn. rewrite Hc. apply IH, Ht.
  - rewrite lstrip_app_nonspace by exact E. apply rstrip_spaces, H2.
Qed.
End TextFacts.

(** * Further properties of the turn parser *)

Section ParserShape.
Import Text Regex Parser ParserNotions.
Local Open Scope string_scope.

Lemma fold_step_no_marker pre :
  Forall (fun l => is_turn_start l = false) pre ->
  fold_left step pre initial = initial.
Proof.
  induction pre as [|l pre IH]; intros H; [reflexivity|].
  apply Forall_cons in H. destruct H as [Hl Hpre].
  cbn [fold_left].
  assert (E : step initial l = initial).
  { unfold step, is_turn_start in *.
    destruct (re_match MSG_START_RE l); [discriminate|reflexivity]. }
  rewrite E. apply IH, Hpre.
Qed.

Lemma flush_ahead done st st' :
  ahead done st st' -> ahead done (flush st) (flush st').
Proof.
  intros (Ht & Hc & Hi). unfold ahead, flush. rewrite Hc.
  destruct (current st') as [cur|] eqn:Hc'; cbn [turns current last_idx];
    [|repeat split; auto; congruence].
  rewrite Ht, Hi. unfold renumber. rewrite map_app, <- app_assoc.
  cbn [map idx timestamp speaker content].
  replace (last_idx st' + 1 + Z.of_nat (length done))
    with (Z.of_nat (length done) + last_idx st' + 1) by lia.
  repeat split; auto; lia.
Qed.

Lemma step_ahead done st st' line :
  ahead done st st' -> ahead done (step st line) (step st' line).
Proof.
  intros H. pose proof (flush_ahead _ _ _ H) as (Ht & Hc & Hi).
  destruct H as (Ht0 & Hc0 & Hi0).
  unfold ahead, step. destruct (re_match MSG_START_RE line).
  - cbn [turns current last_idx]. auto.
  - rewrite Hc0. destruct (current st') eqn:Hc'; cbn [turns current last_idx].
    + repeat split; auto.
    + repeat split; auto. congruence.
Qed.

Lemma fold_step_ahead done lines : forall st st',
  ahead done st st' ->
  ahead done (fold_left step lines st) (fold_left step lines st').
Proof.
  induction lines as [|l lines IH]; intros st st' H; [exact H|].
  cbn [fold_left]. apply IH, step_ahead, H.
Qed.
End ParserShape.

Import ParserNotions.

(** X6. Lines before the first turn-start marker are dropped: a run of
    lines none of which matches the pattern, put in front of any lines,
    does not change the parsed turns; on its own it yields no turn. *)
Theorem parse_lines_preamble (pre rest : list string) :
  Forall (fun l => is_turn_start l = false) pre ->
  parse_lines (pre ++ rest) = parse_lines rest /\ parse_lines pre = [].
Proof.
  intros H. unfold parse_lines. rewrite fold_left_app.
  rewrite (fold_step_no_marker pre H). split; reflexivity.
Qed.

Lemma parse_lines_preamble_witness :
  parse_lines (["junk"; ""; "[2024-01-01] not a marker"]
               ++ ["[2024-01-01 00:00:00] A: hi"; "there"])
  = parse_lines ["[2024-01-01 00:00:00] A: hi"; "there"]
  /\ parse_lines ["junk"; ""; "[2024-01-01] not a marker"]%string = [].
Proof.
  apply (parse_lines_preamble ["junk"; ""; "[2024-01-01] not a marker"]%string).
  repeat (apply List.Forall_cons; [vm_compute; reflexivity|]).
  apply List.Forall_nil.
Defined.

(** X7. Parsing is compositional at a marker: the turns of a transcript
    cut in two before a turn-start line are the turns of the first part
    followed by the turns of the second part, renumbered to continue the
    count. What comes after a marker never changes the turns before it. *)
Theorem parse_lines_app (before after : list string) (marker : string) :
  is_turn_start marker = true ->
  parse_lines (before ++ marker :: after)
  = parse_lines before
    ++ renumber (Z.of_nat (length (parse_lines before)))
                (parse_lines (marker :: after)).
Proof.
  intros Hm. unfold parse_lines. rewrite fold_left_app. cbn [fold_left].
  set (st1 := fold_left step before initial).
  assert (Ha : ahead (turns (flush st1)) (step st1 marker) (step initial marker)).
  { unfold ahead, step, is_turn_start in *.
    destruct (re_match MSG_START_RE marker); [|discriminate].
    cbn [turns current last_idx flush initial]. rewrite app_nil_r.
    repeat split.
    destruct (fold_step_numbered before initial eq_refl eq_refl) as (Hi & Hn & _).
    fold st1 in Hi, Hn.
    destruct (flush_numbered st1 Hi Hn) as (Hi' & _ & _). lia. }
  apply (fold_step_ahead _ after) in Ha. apply flush_ahead in Ha.
  destruct Ha as (Ht & _ & _). exact Ht.
Qed.

Lemma parse_lines_app_witness :
  parse_lines (["[2024-01-01 00:00:00] A: hi"; "there"]
               ++ "[2024-01-01 00:00:05] B: ho"%string :: ["!"])
  = parse_lines ["[2024-01-01 00:00:00] A: hi"; "there"]
    ++ renumber
         (Z.of_nat (length (parse_lines ["[2024-01-01 00:00:00] A: hi"; "there"])))
         (parse_lines ("[2024-01-01 00:00:05] B: ho"%string :: ["!"])).
Proof.
  apply (parse_lines_app ["[2024-01-01 00:00:00] A: hi"; "there"]%string ["!"]%string
                         "[2024-01-01 00:00:05] B: ho").
  vm_compute. reflexivity.
Defined.

(** * What the groups of a match hold *)

Section Captures.
Import Text Regex Parser ParserNotions.
Local Open Scope string_scope.

Lemma rep_greedy_sound p (k : cont) : forall s min cs r,
  rep_greedy p k min s cs = Some r ->
  exists w s', s = w ++ s' /\ (min <= String.length w)%nat
               /\ all_chars p w /\ k s' cs = Some r.
Proof.
  induction s as [|c s IH]; intros min cs r H.
  - cbn in H. destruct min; [|discriminate].
    exists "", "". repeat split; [cbn; lia|apply all_chars_nil|exact H].
  - cbn in H.
    assert (Hstop : match min with O => k (String c s) cs | S _ => None end = Some r ->
                    exists w s', String c s = w ++ s' /\ (min <= String.length w)%nat
                                 /\ all_chars p w /\ k s' cs = Some r).
    { destruct min; [|discriminate]. intros H'.
      exists "", (String c s). repeat split; [cbn; lia|apply all_chars_nil|exact H']. }
    destruct (p c) eqn:Hp; [|auto].
    destruct (rep_greedy p k (Nat.pred min) s cs) as [r'|] eqn:Hr; [|auto].
    injection H as <-. apply IH in Hr. destruct Hr as (w & s' & -> & Hm & Hall & Hk).
    exists (String c w), s'. repeat split; [cbn; lia| |exact Hk].
    apply all_chars_cons. auto.
Qed.

Lemma rep_lazy_sound p (k : cont) : forall s min cs r,
  rep_lazy p k min s cs = Some r ->
  exists w s', s = w ++ s' /\ (min <= String.length w)%nat
               /\ all_chars p w /\ k s' cs = Some r.
Proof.
  induction s as [|c s IH]; intros min cs r H.
  - destruct min; cbn in H; [|discriminate].
    destruct (k "" cs) eqn:Hk; [|discriminate]. injection H as <-.
    exists "", "". repeat split; [cbn; lia|apply all_chars_nil|exact Hk].
  - assert (Hmore : forall m,
      (if p c then rep_lazy p k m s cs else None) = Some r ->
      exists w s', String c s = w ++ s' /\ (S m <= String.length w)%nat
                   /\ all_chars p w /\ k s' cs = Some r).
    { intros m Hm. destruct (p c) eqn:Hp; [|discriminate].
      apply IH in Hm. destruct Hm as (w & s' & -> & Hl & Hall & Hk).
      exists (String c w), s'. repeat split; [cbn; lia| |exact Hk].
      apply all_chars_cons. auto. }
    destruct min; cbn in H.
    + destruct (k (String c s) cs) eqn:Hk.
      * injection H as <-. exists "", (String c s).
        repeat split; [cbn; lia|apply all_chars_nil|exact Hk].
      * apply Hmore in H. destruct H as (w & s' & E & Hl & Hall & Hk').
        exists w, s'. repeat split; auto. lia.
    + apply Hmore in H. exact H.
Qed.

(** A successful search went along one way of matching, and its result
    is the bookkeeping of that way. *)
Lemma exec_trace re : forall s cs cs',
  exec re s cs = Some cs' -> trace re s cs cs'.
Proof.
  induction re as [|it re IH]; intros s cs cs' H.
  - cbn in *. congruence.
  - destruct it as [c|p|p min [|]|g|g|]; cbn [exec trace] in *.
    + destruct s as [|c' s]; [discriminate|].
      destruct (Ascii.eqb_spec c c') as [<-|]; [|discriminate]. eauto.
    + destruct s as [|c' s]; [discriminate|].
      destruct (p c') eqn:Hp; [|discriminate]. eauto 6.
    + apply rep_greedy_sound in H. destruct H as (w & s' & ? & ? & ? & ?). eauto 8.
    + apply rep_lazy_sound in H. destruct H as (w & s' & ? & ? & ? & ?). eauto 8.
    + auto.
    + auto.
    + destruct (at_end s); [|discriminate]. auto.
Qed.

Lemma append_assoc (a b c : string) : (a ++ b) ++ c = a ++ (b ++ c).
Proof.
  induction a as [|x a IH]; [reflexivity|]. rewrite !append_cons, IH. reflexivity.
Qed.

Lemma substring_prefix (a b : string) :
  substring 0 (String.length (a ++ b) - String.length b) (a ++ b) = a.
Proof.
  rewrite length_append. replace (String.length a + String.length b - String.length b)%nat
    with (String.length a) by lia.
  induction a as [|x a IH]; [destruct b; reflexivity|].
  rewrite append_cons. cbn. rewrite IH. reflexivity.
Qed.

(** The three groups of a match of [MSG_START_RE], and how they make up
    the line. *)
Lemma match_groups line m :
  re_match MSG_START_RE line = Some m ->
  exists date gap time ws1 ws2 rest,
    timestamp_shape date gap time
    /\ group m 1 = date ++ gap ++ time
    /\ line = "[" ++ group m 1 ++ "]" ++ ws1 ++ group m 2 ++ ":" ++ ws2
              ++ group m 3 ++ rest
    /\ all_chars is_space ws1 /\ all_chars is_space ws2
    /\ group m 2 <> "" /\ all_chars is_dot (group m 2)
    /\ all_chars is_dot (group m 3)
    /\ at_end rest = true.
Proof.
  intros H. apply exec_trace in H. revert H.
  cbv [MSG_START_RE digits2 app]. cbn [trace].
  intros (r0 & -> & r1 & -> & r2 & ->
          & y1 & r3 & -> & Hy1 & y2 & r4 & -> & Hy2 & r5 & ->
          & mo1 & r6 & -> & Hmo1 & mo2 & r7 & -> & Hmo2 & r8 & ->
          & d1 & r9 & -> & Hd1 & d2 & r10 & -> & Hd2
          & gap & r11 & -> & Hgl & Hgap
          & h1 & r12 & -> & Hh1 & h2 & r13 & -> & Hh2 & r14 & ->
          & mi1 & r15 & -> & Hmi1 & mi2 & r16 & -> & Hmi2 & r17 & ->
          & s1 & r18 & -> & Hs1 & s2 & r19 & -> & Hs2 & r20 & ->
          & ws1 & r21 & -> & _ & Hws1
          & spk & r22 & -> & Hspk & Hspkd & r23 & ->
          & ws2 & r24 & -> & _ & Hws2
          & tail & rest & -> & _ & Htail & Hend & ->).
  set (dt := "20" ++ String y1 (String y2 "") ++ "-"
               ++ String mo1 (String mo2 "") ++ "-" ++ String d1 (String d2 "")).
  set (tm := String h1 (String h2 "") ++ ":" ++ String mi1 (String mi2 "")
               ++ ":" ++ String s1 (String s2 "")).
  exists dt, gap, tm, ws1, ws2, rest.
  assert (G1 : forall s' : string,
            String "2" (String "0" (String y1 (String y2
              (String "-" (String mo1 (String mo2 (String "-" (String d1 (String d2
              (gap ++ String h1 (String h2 (String ":" (String mi1 (String mi2
              (String ":" (String s1 (String s2 s')))))))))))))))))
            = (dt ++ gap ++ tm) ++ s')
    by (intros s'; subst dt tm; rewrite !append_assoc; reflexivity).
  unfold group, close_group, open_group.
  cbn [opened closed assoc Nat.eqb default from_option id].
  rewrite G1, !substring_prefix.
  split.
  { unfold timestamp_shape. exists y1, y2, mo1, mo2, d1, d2, h1, h2, mi1, mi2, s1, s2.
    split; [reflexivity|]. split; [reflexivity|].
    split; [repeat constructor; assumption|].
    split; [apply nonempty_length; assumption|assumption]. }
  split; [reflexivity|].
  split.
  { subst dt tm. rewrite !append_assoc. reflexivity. }
  repeat split; try assumption.
  apply nonempty_length. assumption.
Qed.

Lemma step_well_formed st line :
  Forall (fun t => trimmed (speaker t) /\ trimmed (content t)
                   /\ shaped (timestamp t)) (turns st) ->
  (forall cur, current st = Some cur ->
     trimmed (cur_speaker cur) /\ shaped (cur_timestamp cur)) ->
  Forall (fun t => trimmed (speaker t) /\ trimmed (content t)
                   /\ shaped (timestamp t)) (turns (step st line))
  /\ (forall cur, current (step st line) = Some cur ->
        trimmed (cur_speaker cur) /\ shaped (cur_timestamp cur)).
Proof.
  intros Hts Hcur.
  assert (Hflush : Forall (fun t => trimmed (speaker t) /\ trimmed (content t)
                                    /\ shaped (timestamp t)) (turns (flush st))).
  { unfold flush. destruct (current st) as [cur|] eqn:E; [|exact Hts].
    cbn [turns]. apply Forall_app. split; [exact Hts|].
    apply List.Forall_cons; [|apply List.Forall_nil]. cbn.
    destruct (Hcur cur eq_refl) as [Hs Ht].
    repeat split; [exact Hs|apply strip_idem|exact Ht]. }
  unfold step. destruct (re_match MSG_START_RE line) as [m|] eqn:Hm.
  - cbn [turns current]. split; [exact Hflush|].
    intros cur [= <-]. cbn. split; [apply strip_idem|].
    destruct (match_groups line m Hm) as (date & gap & tm & _ & _ & _ & Hsh & Hg & _).
    exists date, gap, tm. auto.
  - destruct (current st) as [cur|] eqn:E; [|split; [exact Hts|]; intros ? ?; congruence].
    cbn [turns current]. split; [exact Hts|].
    intros cur' [= <-]. cbn. apply Hcur. reflexivity.
Qed.
End Captures.

(** X8. On a line of the transcript that matches [MSG_START_RE], the
    three groups and the punctuation make up the whole line: an opening
    bracket, group 1, a closing bracket, optional whitespace, group 2,
    a colon, optional whitespace, group 3. Group 1 is a date
    [20YY-MM-DD], a run of whitespace and a time [HH:MM:SS]; group 2 is
    not empty. *)
Theorem msg_start_groups (text line : string) (m : captures) :
  In line (splitlines text) ->
  re_match MSG_START_RE line = Some m ->
  exists date gap tm ws1 ws2,
    timestamp_shape date gap tm
    /\ group m 1 = (date ++ gap ++ tm)%string
    /\ line = ("[" ++ group m 1 ++ "]" ++ ws1 ++ group m 2 ++ ":" ++ ws2
               ++ group m 3)%string
    /\ all_chars is_space ws1 /\ all_chars is_space ws2
    /\ group m 2 <> ""%string.
Proof.
  intros Hin Hm.
  destruct (match_groups line m Hm)
    as (date & gap & tm & ws1 & ws2 & rest & Hsh & Hg & Hline & H1 & H2 & Hne & _ & _ & Hend).
  exists date, gap, tm, ws1, ws2. repeat split; try assumption.
  assert (rest = ""%string) as ->.
  { apply splitlines_no_linebreak in Hin. unfold no_linebreak in Hin.
    rewrite Hline in Hin.
    repeat first [rewrite append_cons in Hin | rewrite append_nil_l in Hin].
    repeat first [rewrite all_chars_cons in Hin | rewrite all_chars_app in Hin].
    destruct Hin as (_ & _ & _ & _ & _ & _ & _ & _ & Hrest).
    destruct rest as [|c rest]; [reflexivity|].
    destruct rest; [|discriminate Hend]. cbn in Hend.
    apply all_chars_cons in Hrest. destruct Hrest as [Hc _].
    unfold is_linebreak in Hc. apply N.eqb_eq in Hend. rewrite Hend in Hc.
    discriminate Hc. }
  rewrite append_nil_r in Hline. exact Hline.
Qed.

Lemma msg_start_groups_witness :
  exists m, re_match MSG_START_RE "[2024-01-01 00:00:00] A: hi" = Some m
  /\ exists date gap tm ws1 ws2,
    timestamp_shape date gap tm
    /\ group m 1 = (date ++ gap ++ tm)%string
    /\ "[2024-01-01 00:00:00] A: hi"%string
       = ("[" ++ group m 1 ++ "]" ++ ws1 ++ group m 2 ++ ":" ++ ws2
          ++ group m 3)%string
    /\ all_chars is_space ws1 /\ all_chars is_space ws2
    /\ group m 2 <> ""%string.
Proof.
  destruct (re_match MSG_START_RE "[2024-01-01 00:00:00] A: hi") as [m|] eqn:E;
    [|vm_compute in E; discriminate E].
  exists m. split; [reflexivity|].
  apply (msg_start_groups "[2024-01-01 00:00:00] A: hi"
                          "[2024-01-01 00:00:00] A: hi" m).
  - vm_compute. left. reflexivity.
  - exact E.
Defined.

(** X9. Every turn [parse_turns] returns is well formed: its speaker and
    its content are trimmed, and its timestamp is a date [20YY-MM-DD], a
    run of one or more whitespace characters and a time [HH:MM:SS]. *)
Theorem parse_turns_well_formed (text : string) :
  Forall (fun t =>
            trimmed (speaker t) /\ trimmed (content t)
            /\ exists date gap tm,
                 timestamp t = (date ++ gap ++ tm)%string
                 /\ timestamp_shape date gap tm)
         (parse_turns text).
Proof.
  unfold parse_turns, parse_lines.
  assert (H : forall lines st,
    Forall (fun t => trimmed (speaker t) /\ trimmed (content t)
                     /\ shaped (timestamp t)) (turns st) ->
    (forall cur, current st = Some cur ->
       trimmed (cur_speaker cur) /\ shaped (cur_timestamp cur)) ->
    Forall (fun t => trimmed (speaker t) /\ trimmed (content t)
                     /\ shaped (timestamp t)) (turns (flush (fold_left step lines st)))).
  { induction lines as [|l lines IH]; intros st Hts Hcur; cbn [fold_left].
    - unfold flush. destruct (current st) as [cur|] eqn:E; [|exact Hts].
      cbn [turns]. apply Forall_app. split; [exact Hts|].
      apply List.Forall_cons; [|apply List.Forall_nil]. cbn.
      destruct (Hcur cur eq_refl) as [Hs Ht].
      repeat split; [exact Hs|apply strip_idem|exact Ht].
    - destruct (step_well_formed st l Hts Hcur) as [H1 H2]. apply IH; assumption. }
  apply (H (splitlines text) initial).
  - apply List.Forall_nil.
  - intros cur [=].
Qed.

(** * Further properties of the skeleton generator *)

Section SkeletonShape.
Import Text Parser Doc Skeleton.
Variables (first_turn last_turn : Turn) (derived : gmap string string).

Lemma dict_set_fresh k v (d : pydict) :
  dict_get k d = None -> dict_set k v d = d ++ [(k, v)].
Proof.
  induction d as [|[k' v'] d IH]; cbn; [reflexivity|].
  destruct (decide (k = k')); [discriminate|]. intros H. rewrite IH by exact H.
  reflexivity.
Qed.

Lemma dict_get_None_keys k (d : pydict) :
  dict_get k d = None <-> ~ In k (dict_keys_of d).
Proof.
  induction d as [|[k' v'] d IH]; cbn; [tauto|].
  destruct (decide (k = k')) as [->|Hne].
  - split; [discriminate|]. intros H. exfalso. apply H. left. reflexivity.
  - rewrite IH. split; [intros H [E|E]; [congruence|tauto]|tauto].
Qed.

Lemma skeleton_loop_in_order fs : forall out0 out,
  NoDup (map name fs) ->
  (forall f, In f fs -> ~ In (KStr (name f)) (dict_keys_of out0)) ->
  skeleton_loop fs first_turn last_turn derived out0 = Return out ->
  exists tl,
    out = out0 ++ tl
    /\ Forall2 (fun f kv =>
                  kv.1 = KStr (name f)
                  /\ exists dv,
                       derived_value (name f) first_turn last_turn derived = Return dv
                       /\ kv.2 = stored dv f) fs tl.
Proof.
  induction fs as [|f0 fs IH]; cbn [skeleton_loop]; intros out0 out Hnd Hfresh Hrun.
  - injection Hrun as <-. exists []. rewrite app_nil_r. split; [reflexivity|constructor].
  - destruct (derived_value (name f0) first_turn last_turn derived) as [dv|e] eqn:Hdv;
      cbn [bind] in Hrun; [|discriminate].
    cbn in Hnd. apply NoDup_cons in Hnd. destruct Hnd as [Hnotin Hnd].
    rewrite dict_set_fresh in Hrun
      by (apply dict_get_None_keys, Hfresh; left; reflexivity).
    assert (Hfresh' : forall f, In f fs ->
              ~ In (KStr (name f))
                   (dict_keys_of (out0 ++ [(KStr (name f0), stored dv f0)]))).
    { intros f Hf. unfold dict_keys_of. rewrite map_app, in_app_iff. cbn.
      intros [H|[H|[]]].
      - apply (Hfresh f); [right; exact Hf|exact H].
      - injection H as H. apply Hnotin. rewrite H.
        apply list_elem_of_In, in_map, Hf. }
    destruct (IH _ _ Hnd Hfresh' Hrun) as (tl & -> & Hall).
    exists ((KStr (name f0), stored dv f0) :: tl). split.
    + rewrite <- app_assoc. reflexivity.
    + constructor; [|exact Hall]. cbn. eauto.
Qed.

Lemma skeleton_loop_returns fs : forall out0,
  (forall f, In f fs ->
     match derived !! name f with
     | None => True
     | Some fn => fn = ""%string
                  \/ fn = "from_first_turn_date_ymd_slash"%string
                  \/ fn = "from_first_last_turn_time_range"%string
     end) ->
  exists out, skeleton_loop fs first_turn last_turn derived out0 = Return out.
Proof.
  induction fs as [|f0 fs IH]; intros out0 Hok; cbn [skeleton_loop]; [eauto|].
  assert (Hdv : exists dv, derived_value (name f0) first_turn last_turn derived = Return dv).
  { specialize (Hok f0 (or_introl eq_refl)). unfold derived_value.
    destruct (derived !! name f0) as [fn|]; [|eauto].
    destruct Hok as [-> | [-> | ->]]; cbn; eauto. }
  destruct Hdv as [dv ->]. cbn [bind]. apply IH.
  intros f Hf. apply Hok. right. exact Hf.
Qed.
End SkeletonShape.

(** X10. [make_skeleton] returns a record exactly when every declared
    field is either unbound in [derived] or bound to the empty name or
    to one of the two built-in rules; otherwise it raises. *)
Theorem make_skeleton_returns_iff (schema : Schema) (first_turn last_turn : Turn) :
  (exists out, make_skeleton schema first_turn last_turn = Return out)
  <-> (forall f, In f (fields schema) ->
         match derived schema !! name f with
         | None => True
         | Some fn => fn = ""%string
                      \/ fn = "from_first_turn_date_ymd_slash"%string
                      \/ fn = "from_first_last_turn_time_range"%string
         end).
Proof.
  unfold make_skeleton. split.
  - intros [out Hrun] f Hf.
    destruct (derived schema !! name f) as [fn|] eqn:Hfn; [|exact I].
    destruct (string_dec fn "") as [E0|E0]; [auto|].
    destruct (string_dec fn "from_first_turn_date_ymd_slash") as [E1|E1]; [auto|].
    destruct (string_dec fn "from_first_last_turn_time_range") as [E2|E2]; [auto|].
    exfalso.
    destruct (skeleton_loop_raises first_turn last_turn (derived schema)
                (fields schema) [] f _ Hf
                (derived_value_unknown first_turn last_turn (derived schema)
                   (name f) fn Hfn E0 E1 E2)) as [fn' Hraise].
    congruence.
  - apply skeleton_loop_returns.
Qed.

(** X11. For a schema with distinct field names, the record
    [make_skeleton] returns has one entry per declared field, in the
    order of declaration: the key is the field's name and the value is
    the derived text when a rule applies and the type default
    otherwise. *)
Theorem make_skeleton_in_order (schema : Schema) (first_turn last_turn : Turn)
        (out : pydict) :
  NoDup (map name (fields schema)) ->
  make_skeleton schema first_turn last_turn = Return out ->
  Forall2 (fun f kv =>
             kv.1 = KStr (name f)
             /\ exists dv,
                  derived_value (name f) first_turn last_turn (derived schema)
                  = Return dv
                  /\ kv.2 = stored dv f)
          (fields schema) out.
Proof.
  intros Hnd Hrun. unfold make_skeleton in Hrun.
  destruct (skeleton_loop_in_order first_turn last_turn (derived schema)
              (fields schema) [] out Hnd) as (tl & -> & Hall); auto.
Qed.

Lemma make_skeleton_in_order_witness :
  let t1 := mkTurn 1 "2024-01-02 10:00:00" "A" "hi" in
  let t2 := mkTurn 2 "2024-01-02 10:05:00" "B" "ho" in
  let schema :=
    mkSchema
      [mkField "summary" "string" true true None None None None None [] false;
       mkField "date" "string" true false None None None None None [] false;
       mkField "tags" "list" true false None None (Some 1) None None [] false]
      {[ "date"%string := "from_first_turn_date_ymd_slash"%string ]} in
  let out := [(KStr "summary", VStr ""); (KStr "date", VStr "2024/01/02");
              (KStr "tags", VList [])] in
  Forall2 (fun f kv =>
             kv.1 = KStr (name f)
             /\ exists dv,
                  derived_value (name f) t1 t2 (derived schema) = Return dv
                  /\ kv.2 = stored dv f)
          (fields schema) out.
Proof.
  intros t1 t2 schema out.
  apply (make_skeleton_in_order schema t1 t2 out).
  - apply (bool_decide_unpack _). vm_compute. exact I.
  - vm_compute. reflexivity.
Defined.

Section TimestampParts.
Import Text Parser Doc Skeleton ParserNotions.
Local Open Scope string_scope.

Lemma digit_plain c :
  is_digit c = true ->
  is_space c = false /\ Ascii.eqb c " " = false /\ Ascii.eqb c "-" = false.
Proof.
  destruct c as [[] [] [] [] [] [] [] []]; vm_compute; intros H;
    try discriminate H; repeat split.
Qed.

Lemma lstrip_solid s : solid s -> lstrip s = s.
Proof.
  destruct s as [|c s]; [reflexivity|]. intros H.
  apply all_chars_cons in H. destruct H as [Hc _]. cbn.
  destruct (is_space c); [discriminate|reflexivity].
Qed.

Lemma rstrip_solid s : solid s -> rstrip s = s.
Proof.
  induction s as [|c s IH]; [reflexivity|]. intros H.
  apply all_chars_cons in H. destruct H as [Hc Hs]. cbn.
  rewrite (IH Hs). destruct (is_space c); [discriminate|reflexivity].
Qed.

Lemma strip_solid s : solid s -> strip s = s.
Proof. intros H. unfold strip. rewrite lstrip_solid, rstrip_solid; auto. Qed.

Lemma rstrip_app_keep a b : rstrip b <> "" -> rstrip (a ++ b) = a ++ rstrip b.
Proof.
  intros Hb. induction a as [|c a IH]; [reflexivity|].
  rewrite !append_cons. cbn. rewrite IH.
  destruct (a ++ rstrip b) eqn:E.
  - destruct a; [rewrite append_nil_l in E; congruence|discriminate].
  - cbn. rewrite andb_false_r. reflexivity.
Qed.

Lemma split_spaceless s t :
  spaceless s ->
  split_space_once (s ++ t)
  = (s ++ (split_space_once t).1, (split_space_once t).2).
Proof.
  induction s as [|c s IH]; intros H.
  - rewrite !append_nil_l. destruct (split_space_once t); reflexivity.
  - apply all_chars_cons in H. destruct H as [Hc Hs].
    rewrite !append_cons. cbn. destruct (Ascii.eqb c " "); [discriminate|].
    rewrite (IH Hs). reflexivity.
Qed.

Lemma first_space gap :
  In " "%char (list_ascii_of_string gap) ->
  exists g1 g2, gap = g1 ++ String " " g2 /\ spaceless g1.
Proof.
  induction gap as [|c gap IH]; [intros []|]. cbn.
  destruct (Ascii.eqb_spec c " ") as [->|Hne].
  - intros _. exists "", gap. split; [reflexivity|apply all_chars_nil].
  - intros [E|Hin]; [congruence|]. destruct (IH Hin) as (g1 & g2 & -> & Hg1).
    exists (String c g1), g2. split; [reflexivity|].
    apply all_chars_cons. split; [|exact Hg1].
    destruct (Ascii.eqb_spec c " "); [congruence|reflexivity].
Qed.

Lemma shape_plain date gap tm :
  timestamp_shape date gap tm ->
  solid date /\ spaceless date /\ solid tm /\ spaceless tm /\ tm <> ""
  /\ date <> "".
Proof.
  intros (y1 & y2 & mo1 & mo2 & d1 & d2 & h1 & h2 & mi1 & mi2 & s1 & s2
          & -> & -> & Hdig & _).
  repeat match type of Hdig with
         | Forall _ (_ :: _) =>
             apply Forall_cons in Hdig;
             let H := fresh "Hd" in destruct Hdig as [H Hdig];
             apply digit_plain in H; destruct H as (? & ? & ?)
         end.
  unfold solid, spaceless.
  repeat first [rewrite append_cons | rewrite append_nil_l].
  repeat split; try discriminate;
    repeat (apply all_chars_cons; split;
            [first [reflexivity | (rewrite negb_true_iff; assumption)]|]);
    apply all_chars_nil.
Qed.
End TimestampParts.

Lemma timestamp_parts_aux (date gap tm : string) :
  timestamp_shape date gap tm ->
  (In " "%char (list_ascii_of_string gap) ->
     _date_ymd_slash (date ++ gap ++ tm) = replace_dash date
     /\ _time_hms (date ++ gap ++ tm) = tm)
  /\ (~ In " "%char (list_ascii_of_string gap) ->
        _date_ymd_slash (date ++ gap ++ tm) = replace_dash (date ++ gap ++ tm)
        /\ _time_hms (date ++ gap ++ tm) = ""%string).
Proof.
  intros Hshape.
  destruct (shape_plain _ _ _ Hshape) as (Hd1 & Hd2 & Ht1 & Ht2 & Htne & Hdne).
  destruct Hshape as (_ & _ & _ & _ & _ & _ & _ & _ & _ & _ & _ & _
                      & _ & _ & _ & Hgne & Hgap).
  unfold _date_ymd_slash, _time_hms. split.
  - intros Hin. destruct (first_space gap Hin) as (g1 & g2 & -> & Hg1).
    apply all_chars_app in Hgap. destruct Hgap as [Hs1 Hs2].
    apply all_chars_cons in Hs2. destruct Hs2 as [_ Hs2].
    rewrite split_spaceless by exact Hd2.
    rewrite append_assoc, split_spaceless by exact Hg1.
    rewrite append_cons. cbn [split_space_once Ascii.eqb Bool.eqb fst snd].
    change (split_space_once (String " " (g2 ++ tm)))
      with (""%string, Some (g2 ++ tm)%string).
    cbn [fst snd]. rewrite append_nil_r. split.
    + f_equal. rewrite <- (append_nil_l (date ++ g1)).
      rewrite strip_spaces; [apply strip_solid, Hd1|apply all_chars_nil|exact Hs1].
    + rewrite <- (append_nil_r tm) at 1.
      rewrite strip_spaces; [apply strip_solid, Ht1|exact Hs2|apply all_chars_nil].
  - intros Hno.
    assert (Hsp : spaceless (date ++ gap ++ tm)).
    { apply all_chars_app. split; [exact Hd2|]. apply all_chars_app. split; [|exact Ht2].
      intros c Hc. destruct (Ascii.eqb_spec c " ") as [->|]; [contradiction|reflexivity]. }
    rewrite <- (append_nil_r (date ++ gap ++ tm)) at 1 3.
    rewrite split_spaceless by exact Hsp. cbn [split_space_once fst snd].
    rewrite append_nil_r.
    split; [|reflexivity]. f_equal.
    unfold strip. rewrite lstrip_app_nonspace.
    + rewrite lstrip_solid by exact Hd1.
      rewrite rstrip_app_keep; [f_equal; rewrite rstrip_app_keep|].
      * rewrite rstrip_solid by exact Ht1. reflexivity.
      * rewrite rstrip_solid by exact Ht1. exact Htne.
      * rewrite rstrip_app_keep; rewrite rstrip_solid by exact Ht1; [|exact Htne].
        destruct gap; [rewrite append_nil_l; exact Htne|discriminate].
    + rewrite lstrip_solid by exact Hd1. exact Hdne.
Qed.

(** X12. The date rule on a parsed timestamp. The helper cuts the
    timestamp at its first space character: when the whitespace between
    date and time holds a space, the rule gives the date with [/] for
    [-]; when it holds none (a tab, say), there is nothing to cut and
    the rule gives the whole timestamp, time included, with [/] for
    [-]. *)
Theorem date_rule_parsed (n : string) (first_turn last_turn : Turn)
        (derived : gmap string string) (date gap tm : string) :
  derived !! n = Some "from_first_turn_date_ymd_slash"%string ->
  timestamp first_turn = (date ++ gap ++ tm)%string ->
  timestamp_shape date gap tm ->
  (In " "%char (list_ascii_of_string gap) ->
     derived_value n first_turn last_turn derived
     = Return (Some (replace_dash date)))
  /\ (~ In " "%char (list_ascii_of_string gap) ->
        derived_value n first_turn last_turn derived
        = Return (Some (replace_dash (date ++ gap ++ tm)%string))).
Proof.
  intros Hn E S. destruct (timestamp_parts_aux date gap tm S) as [P Q].
  unfold derived_value. rewrite Hn. cbn [is_empty].
  change (String.eqb "from_first_turn_date_ymd_slash" "from_first_turn_date_ymd_slash")
    with true.
  cbn iota. rewrite E. split.
  - intros Hin. destruct (P Hin) as [-> _]. reflexivity.
  - intros Hno. destruct (Q Hno) as [-> _]. reflexivity.
Qed.

Lemma date_rule_parsed_witness :
  let first_turn := mkTurn 1 "2024-01-02 10:00:00" "A" "hi" in
  let derived : gmap string string :=
    {[ "date"%string := "from_first_turn_date_ymd_slash"%string ]} in
  (In " "%char (list_ascii_of_string " ") ->
     derived_value "date" first_turn first_turn derived
     = Return (Some (replace_dash "2024-01-02")))
  /\ (~ In " "%char (list_ascii_of_string " ") ->
        derived_value "date" first_turn first_turn derived
        = Return (Some (replace_dash ("2024-01-02" ++ " " ++ "10:00:00")%string))).
Proof.
  intros first_turn derived.
  apply (date_rule_parsed "date" first_turn first_turn derived
                          "2024-01-02" " " "10:00:00").
  - vm_compute. reflexivity.
  - reflexivity.
  - exists "2"%char, "4"%char, "0"%char, "1"%char, "0"%char, "2"%char,
           "1"%char, "0"%char, "0"%char, "0"%char, "0"%char, "0"%char.
    split; [reflexivity|]. split; [reflexivity|].
    split; [repeat (apply List.Forall_cons; [vm_compute; reflexivity|]);
            apply List.Forall_nil|].
    split; [discriminate|].
    intros c [<-|[]]. vm_compute. reflexivity.
Defined.

(** X13. The time-range rule on parsed timestamps. With a space in the
    whitespace of both timestamps the rule gives the first time alone
    when the two times are equal and [first-last] otherwise; when the
    last timestamp has no space to cut at, its time reads as empty and
    the rule gives the first time alone, whatever the last time is. *)
Theorem time_range_rule_parsed (n : string) (first_turn last_turn : Turn)
        (derived : gmap string string) (d1 g1 t1 d2 g2 t2 : string) :
  derived !! n = Some "from_first_last_turn_time_range"%string ->
  timestamp first_turn = (d1 ++ g1 ++ t1)%string -> timestamp_shape d1 g1 t1 ->
  timestamp last_turn = (d2 ++ g2 ++ t2)%string -> timestamp_shape d2 g2 t2 ->
  In " "%char (list_ascii_of_string g1) ->
  (In " "%char (list_ascii_of_string g2) ->
     derived_value n first_turn last_turn derived
     = Return (Some (if String.eqb t1 t2 then t1 else (t1 ++ "-" ++ t2)%string)))
  /\ (~ In " "%char (list_ascii_of_string g2) ->
        derived_value n first_turn last_turn derived = Return (Some t1)).
Proof.
  intros Hn E1 S1 E2 S2 Hin1.
  destruct (timestamp_parts_aux d1 g1 t1 S1) as [P1 _].
  destruct (P1 Hin1) as [_ T1].
  destruct (timestamp_parts_aux d2 g2 t2 S2) as [P2 Q2].
  destruct (shape_plain _ _ _ S2) as (_ & _ & _ & _ & Hne2 & _).
  unfold derived_value. rewrite Hn. cbn [is_empty String.eqb Ascii.eqb Bool.eqb].
  change (String.eqb "from_first_last_turn_time_range" "from_first_turn_date_ymd_slash")
    with false.
  change (String.eqb "from_first_last_turn_time_range" "from_first_last_turn_time_range")
    with true.
  cbn iota. rewrite E1, E2, T1. split.
  - intros Hin2. destruct (P2 Hin2) as [_ ->].
    destruct t2 as [|c t2]; [congruence|]. cbn [is_empty orb]. reflexivity.
  - intros Hno. destruct (Q2 Hno) as [_ ->]. reflexivity.
Qed.

Lemma time_range_rule_parsed_witness :
  let first_turn := mkTurn 1 "2024-01-02 10:00:00" "A" "hi" in
  let last_turn := mkTurn 9 "2024-01-02 10:05:00" "B" "ho" in
  let derived : gmap string string :=
    {[ "time"%string := "from_first_last_turn_time_range"%string ]} in
  (In " "%char (list_ascii_of_string " ") ->
     derived_value "time" first_turn last_turn derived
     = Return (Some (if String.eqb "10:00:00" "10:05:00" then "10:00:00"%string
                     else ("10:00:00" ++ "-" ++ "10:05:00")%string)))
  /\ (~ In " "%char (list_ascii_of_string " ") ->
        derived_value "time" first_turn last_turn derived
        = Return (Some "10:00:00"%string)).
Proof.
  intros first_turn last_turn derived.
  assert (Hshape : forall h1 h2 mi1 mi2 s1 s2,
    Forall (fun c => is_digit c = true) [h1; h2; mi1; mi2; s1; s2] ->
    timestamp_shape "2024-01-02" " "
      (String h1 (String h2 "") ++ ":" ++ String mi1 (String mi2 "")
       ++ ":" ++ String s1 (String s2 ""))).
  { intros h1 h2 mi1 mi2 s1 s2 Hd.
    exists "2"%char, "4"%char, "0"%char, "1"%char, "0"%char, "2"%char,
           h1, h2, mi1, mi2, s1, s2.
    split; [reflexivity|]. split; [reflexivity|].
    split; [repeat (apply List.Forall_cons; [vm_compute; reflexivity|]); exact Hd|].
    split; [discriminate|]. intros c [<-|[]]. vm_compute. reflexivity. }
  apply (time_range_rule_parsed "time" first_turn last_turn derived
           "2024-01-02" " " "10:00:00" "2024-01-02" " " "10:05:00").
  - vm_compute. reflexivity.
  - reflexivity.
  - apply (Hshape "1" "0" "0" "0" "0" "0")%char.
    repeat (apply List.Forall_cons; [vm_compute; reflexivity|]). apply List.Forall_nil.
  - reflexivity.
  - apply (Hshape "1" "0" "0" "5" "0" "0")%char.
    repeat (apply List.Forall_cons; [vm_compute; reflexivity|]). apply List.Forall_nil.
  - left. reflexivity.
Defined.

(** * Further properties of the record validator *)

Section ValidatorShape.
Import Text Doc Validator Conformance.
Variable re_match : string -> string -> bool.







Lemma validate_field_names v f :
  Forall (fun x => violation_field x = Some (name f)) (validate_field re_match v f).
Proof.
  assert (Hwhen : forall b x, violation_field x = Some (name f) ->
                   Forall (fun x => violation_field x = Some (name f)) (when b x)).
  { intros [] x Hx; cbn; [apply List.Forall_cons; [exact Hx|]|]; apply List.Forall_nil. }
  assert (Hone : forall x, violation_field x = Some (name f) ->
                   Forall (fun x => violation_field x = Some (name f)) [x]).
  { intros x Hx. apply List.Forall_cons; [exact Hx|apply List.Forall_nil]. }
  assert (Hs : forall s, Forall (fun x => violation_field x = Some (name f))
                                (validate_string re_match f s)).
  { intros s. unfold validate_string. rewrite !Forall_app. split; [|split].
    - apply Hwhen; reflexivity.
    - destruct (max_chars f); [apply Hwhen; reflexivity|apply List.Forall_nil].
    - destruct (pattern f); [apply Hwhen; reflexivity|apply List.Forall_nil]. }
  assert (Hl : forall l, Forall (fun x => violation_field x = Some (name f))
                                (validate_list f l)).
  { intros l. unfold validate_list. cbv zeta. rewrite !Forall_app. split; [|split].
    - destruct (min_items f); [apply Hwhen; reflexivity|apply List.Forall_nil].
    - destruct (max_items f); [apply Hwhen; reflexivity|apply List.Forall_nil].
    - destruct (min_non_empty_items f); [apply Hwhen; reflexivity|apply List.Forall_nil]. }
  assert (Hd : forall d, Forall (fun x => violation_field x = Some (name f))
                                (validate_dict f d)).
  { intros d. unfold validate_dict. rewrite Forall_app. split; [|apply Hwhen; reflexivity].
    induction (dict_keys f) as [|k ks IH]; [apply List.Forall_nil|].
    cbn [flat_map]. rewrite Forall_app. split; [apply Hwhen; reflexivity|exact IH]. }
  unfold validate_field.
  destruct v as [|b|z|s|l|d]; [apply Hwhen; reflexivity|..];
    destruct (String.eqb (ftype f) "string");
    destruct (String.eqb (ftype f) "list");
    destruct (String.eqb (ftype f) "dict");
    first [apply Hone; reflexivity | apply Hs | apply Hl | apply Hd].
Qed.
End ValidatorShape.

Import Conformance.



(** X15. Keys outside the schema are reported once, first, and all
    together. On a mapping, the validator's result is the single
    "extra keys" violation listing every undeclared key in the order of
    the record (or nothing, when there is none), followed by violations
    each of which is about one declared field; so the state of the
    fields never adds, removes or changes the "extra keys" report. *)
Theorem extra_keys_reported (re_match : string -> string -> bool)
        (data : pydict) (schema : Schema) :
  let undeclared :=
    filter (fun k => k ∉ map (fun f => KStr (name f)) (fields schema))
           (dict_keys_of data) in
  exists field_violations,
    validate_yaml_against_schema re_match (Some (VDict data)) schema
    = (match undeclared with [] => [] | _ :: _ => [ExtraKeys undeclared] end)
      ++ field_violations
    /\ Forall (fun x => exists f, In f (fields schema)
                                  /\ violation_field x = Some (name f))
              field_violations.
Proof.
  intros undeclared. unfold validate_yaml_against_schema.
  fold undeclared. eexists. split.
  - f_equal. destruct undeclared; reflexivity.
  - induction (fields schema) as [|f fs IH]; [apply List.Forall_nil|].
    cbn [flat_map]. apply Forall_app. split.
    + eapply Forall_impl; [apply validate_field_names|].
      cbn. intros x Hx. exists f. split; [left; reflexivity|exact Hx].
    + eapply Forall_impl; [exact IH|]. cbn. intros x (f' & Hf' & Hx).
      exists f'. split; [right; exact Hf'|exact Hx].
Qed.

(** X16. Whitespace around a text never changes the verdict on a string
    field: the checks look at the trimmed text only. *)
Theorem validate_string_trim (re_match : string -> string -> bool)
        (s : string) (f : Field) :
  validate_field re_match (VStr s) f = validate_field re_match (VStr (strip s)) f.
Proof.
  unfold validate_field, validate_string. rewrite strip_idem. reflexivity.
Qed.

(** * Further properties of the record writer *)

Section StoreShape.
Import Store.
Local Open Scope string_scope.

Lemma mkdir_is_dir out_dir (fs : filesystem) :
  (mkdir out_dir fs).2 = Return tt -> (mkdir out_dir fs).1 !! out_dir = Some Dir.
Proof.
  unfold mkdir. destruct (fs !! out_dir) as [[|b]|] eqn:E; cbn; intros H.
  - exact E.
  - discriminate.
  - apply lookup_insert_eq.
Qed.

Lemma mkdir_again out_dir (fs : filesystem) :
  fs !! out_dir = Some Dir -> mkdir out_dir fs = (fs, Return tt).
Proof. intros E. unfold mkdir. rewrite E. reflexivity. Qed.

Lemma pretty_N_go_head x : forall s,
  (0 < x)%N ->
  exists c t, pretty_N_go x s = String c t /\ c <> "0"%char /\ c <> "-"%char.
Proof.
  induction (N.lt_wf_0 x) as [x _ IH]. intros s Hx.
  rewrite pretty_N_go_step by exact Hx.
  destruct (decide (x `div` 10 = 0)%N) as [E|E].
  - rewrite E, pretty_N_go_0. eexists _, _. split; [reflexivity|].
    assert (Hlt : (x < 10)%N).
    { apply (N.div_small_iff x 10); [discriminate|exact E]. }
    assert (Hmod : (x `mod` 10 = x)%N) by (apply N.mod_small; exact Hlt).
    rewrite Hmod.
    assert (x = 1 \/ x = 2 \/ x = 3 \/ x = 4 \/ x = 5 \/ x = 6
            \/ x = 7 \/ x = 8 \/ x = 9)%N as Hc by lia.
    destruct Hc as [->|[->|[->|[->|[->|[->|[->|[->| ->]]]]]]]]; split; discriminate.
  - apply IH; [apply N.div_lt; [exact Hx|reflexivity]|].
    apply N.neq_0_lt_0. exact E.
Qed.

(** The decimal text of a number that is not negative: never empty,
    never starting with a sign, and starting with [0] only for 0. *)
Lemma pretty_nonneg_head (n : Z) :
  (0 <= n)%Z ->
  exists c t, pretty n = String c t /\ c <> "-"%char
              /\ (c = "0"%char -> n = 0%Z).
Proof.
  intros Hn. destruct n as [|p|p]; [| |lia].
  - exists "0"%char, "". repeat split. discriminate.
  - unfold pretty, pretty_Z, pretty, pretty_positive, pretty, pretty_N.
    rewrite decide_False by discriminate.
    destruct (pretty_N_go_head (N.pos p) "" ltac:(lia)) as (c & t & -> & H0 & Hd).
    exists c, t. repeat split; [exact Hd|]. intros ->. contradiction.
Qed.

Lemma zeros_S n :
  String.concat "" (replicate (S n) "0") = String "0" (String.concat "" (replicate n "0")).
Proof. destruct n; reflexivity. Qed.

(** Zero padding does not confuse two decimal texts. *)
Lemma zeros_app_inj (a b : string) :
  (exists c t, a = String c t /\ (c = "0"%char -> a = "0")) ->
  (exists c t, b = String c t /\ (c = "0"%char -> b = "0")) ->
  forall j k,
    String.concat "" (replicate j "0") ++ a
    = String.concat "" (replicate k "0") ++ b ->
    a = b.
Proof.
  intros (ca & ta & Ea & Ha) (cb & tb & Eb & Hb).
  induction j as [|j IH]; intros [|k] H.
  - exact H.
  - rewrite zeros_S, append_cons in H. cbn [replicate String.concat] in H.
    rewrite append_nil_l, Ea in H. injection H as Hc Ht.
    rewrite (Ha Hc) in Ea. injection Ea as _ <-.
    destruct (String.concat "" (replicate k "0")); [|discriminate].
    rewrite append_nil_l in Ht. congruence.
  - rewrite zeros_S, append_cons in H. cbn [replicate String.concat] in H.
    rewrite append_nil_l, Eb in H. injection H as Hc Ht.
    rewrite (Hb (eq_sym Hc)) in Eb. injection Eb as _ <-.
    destruct (String.concat "" (replicate j "0")); [|discriminate].
    rewrite append_nil_l in Ht. congruence.
  - rewrite !zeros_S, !append_cons in H. injection H as H. eapply IH, H.
Qed.

Lemma zero_pad_head width (n : Z) :
  (0 <= n)%Z ->
  exists c t, zero_pad width (pretty n) = String c t /\ c <> "-"%char.
Proof.
  intros Hn. destruct (pretty_nonneg_head n Hn) as (c & t & E & Hd & _).
  unfold zero_pad. destruct (width - String.length (pretty n))%nat as [|j].
  - cbn. rewrite append_nil_l, E. eauto.
  - rewrite zeros_S, append_cons. eexists _, _. split; [reflexivity|discriminate].
Qed.

Lemma zero_pad_inj width (n m : Z) :
  (0 <= n)%Z -> (0 <= m)%Z ->
  zero_pad width (pretty n) = zero_pad width (pretty m) -> n = m.
Proof.
  intros Hn Hm H. apply (inj pretty). unfold zero_pad in H.
  eapply zeros_app_inj; [| |exact H].
  - destruct (pretty_nonneg_head n Hn) as (c & t & E & _ & H0).
    exists c, t. split; [exact E|]. intros Hc. rewrite (H0 Hc). reflexivity.
  - destruct (pretty_nonneg_head m Hm) as (c & t & E & _ & H0).
    exists c, t. split; [exact E|]. intros Hc. rewrite (H0 Hc). reflexivity.
Qed.

Lemma format_04d_inj (n m : Z) : format_04d n = format_04d m -> n = m.
Proof.
  unfold format_04d.
  destruct (Z.ltb_spec n 0) as [Hn|Hn], (Z.ltb_spec m 0) as [Hm|Hm]; intros H.
  - rewrite !append_cons, !append_nil_l in H. injection H as H.
    apply zero_pad_inj in H; lia.
  - exfalso. rewrite append_cons, append_nil_l in H.
    destruct (zero_pad_head 4 m Hm) as (c & t & E & Hd). rewrite E in H.
    injection H as Hc _. congruence.
  - exfalso. rewrite append_cons, append_nil_l in H.
    destruct (zero_pad_head 4 n Hn) as (c & t & E & Hd). rewrite E in H.
    injection H as Hc _. congruence.
  - apply zero_pad_inj in H; assumption.
Qed.

Lemma append_inj_l (a b c : string) : a ++ b = a ++ c -> b = c.
Proof.
  induction a as [|x a IH]; [rewrite !append_nil_l; auto|].
  rewrite !append_cons. intros [= H]. auto.
Qed.

Lemma append_inj_r (a b c : string) : a ++ c = b ++ c -> a = b.
Proof.
  revert b. induction a as [|x a IH]; intros [|y b] H.
  - reflexivity.
  - exfalso. apply (f_equal String.length) in H.
    rewrite append_nil_l, append_cons in H. cbn in H. rewrite length_append in H. lia.
  - exfalso. apply (f_equal String.length) in H.
    rewrite append_nil_l, append_cons in H. cbn in H. rewrite length_append in H. lia.
  - rewrite !append_cons in H. injection H as -> H. f_equal. apply IH, H.
Qed.
End StoreShape.

(** X17. Record paths do not collide: two chunk identifiers share a
    record file only if they are equal, so writing the record of one
    chunk never touches the record of another. *)
Theorem record_path_inj (out_dir : string) (i j : Z) :
  i <> j -> Store.record_path out_dir i <> Store.record_path out_dir j.
Proof.
  unfold Store.record_path. intros Hne H. apply Hne.
  apply append_inj_l in H. rewrite !append_cons, !append_nil_l in H.
  injection H as H.
  apply format_04d_inj. eapply append_inj_r. exact H.
Qed.

Lemma record_path_inj_witness :
  Store.record_path "output/chapters" 7 <> Store.record_path "output/chapters" 12345.
Proof. apply (record_path_inj "output/chapters" 7 12345). lia. Defined.

(** X18. A second call of [write_memory_yaml] with the same arguments is
    a no-op: run on the file system the first call left, it leaves that
    file system as it is and ends the same way, with the same path or
    the same exception. *)
Theorem write_memory_yaml_idempotent
        (safe_dump : pydict -> string) (ch_id : Z) (schema : Schema)
        (first_turn last_turn : Turn) (out_dir : string)
        (fs : Store.filesystem) :
  let once := Store.write_memory_yaml safe_dump ch_id schema first_turn
                                      last_turn out_dir fs in
  Store.write_memory_yaml safe_dump ch_id schema first_turn last_turn
                          out_dir once.1
  = once.
Proof.
  cbn zeta. unfold Store.write_memory_yaml.
  pose proof (mkdir_is_dir out_dir fs) as Hdir.
  destruct (Store.mkdir out_dir fs) as [fs1 [[]|e]] eqn:Hmk; cbn [fst snd] in *.
  - specialize (Hdir eq_refl).
    destruct (Store.exists_ fs1 (Store.record_path out_dir ch_id)) eqn:Hex; cbn [negb].
    + cbn [fst]. rewrite (mkdir_again _ _ Hdir), Hex. reflexivity.
    + destruct (make_skeleton schema first_turn last_turn) as [data|e] eqn:Hsk; cbn [fst].
      * rewrite mkdir_again
          by (rewrite lookup_insert_ne by apply record_path_inside; exact Hdir).
        unfold Store.exists_. rewrite lookup_insert_eq. reflexivity.
      * rewrite (mkdir_again _ _ Hdir), Hex, ?Hsk. reflexivity.
  - unfold Store.mkdir in *. destruct (fs !! out_dir) as [[|b]|] eqn:E;
      try discriminate. injection Hmk as <- <-. rewrite E. reflexivity.
Qed.

(** X19. What [write_memory_yaml] does when nothing exists at the record
    path. If [mkdir] fails, the call raises and changes nothing; if the
    skeleton cannot be generated, the call raises after [mkdir] and
    still writes no record; otherwise the dump of the skeleton is
    written at the record path, which is returned, and nothing else
    changes beyond [mkdir]. *)
Theorem write_memory_yaml_absent
        (safe_dump : pydict -> string) (ch_id : Z) (schema : Schema)
        (first_turn last_turn : Turn) (out_dir : string)
        (fs : Store.filesystem) :
  fs !! Store.record_path out_dir ch_id = None ->
  let path := Store.record_path out_dir ch_id in
  let made := Store.mkdir out_dir fs in
  Store.write_memory_yaml safe_dump ch_id schema first_turn last_turn out_dir fs
  = match made.2, make_skeleton schema first_turn last_turn with
    | Raise e, _ => (fs, Raise e)
    | Return _, Raise e => (made.1, Raise e)
    | Return _, Return data =>
        (<[path := Store.File (safe_dump data)]> made.1, Return path)
    end
  /\ made.1 !! path = None.
Proof.
  intros Hno path made.
  assert (Hno' : made.1 !! path = None).
  { subst made. unfold Store.mkdir.
    destruct (fs !! out_dir) as [[|?]|]; cbn; try exact Hno.
    rewrite lookup_insert_ne; [exact Hno|]. intros E. symmetry in E.
    exact (record_path_inside _ _ E). }
  split; [|exact Hno'].
  unfold Store.write_memory_yaml. fold path. subst made.
  destruct (Store.mkdir out_dir fs) as [fs1 [[]|e]] eqn:Hmk; cbn [fst snd] in *.
  - unfold Store.exists_. rewrite Hno'. cbn [negb].
    destruct (make_skeleton schema first_turn last_turn); reflexivity.
  - unfold Store.mkdir in Hmk. destruct (fs !! out_dir) as [[|b]|]; try discriminate.
    injection Hmk as <- <-. reflexivity.
Qed.

Lemma write_memory_yaml_absent_witness :
  let schema :=
    mkSchema [mkField "summary" "string" true false None None None None None [] false]
             ∅ in
  let t := mkTurn 1 "2024-01-02 10:00:00" "A" "hi" in
  let fs : Store.filesystem := {[ "output/chapters"%string := Store.Dir ]} in
  let path := Store.record_path "output/chapters" 7 in
  let made := Store.mkdir "output/chapters" fs in
  Store.write_memory_yaml (fun _ => "summary: ''"%string) 7 schema t t
                          "output/chapters" fs
  = match made.2, make_skeleton schema t t with
    | Raise e, _ => (fs, Raise e)
    | Return _, Raise e => (made.1, Raise e)
    | Return _, Return data =>
        (<[path := Store.File ((fun _ => "summary: ''"%string) data)]> made.1,
         Return path)
    end
  /\ made.1 !! path = None.
Proof.
  intros schema t fs.
  apply (write_memory_yaml_absent (fun _ => "summary: ''"%string) 7 schema t t
                                  "output/chapters" fs).
  vm_compute. reflexivity.
Defined.

(** * Properties of the chunk writer and of the split run *)

Section SplitFacts.
Import Store Split.
Local Open Scope string_scope.

Lemma chunk_path_inside out_dir ch_id : chunk_path out_dir ch_id <> out_dir.
Proof.
  intros E. apply (f_equal String.length) in E.
  unfold chunk_path in E. rewrite length_append, append_cons in E.
  cbn in E. lia.
Qed.

Lemma chunk_path_inj out_dir i j :
  chunk_path out_dir i = chunk_path out_dir j -> i = j.
Proof.
  unfold chunk_path. intros H.
  apply append_inj_l in H. rewrite !append_cons, !append_nil_l in H.
  injection H as H.
  apply format_04d_inj. eapply append_inj_r. exact H.
Qed.

Lemma chunk_not_record i j :
  chunk_path CHUNKS_DIR i <> record_path OUT_CHAPTERS_DIR j.
Proof. unfold chunk_path, record_path. cbn. rewrite !append_cons. discriminate. Qed.



Lemma mkdir_lookup_ne out_dir (fs : filesystem) p :
  p <> out_dir -> (mkdir out_dir fs).1 !! p = fs !! p.
Proof.
  intros Hne. unfold mkdir. destruct (fs !! out_dir) as [[|?]|]; cbn; try reflexivity.
  apply lookup_insert_ne. congruence.
Qed.


Lemma chunk_text_none ch_id : chunk_text [] ch_id = None.
Proof. reflexivity. Qed.

Lemma write_chunk_file_result turns ch_id out_dir (fs : filesystem) :
  write_chunk_file turns ch_id out_dir fs
  = match (mkdir out_dir fs).2 with
    | Raise e => (fs, Err (Lower e))
    | Return _ =>
        match chunk_text turns ch_id with
        | None => ((mkdir out_dir fs).1, Err IndexError)
        | Some text =>
            match fs !! chunk_path out_dir ch_id with
            | Some Dir =>
                ((mkdir out_dir fs).1,
                 Err (IsADirectoryError (chunk_path out_dir ch_id)))
            | _ =>
                (<[chunk_path out_dir ch_id := File text]> (mkdir out_dir fs).1,
                 Ok (chunk_path out_dir ch_id))
            end
        end
    end.
Proof.
  unfold write_chunk_file, write_text.
  pose proof (mkdir_lookup_ne out_dir fs (chunk_path out_dir ch_id)
                (chunk_path_inside _ _)) as Hl.
  destruct (mkdir out_dir fs) as [fs1 [[]|e]] eqn:Hmk; cbn [fst snd] in *.
  - destruct (chunk_text turns ch_id); [|reflexivity].
    rewrite Hl. destruct (fs !! chunk_path out_dir ch_id) as [[|?]|]; reflexivity.
  - unfold mkdir in Hmk. destruct (fs !! out_dir) as [[|?]|]; try discriminate.
    injection Hmk as <- <-. reflexivity.
Qed.

Lemma write_chunk_file_files turns ch_id out_dir (fs : filesystem) p b :
  fs !! p = Some (File b) -> p <> chunk_path out_dir ch_id ->
  (write_chunk_file turns ch_id out_dir fs).1 !! p = Some (File b).
Proof.
  intros Hp Hne. rewrite write_chunk_file_result.
  pose proof (mkdir_files out_dir fs p b Hp) as Hk.
  destruct (mkdir out_dir fs).2; [|exact Hp].
  destruct (chunk_text turns ch_id); [|exact Hk].
  destruct (fs !! chunk_path out_dir ch_id) as [[|?]|]; cbn [fst];
    try exact Hk; rewrite lookup_insert_ne by congruence; exact Hk.
Qed.

Lemma write_memory_yaml_files safe_dump ch_id schema t0 tn out_dir
      (fs : filesystem) p b :
  fs !! p = Some (File b) ->
  (write_memory_yaml safe_dump ch_id schema t0 tn out_dir fs).1 !! p
  = Some (File b).
Proof.
  intros Hp. unfold write_memory_yaml.
  pose proof (mkdir_files out_dir fs p b Hp) as Hk.
  destruct (mkdir out_dir fs) as [fs1 [[]|e]]; cbn [fst] in *; [|exact Hk].
  unfold exists_.
  destruct (fs1 !! record_path out_dir ch_id) eqn:E; cbn [negb]; [exact Hk|].
  destruct (make_skeleton schema t0 tn); cbn [fst]; [|exact Hk].
  rewrite lookup_insert_ne; [exact Hk|]. intros <-. congruence.
Qed.

Lemma write_chunks_files safe_dump ranges turns schema : forall (fs : filesystem) p b,
  fs !! p = Some (File b) ->
  (forall r, In r ranges -> p <> chunk_path CHUNKS_DIR (ch_id r)) ->
  (write_chunks safe_dump ranges turns schema fs).1 !! p = Some (File b).
Proof.
  induction ranges as [|r ranges IH]; intros fs p b Hp Hne; [exact Hp|].
  cbn [write_chunks].
  pose proof (write_chunk_file_files
                (py_slice turns (start_i r) (end_i r)) (ch_id r) CHUNKS_DIR fs p b Hp
                (Hne r (or_introl eq_refl))) as H1.
  destruct (write_chunk_file _ _ _ fs) as [fs1 [path|e]]; cbn [fst] in *; [|exact H1].
  destruct (py_slice turns (start_i r) (end_i r)) as [|t0 ts]; [exact H1|].
  destruct (last (t0 :: ts)) as [tn|]; [|exact H1].
  pose proof (write_memory_yaml_files safe_dump (ch_id r) schema t0 tn
                OUT_CHAPTERS_DIR fs1 p b H1) as H2.
  destruct (write_memory_yaml _ _ _ _ _ _ fs1) as [fs2 [path'|e]]; cbn [fst] in *;
    [|exact H2].
  apply IH; [exact H2|]. intros r' Hr'. apply Hne. right. exact Hr'.
Qed.


Lemma mkdir_mono out_dir (fs : filesystem) p :
  is_Some (fs !! p) -> is_Some ((mkdir out_dir fs).1 !! p).
Proof.
  intros Hp. unfold mkdir. destruct (fs !! out_dir) as [[|?]|] eqn:E; cbn; try exact Hp.
  destruct (decide (out_dir = p)) as [->|Hne].
  - rewrite lookup_insert_eq. eauto.
  - rewrite lookup_insert_ne by exact Hne. exact Hp.
Qed.

Lemma insert_mono (fs : filesystem) q nd p :
  is_Some (fs !! p) -> is_Some (<[q := nd]> fs !! p).
Proof.
  intros Hp. destruct (decide (q = p)) as [->|Hne].
  - rewrite lookup_insert_eq. eauto.
  - rewrite lookup_insert_ne by exact Hne. exact Hp.
Qed.

Lemma write_chunk_file_mono turns ch_id out_dir (fs : filesystem) p :
  is_Some (fs !! p) ->
  is_Some ((write_chunk_file turns ch_id out_dir fs).1 !! p).
Proof.
  intros Hp. rewrite write_chunk_file_result.
  pose proof (mkdir_mono out_dir fs p Hp) as Hk.
  destruct (mkdir out_dir fs).2; [|exact Hp].
  destruct (chunk_text turns ch_id); [|exact Hk].
  destruct (fs !! chunk_path out_dir ch_id) as [[|?]|]; cbn [fst];
    try exact Hk; apply insert_mono, Hk.
Qed.

Lemma write_memory_yaml_mono safe_dump ch_id schema t0 tn out_dir
      (fs : filesystem) p :
  is_Some (fs !! p) ->
  is_Some ((write_memory_yaml safe_dump ch_id schema t0 tn out_dir fs).1 !! p).
Proof.
  intros Hp. unfold write_memory_yaml.
  pose proof (mkdir_mono out_dir fs p Hp) as Hk.
  destruct (mkdir out_dir fs) as [fs1 [[]|e]]; cbn [fst] in *; [|exact Hk].
  destruct (negb (exists_ fs1 (record_path out_dir ch_id))); [|exact Hk].
  destruct (make_skeleton schema t0 tn); cbn [fst]; [|exact Hk].
  apply insert_mono, Hk.
Qed.

Lemma write_memory_yaml_return safe_dump ch_id schema t0 tn out_dir
      (fs fs' : filesystem) path :
  write_memory_yaml safe_dump ch_id schema t0 tn out_dir fs = (fs', Return path) ->
  is_Some (fs' !! record_path out_dir ch_id).
Proof.
  unfold write_memory_yaml.
  destruct (mkdir out_dir fs) as [fs1 [[]|e]]; [|discriminate].
  unfold exists_. destruct (fs1 !! record_path out_dir ch_id) eqn:E; cbn [negb].
  - intros [= <- _]. rewrite E. eauto.
  - destruct (make_skeleton schema t0 tn); [|discriminate].
    intros [= <- _]. rewrite lookup_insert_eq. eauto.
Qed.

Lemma write_chunks_mono safe_dump ranges turns schema : forall (fs : filesystem) p,
  is_Some (fs !! p) ->
  is_Some ((write_chunks safe_dump ranges turns schema fs).1 !! p).
Proof.
  induction ranges as [|r ranges IH]; intros fs p Hp; [exact Hp|].
  cbn [write_chunks].
  pose proof (write_chunk_file_mono
                (py_slice turns (start_i r) (end_i r)) (ch_id r) CHUNKS_DIR fs p Hp) as H1.
  destruct (write_chunk_file _ _ _ fs) as [fs1 [path|e]]; cbn [fst] in *; [|exact H1].
  destruct (py_slice turns (start_i r) (end_i r)) as [|t0 ts]; [exact H1|].
  destruct (last (t0 :: ts)) as [tn|]; [|exact H1].
  pose proof (write_memory_yaml_mono safe_dump (ch_id r) schema t0 tn
                OUT_CHAPTERS_DIR fs1 p H1) as H2.
  destruct (write_memory_yaml _ _ _ _ _ _ fs1) as [fs2 [path'|e]]; cbn [fst] in *;
    [|exact H2].
  apply IH, H2.
Qed.

(** What a completed loop leaves behind: for every range, the chunk file
    with the text of its turns, and something at its record path. *)
Lemma write_chunks_result safe_dump ranges turns schema : forall (fs fs' : filesystem),
  NoDup (map ch_id ranges) ->
  write_chunks safe_dump ranges turns schema fs = (fs', Ok tt) ->
  forall r, In r ranges ->
    exists text,
      chunk_text (py_slice turns (start_i r) (end_i r)) (ch_id r) = Some text
      /\ fs' !! chunk_path CHUNKS_DIR (ch_id r) = Some (File text)
      /\ is_Some (fs' !! record_path OUT_CHAPTERS_DIR (ch_id r)).
Proof.
  induction ranges as [|r0 ranges IH]; intros fs fs' Hnd Hrun r Hr; [destruct Hr|].
  cbn in Hnd. apply NoDup_cons in Hnd. destruct Hnd as [Hfresh Hnd].
  cbn [write_chunks] in Hrun.
  pose proof (write_chunk_file_result
                (py_slice turns (start_i r0) (end_i r0)) (ch_id r0) CHUNKS_DIR fs) as Hw.
  destruct (write_chunk_file _ _ _ fs) as [fs1 [path|e]] eqn:Hwc; [|discriminate].
  destruct (py_slice turns (start_i r0) (end_i r0)) as [|t0 ts] eqn:Hsl; [discriminate|].
  destruct (last (t0 :: ts)) as [tn|] eqn:Hlast; [|discriminate].
  destruct (write_memory_yaml _ _ _ _ _ _ fs1) as [fs2 [path'|e]] eqn:Hwm;
    [|discriminate].
  destruct Hr as [<-|Hr]; [|eapply IH; eassumption].
  assert (Hfs1 : exists text,
            chunk_text (t0 :: ts) (ch_id r0) = Some text
            /\ fs1 !! chunk_path CHUNKS_DIR (ch_id r0) = Some (File text)).
  { destruct (mkdir CHUNKS_DIR fs).2; [|discriminate].
    destruct (chunk_text (t0 :: ts) (ch_id r0)) as [text|]; [|discriminate].
    exists text. split; [reflexivity|].
    destruct (fs !! chunk_path CHUNKS_DIR (ch_id r0)) as [[|?]|];
      try discriminate; injection Hw as Hw1 _; rewrite Hw1; apply lookup_insert_eq. }
  destruct Hfs1 as (text & Htext & Hf1).
  exists text. rewrite Hsl. split; [exact Htext|].
  assert (Hf2 : fs2 !! chunk_path CHUNKS_DIR (ch_id r0) = Some (File text)).
  { pose proof (write_memory_yaml_files safe_dump (ch_id r0) schema t0 tn
                  OUT_CHAPTERS_DIR fs1 _ _ Hf1) as H. rewrite Hwm in H. exact H. }
  assert (Hr2 : is_Some (fs2 !! record_path OUT_CHAPTERS_DIR (ch_id r0)))
    by (eapply write_memory_yaml_return; exact Hwm).
  split.
  - pose proof (write_chunks_files safe_dump ranges turns schema fs2 _ _ Hf2) as H.
    rewrite Hrun in H. apply H. intros r' Hr' E. apply chunk_path_inj in E.
    apply Hfresh. rewrite E. apply list_elem_of_In, in_map, Hr'.
  - pose proof (write_chunks_mono safe_dump ranges turns schema fs2 _ Hr2) as H.
    rewrite Hrun in H. exact H.
Qed.


(** The ranges of a run: ten turns per chunk, no overlap. *)
Lemma main_ranges (n : Z) :
  (0 < n)%Z ->
  exists rs,
    chunk_indices n TURNS_PER_CHUNK OVERLAP_TURNS (passes n 0) = Some (Return rs)
    /\ NoDup (map ch_id rs)
    /\ (forall r, In r rs -> (0 <= start_i r < end_i r)%Z /\ (end_i r <= n)%Z)
    /\ (forall k r, rs !! k = Some r ->
          r = mkRange (Z.of_nat k + 1) (10 * Z.of_nat k)
                      (Z.min (10 * Z.of_nat k + 10) n))
    /\ Z.of_nat (length rs) = ((n + 9) / 10)%Z.
Proof.
  intros Hn. unfold TURNS_PER_CHUNK, OVERLAP_TURNS.
  destruct (chunk_indices_shape n 10 0 ltac:(lia))
    as (rs & Hrun & Hform & Hlast & Hne & Hall & _).
  exists rs. split; [apply Hrun; lia|]. split; [|split; [|split]].
  - apply NoDup_alt. intros i j x Hi Hj.
    rewrite list_lookup_fmap in Hi, Hj.
    destruct (rs !! i) as [ri|] eqn:Ei; [|discriminate].
    destruct (rs !! j) as [rj|] eqn:Ej; [|discriminate].
    rewrite (Hform _ _ Ei) in Hi. rewrite (Hform _ _ Ej) in Hj.
    cbn in Hi, Hj. injection Hi as <-. injection Hj as Hj. lia.
  - intros r Hr. rewrite Forall_forall in Hall.
    apply list_elem_of_In, Hall in Hr. lia.
  - intros k r Hk. rewrite (Hform k r Hk). f_equal; lia.
  - rewrite (shape_count n 10 rs); try assumption; try lia. f_equal. lia.
Qed.
End SplitFacts.

Import Split.



(** X21. A run that cannot start leaves the file system as it is: with
    no transcript file, with no schema file, or with a transcript in
    which no line is a turn-start marker, [main] raises and nothing is
    created or changed. *)
Theorem split_main_fails_early
        (safe_load_schema : string -> option Schema)
        (safe_dump : pydict -> string) (fs : Store.filesystem) :
  (fs !! INPUT_PATH = None ->
     main safe_load_schema safe_dump fs
     = (fs, Some (Err (FileNotFoundError "Missing input file: input/raw_chat.txt"))))
  /\ (fs !! INPUT_PATH <> None -> fs !! SCHEMA_PATH = None ->
        main safe_load_schema safe_dump fs
        = (fs, Some (Err (FileNotFoundError "Missing schema file: schema.yaml"))))
  /\ (forall text schema,
        fs !! INPUT_PATH = Some (Store.File text) ->
        load_schema safe_load_schema fs = Ok schema ->
        Forall (fun l => is_turn_start l = false) (splitlines text) ->
        main safe_load_schema safe_dump fs
        = (fs, Some (Err (Lower (ValueError
             "No turns parsed. Check input format or MSG_START_RE."))))).
Proof.
  unfold main, Store.exists_. repeat split.
  - intros ->. reflexivity.
  - intros Hin Hs. destruct (fs !! INPUT_PATH); [|contradiction]. cbn [negb].
    unfold load_schema, Store.exists_. rewrite Hs. reflexivity.
  - intros text schema Hin Hs Hno. rewrite Hin. cbn [negb]. rewrite Hs.
    unfold read_text. rewrite Hin.
    unfold parse_turns, parse_lines. rewrite (fold_step_no_marker _ Hno).
    reflexivity.
Qed.

(** X22. A run only ever rewrites chunk text files. Every file that
    exists before [main] and is not a chunk file [chunks/ch_NNNN.txt]
    holds the same bytes afterwards, however the run ends; so the
    transcript, the schema and every record already written survive any
    number of runs. *)
Theorem split_main_keeps_files
        (safe_load_schema : string -> option Schema)
        (safe_dump : pydict -> string) (fs : Store.filesystem)
        (p bytes : string) :
  fs !! p = Some (Store.File bytes) ->
  (forall ch_id, p <> chunk_path CHUNKS_DIR ch_id) ->
  (main safe_load_schema safe_dump fs).1 !! p = Some (Store.File bytes).
Proof.
  intros Hp Hne. unfold main.
  destruct (negb (Store.exists_ fs INPUT_PATH)); [exact Hp|].
  destruct (load_schema safe_load_schema fs) as [schema|e]; [|exact Hp].
  destruct (read_text INPUT_PATH fs) as [text|e]; [|exact Hp].
  destruct (parse_turns text) as [|t ts]; [exact Hp|].
  destruct (chunk_indices _ _ _ _) as [[rs|e]|]; try exact Hp.
  pose proof (mkdir_files CHUNKS_DIR fs p bytes Hp) as H1.
  destruct (Store.mkdir CHUNKS_DIR fs) as [fs1 [[]|e]]; cbn [fst] in *; [|exact H1].
  pose proof (mkdir_files OUT_CHAPTERS_DIR fs1 p bytes H1) as H2.
  destruct (Store.mkdir OUT_CHAPTERS_DIR fs1) as [fs2 [[]|e]]; cbn [fst] in *;
    [|exact H2].
  pose proof (write_chunks_files safe_dump rs (t :: ts) schema fs2 p bytes H2
                (fun r _ => Hne (ch_id r))) as H3.
  destruct (write_chunks _ _ _ _ fs2) as [fs3 [[]|e]]; exact H3.
Qed.

Lemma split_main_keeps_files_witness :
  let fs : Store.filesystem :=
    {[ "input/raw_chat.txt"%string := Store.File "[2024-01-02 10:00:00] A: hi";
       "schema.yaml"%string := Store.File "fields: []";
       "output/chapters"%string := Store.Dir;
       "output/chapters/ch_0001.yaml"%string := Store.File "summary: edited" ]} in
  (main (fun _ => Some (mkSchema [] ∅)) (fun _ => "{}"%string) fs).1
    !! "output/chapters/ch_0001.yaml"%string
  = Some (Store.File "summary: edited").
Proof.
  intros fs.
  apply (split_main_keeps_files (fun _ => Some (mkSchema [] ∅)) (fun _ => "{}"%string)
                                fs "output/chapters/ch_0001.yaml" "summary: edited").
  - vm_compute. reflexivity.
  - intros ch_id E. symmetry in E. exact (chunk_not_record ch_id 1 E).
Defined.

(** X23. What a completed run leaves. If [main] ends normally with the
    counts [(n, m)], then [n] is the number of turns parsed from the
    transcript, [m] is [n / 10] rounded up, and for every chunk
    identifier [k] from 1 to [m] the chunk file holds the text of turns
    [10 (k - 1)] up to [10 k] (or up to the last turn), and something
    exists at the record path of [k]. *)
Theorem split_main_result
        (safe_load_schema : string -> option Schema)
        (safe_dump : pydict -> string) (fs fs' : Store.filesystem) (n m : Z) :
  main safe_load_schema safe_dump fs = (fs', Some (Ok (n, m))) ->
  exists text,
    fs !! INPUT_PATH = Some (Store.File text)
    /\ n = Z.of_nat (length (parse_turns text))
    /\ m = (n + 9) / 10
    /\ (forall k, 1 <= k <= m ->
          exists chunk,
            chunk_text (py_slice (parse_turns text) (10 * (k - 1))
                                 (Z.min (10 * k) n)) k = Some chunk
            /\ fs' !! chunk_path CHUNKS_DIR k = Some (Store.File chunk)
            /\ is_Some (fs' !! Store.record_path OUT_CHAPTERS_DIR k)).
Proof.
  unfold main. intros Hrun.
  destruct (negb (Store.exists_ fs INPUT_PATH)); [discriminate|].
  destruct (load_schema safe_load_schema fs) as [schema|e]; [|discriminate].
  unfold read_text in Hrun.
  destruct (fs !! INPUT_PATH) as [[|text]|] eqn:Hin; try discriminate.
  exists text. split; [reflexivity|].
  destruct (parse_turns text) as [|t ts] eqn:Hturns; [discriminate|].
  set (turns := t :: ts) in *.
  destruct (main_ranges (Z.of_nat (length turns)) ltac:(subst turns; cbn; lia))
    as (rs & Hrs & Hnd & _ & Hform & Hlen).
  rewrite Hrs in Hrun.
  destruct (Store.mkdir CHUNKS_DIR fs) as [fs1 [[]|e]]; [|discriminate].
  destruct (Store.mkdir OUT_CHAPTERS_DIR fs1) as [fs2 [[]|e]]; [|discriminate].
  destruct (write_chunks _ _ _ _ fs2) as [fs3 [[]|e]] eqn:Hw; [|discriminate].
  injection Hrun as <- <- <-.
  split; [reflexivity|]. split; [exact Hlen|].
  intros k Hk.
  destruct (rs !! Z.to_nat (k - 1)) as [r|] eqn:Hr;
    [|apply lookup_ge_None in Hr; lia].
  pose proof (Hform _ _ Hr) as Er.
  replace (Z.of_nat (Z.to_nat (k - 1)) + 1) with k in Er by lia.
  replace (10 * Z.of_nat (Z.to_nat (k - 1))) with (10 * (k - 1)) in Er by lia.
  replace (10 * (k - 1) + 10) with (10 * k) in Er by lia.
  destruct (write_chunks_result safe_dump rs turns schema fs2 fs3 Hnd Hw r)
    as (chunk & Hc & Hf & Hrec).
  { apply list_elem_of_In, list_elem_of_lookup. eauto. }
  rewrite Er in Hc, Hf, Hrec. cbn [start_i end_i ch_id] in *. eauto.
Qed.

Lemma split_main_result_witness :
  let fs : Store.filesystem :=
    {[ "input/raw_chat.txt"%string := Store.File "[2024-01-02 10:00:00] A: hi";
       "schema.yaml"%string := Store.File "fields: []" ]} in
  let load := fun _ : string => Some (mkSchema [] ∅) in
  let dump := fun _ : pydict => "{}"%string in
  exists text,
    fs !! INPUT_PATH = Some (Store.File text)
    /\ 1 = Z.of_nat (length (parse_turns text))
    /\ 1 = (1 + 9) / 10
    /\ (forall k, 1 <= k <= 1 ->
          exists chunk,
            chunk_text (py_slice (parse_turns text) (10 * (k - 1))
                                 (Z.min (10 * k) 1)) k = Some chunk
            /\ (main load dump fs).1 !! chunk_path CHUNKS_DIR k
               = Some (Store.File chunk)
            /\ is_Some ((main load dump fs).1
                          !! Store.record_path OUT_CHAPTERS_DIR k)).
Proof.
  intros fs load dump.
  apply (split_main_result load dump fs (main load dump fs).1 1 1).
  vm_compute. reflexivity.
Defined.



(** * Further properties of the verify pass *)

Section ReportShape.
Import Verify.
Local Open Scope string_scope.

Lemma by_name_total : Total by_name.
Proof. intros a b. apply String.leb_total. Qed.

Lemma string_compare_trans (c : comparison) : forall a b d : string,
  String.compare a b = c -> String.compare b d = c -> String.compare a d = c.
Proof.
  induction a as [|x a IH]; intros [|y b] [|z d]; cbn; try congruence.
  unfold Ascii.compare.
  destruct (N.compare_spec (N_of_ascii x) (N_of_ascii y)) as [E1|E1|E1];
    destruct (N.compare_spec (N_of_ascii y) (N_of_ascii z)) as [E2|E2|E2];
    try congruence.
  - rewrite E1, E2, N.compare_refl. apply IH.
  - rewrite E1, (proj2 (N.compare_lt_iff _ _) E2). congruence.
  - rewrite E1, (proj2 (N.compare_gt_iff _ _) E2). congruence.
  - rewrite <- E2, (proj2 (N.compare_lt_iff _ _) E1). congruence.
  - rewrite (proj2 (N.compare_lt_iff (N_of_ascii x) (N_of_ascii z)))
      by (eapply N.lt_trans; eassumption).
    congruence.
  - rewrite <- E2, (proj2 (N.compare_gt_iff _ _) E1). congruence.
  - rewrite (proj2 (N.compare_gt_iff (N_of_ascii x) (N_of_ascii z)))
      by (eapply N.lt_trans; eassumption).
    congruence.
Qed.

Lemma by_name_trans : Transitive by_name.
Proof.
  intros a b d. unfold by_name, String.leb.
  destruct (String.compare a b) eqn:E1; [| |discriminate];
    destruct (String.compare b d) eqn:E2; try discriminate; intros _ _.
  - rewrite (string_compare_trans Eq a b d E1 E2). reflexivity.
  - apply String.compare_eq_iff in E1. subst b. rewrite E2. reflexivity.
  - apply String.compare_eq_iff in E2. subst d. rewrite E1. reflexivity.
  - rewrite (string_compare_trans Lt a b d E1 E2). reflexivity.
Qed.

Lemma merge_sort_ascending (l : list string) :
  StronglySorted by_name (merge_sort by_name l).
Proof.
  apply (@StronglySorted_merge_sort _ by_name _ by_name_trans by_name_total).
Qed.

Lemma elem_of_stems ext (names : gset string) s :
  s ∈ (list_to_set (map (stem ext) (list_sorted ext (elements names)))
       : gset string)
  <-> exists c, c ∈ names /\ glob_ch ext c = true /\ stem ext c = s.
Proof.
  rewrite elem_of_list_to_set, list_elem_of_In, in_map_iff. split.
  - intros (c & Hs & Hc). apply list_elem_of_In, elem_of_list_sorted in Hc.
    destruct Hc as [Hg Hc]. apply elem_of_elements in Hc. eauto.
  - intros (c & Hc & Hg & Hs). exists c. split; [exact Hs|].
    apply list_elem_of_In, elem_of_list_sorted. split; [exact Hg|].
    apply elem_of_elements, Hc.
Qed.

Lemma sorted_elements (X : gset string) :
  let l := merge_sort by_name (elements X) in
  (forall s, s ∈ l <-> s ∈ X) /\ StronglySorted by_name l /\ NoDup l.
Proof.
  cbn zeta. split; [|split].
  - intros s. rewrite merge_sort_Permutation. apply elem_of_elements.
  - apply merge_sort_ascending.
  - rewrite merge_sort_Permutation. apply NoDup_elements.
Qed.

Lemma list_sorted_ascending ext (X : gset string) :
  StronglySorted by_name (list_sorted ext (elements X))
  /\ NoDup (list_sorted ext (elements X)).
Proof.
  split; [apply merge_sort_ascending|].
  unfold list_sorted. rewrite merge_sort_Permutation.
  apply NoDup_filter, NoDup_elements.
Qed.

Lemma failing_entries (e : string -> list violation) (l : list string) :
  let g := fun y : string =>
             match e y with [] => [] | _ :: _ => [(y, e y)] end in
  (forall y errs, In (y, errs) (flat_map g l)
                  <-> In y l /\ errs = e y /\ errs <> [])
  /\ (StronglySorted by_name l ->
      StronglySorted by_name (map fst (flat_map g l)))
  /\ (NoDup l -> NoDup (map fst (flat_map g l))).
Proof.
  cbn zeta.
  set (g := fun y : string => match e y with [] => [] | _ :: _ => [(y, e y)] end).
  assert (Hg : forall y, g y = [] /\ e y = [] \/ g y = [(y, e y)] /\ e y <> []).
  { intros y. unfold g. destruct (e y); [left|right]; split; congruence. }
  assert (Hin : forall y errs, In (y, errs) (flat_map g l)
                               <-> In y l /\ errs = e y /\ errs <> []).
  { induction l as [|x l IH]; intros y errs; cbn; [tauto|].
    rewrite in_app_iff, IH.
    destruct (Hg x) as [[-> Hx]|[-> Hx]]; cbn.
    - split; [tauto|]. intros [[<-|Hy] [He Hne]]; [congruence|tauto].
    - split.
      + intros [[[= <- <-]|[]]|H]; tauto.
      + intros [[<-|Hy] [-> Hne]]; tauto. }
  split; [exact Hin|]. clear Hin. split.
  - induction l as [|x l IH]; intros Hs; [constructor|].
    apply StronglySorted_inv in Hs. destruct Hs as [Hs Hx]. cbn.
    assert (Hl : forall y, In y (map fst (flat_map g l)) -> In y l).
    { intros y Hy. apply in_map_iff in Hy. destruct Hy as ([y' errs] & <- & Hy).
      apply in_flat_map in Hy. destruct Hy as (z & Hz & Hy).
      destruct (Hg z) as [[E _]|[E _]]; rewrite E in Hy; [destruct Hy|].
      destruct Hy as [[= <- _]|[]]. exact Hz. }
    destruct (Hg x) as [[-> _]|[-> _]]; cbn; [auto|].
    constructor; [auto|]. apply Forall_forall. intros y Hy.
    rewrite Forall_forall in Hx. apply Hx, list_elem_of_In, Hl, list_elem_of_In, Hy.
  - induction l as [|x l IH]; intros Hn; [constructor|].
    apply NoDup_cons in Hn. destruct Hn as [Hx Hn]. cbn.
    assert (Hl : forall y, In y (map fst (flat_map g l)) -> In y l).
    { intros y Hy. apply in_map_iff in Hy. destruct Hy as ([y' errs] & <- & Hy).
      apply in_flat_map in Hy. destruct Hy as (z & Hz & Hy).
      destruct (Hg z) as [[E _]|[E _]]; rewrite E in Hy; [destruct Hy|].
      destruct Hy as [[= <- _]|[]]. exact Hz. }
    destruct (Hg x) as [[-> _]|[-> _]]; cbn; [auto|].
    apply NoDup_cons. split; [|auto].
    intros Hy. apply Hx, list_elem_of_In, Hl, list_elem_of_In, Hy.
Qed.

Lemma rev_app_append (a b acc : string) :
  String.rev_app (a ++ b) acc = String.rev_app b (String.rev_app a acc).
Proof.
  revert acc. induction a as [|x a IH]; intros acc; [reflexivity|].
  rewrite append_cons. cbn. apply IH.
Qed.

Lemma rev_app_acc (s acc : string) :
  String.rev_app s acc = String.rev_app s "" ++ acc.
Proof.
  revert acc. induction s as [|x s IH]; intros acc; [reflexivity|].
  cbn. rewrite IH, (IH (String x "")), append_assoc. reflexivity.
Qed.

Lemma prefix_append (p t : string) : String.prefix p (p ++ t) = true.
Proof.
  induction p as [|x p IH]; [destruct t; reflexivity|].
  rewrite append_cons. cbn. destruct (ascii_dec x x); [exact IH|congruence].
Qed.

Lemma has_suffix_append (ext base : string) :
  has_suffix ext (base ++ ext) = true.
Proof.
  unfold has_suffix, String.rev.
  rewrite rev_app_append, (rev_app_acc ext (String.rev_app base "")).
  apply prefix_append.
Qed.

Lemma glob_ch_name (ext mid : string) :
  glob_ch ext ("ch_" ++ mid ++ ext) = true
  /\ stem ext ("ch_" ++ mid ++ ext) = "ch_" ++ mid.
Proof.
  split.
  - unfold glob_ch. rewrite <- append_assoc, has_suffix_append.
    rewrite !length_append. unfold has_prefix. rewrite append_assoc.
    rewrite (prefix_append "ch_"). cbn [andb].
    apply Nat.leb_le. lia.
  - unfold stem. rewrite <- append_assoc. apply substring_prefix.
Qed.
End ReportShape.

(** X25. The two lists of identifiers in the report. A stem is listed as
    missing exactly when some chunk file [ch_*.txt] has it and no record
    file [ch_*.yaml] has it, and as extra exactly in the opposite case;
    each list is in ascending order and names no stem twice, however
    many files share a stem. *)
Theorem report_stems (re_match : string -> string -> bool)
        (chunk_files : gset string) (yaml_files : gmap string (option value))
        (schema : Schema) :
  let r := Verify.examine re_match chunk_files yaml_files schema in
  let chunk_stem s :=
    exists c, c ∈ chunk_files /\ Verify.glob_ch ".txt" c = true
              /\ Verify.stem ".txt" c = s in
  let yaml_stem s :=
    exists y, y ∈ dom yaml_files /\ Verify.glob_ch ".yaml" y = true
              /\ Verify.stem ".yaml" y = s in
  (forall s, s ∈ Verify.missing_yaml r <-> chunk_stem s /\ ~ yaml_stem s)
  /\ (forall s, s ∈ Verify.extra_yaml r <-> yaml_stem s /\ ~ chunk_stem s)
  /\ StronglySorted Verify.by_name (Verify.missing_yaml r)
  /\ NoDup (Verify.missing_yaml r)
  /\ StronglySorted Verify.by_name (Verify.extra_yaml r)
  /\ NoDup (Verify.extra_yaml r).
Proof.
  cbn zeta. unfold Verify.examine.
  cbn [Verify.missing_yaml Verify.extra_yaml].
  set (cs := list_to_set _ : gset string).
  set (ys := list_to_set _ : gset string).
  assert (Hc : forall s, s ∈ cs <-> exists c, c ∈ chunk_files
             /\ Verify.glob_ch ".txt" c = true /\ Verify.stem ".txt" c = s)
    by (intros s; apply elem_of_stems).
  assert (Hy : forall s, s ∈ ys <-> exists y, y ∈ dom yaml_files
             /\ Verify.glob_ch ".yaml" y = true /\ Verify.stem ".yaml" y = s)
    by (intros s; apply elem_of_stems).
  destruct (sorted_elements (cs ∖ ys)) as (M1 & M2 & M3).
  destruct (sorted_elements (ys ∖ cs)) as (E1 & E2 & E3).
  repeat split; try assumption.
  - apply M1 in H. apply elem_of_difference in H. apply Hc, H.
  - apply M1 in H. apply elem_of_difference in H. rewrite <- Hy. apply H.
  - intros [H1 H2]. apply M1, elem_of_difference. rewrite Hc, Hy. auto.
  - apply E1 in H. apply elem_of_difference in H. apply Hy, H.
  - apply E1 in H. apply elem_of_difference in H. rewrite <- Hc. apply H.
  - intros [H1 H2]. apply E1, elem_of_difference. rewrite Hc, Hy. auto.
Qed.

(** X26. The list of bad records. A record file is listed as bad exactly
    when it matches [ch_*.yaml] and the validator returns at least one
    violation for it, and it is listed with exactly these violations;
    the files are listed in ascending order of name, each at most
    once. *)
Theorem report_bad (re_match : string -> string -> bool)
        (chunk_files : gset string) (yaml_files : gmap string (option value))
        (schema : Schema) :
  let r := Verify.examine re_match chunk_files yaml_files schema in
  (forall y errs,
     In (y, errs) (Verify.bad r)
     <-> Verify.glob_ch ".yaml" y = true /\ errs <> []
         /\ exists loaded,
              yaml_files !! y = Some loaded
              /\ errs = validate_yaml_against_schema re_match loaded schema)
  /\ StronglySorted Verify.by_name (map fst (Verify.bad r))
  /\ NoDup (map fst (Verify.bad r)).
Proof.
  cbn zeta. unfold Verify.examine. cbn [Verify.bad].
  set (e := fun y : string =>
              validate_yaml_against_schema
                re_match (default None (yaml_files !! y)) schema).
  destruct (failing_entries e
              (Verify.list_sorted ".yaml" (elements (dom yaml_files))))
    as (Hin & Hs & Hn).
  destruct (list_sorted_ascending ".yaml" (dom yaml_files)) as [Ls Ln].
  split; [|split; [exact (Hs Ls)|exact (Hn Ln)]].
  intros y errs. etransitivity; [exact (Hin y errs)|].
  rewrite <- list_elem_of_In, elem_of_list_sorted.
  rewrite elem_of_elements, elem_of_dom. unfold e. split.
  - intros [[Hg [loaded Hl]] [-> Hne]]. split; [exact Hg|]. split; [exact Hne|].
    exists loaded. rewrite Hl. split; reflexivity.
  - intros (Hg & Hne & loaded & Hl & ->). rewrite Hl. cbn [default].
    split; [split; [exact Hg|eauto]|]. split; [reflexivity|exact Hne].
Qed.

(** X27. The names the split run gives its files are the names the
    verify pass pairs. For every chunk identifier the chunk file and the
    record file lie in their directories under names that match
    [ch_*.txt] and [ch_*.yaml], and both have the stem [ch_] followed by
    the four-digit identifier; distinct identifiers give distinct
    stems. *)
Theorem split_names_paired (chunks_dir out_dir : string) (k : Z) :
  let id := ("ch_" ++ Store.format_04d k)%string in
  chunk_path chunks_dir k = (chunks_dir ++ "/" ++ id ++ ".txt")%string
  /\ Store.record_path out_dir k = (out_dir ++ "/" ++ id ++ ".yaml")%string
  /\ Verify.glob_ch ".txt" (id ++ ".txt") = true
  /\ Verify.glob_ch ".yaml" (id ++ ".yaml") = true
  /\ Verify.stem ".txt" (id ++ ".txt") = id
  /\ Verify.stem ".yaml" (id ++ ".yaml") = id
  /\ (forall k', ("ch_" ++ Store.format_04d k')%string = id -> k' = k).
Proof.
  cbn zeta.
  destruct (glob_ch_name ".txt" (Store.format_04d k)) as [G1 S1].
  destruct (glob_ch_name ".yaml" (Store.format_04d k)) as [G2 S2].
  rewrite !append_assoc.
  split; [reflexivity|]. split; [reflexivity|].
  split; [exact G1|]. split; [exact G2|]. split; [exact S1|]. split; [exact S2|].
  intros k' H. apply append_inj_l in H. apply format_04d_inj, H.
Qed.

(** * What a split run creates, and what the verify pass then finds *)

Section RunFrame.
Import Store Split Listing.
Local Open Scope string_scope.

Lemma not_is_Some_None {A} (P : Prop) : is_Some (@None A) -> P.
Proof. intros [? [=]]. Qed.

Lemma mkdir_new out_dir (fs : filesystem) p :
  fs !! p = None -> is_Some ((mkdir out_dir fs).1 !! p) -> p = out_dir.
Proof.
  unfold mkdir. intros Hp.
  destruct (fs !! out_dir) as [[|b]|] eqn:E; cbn [fst].
  - rewrite Hp. apply not_is_Some_None.
  - rewrite Hp. apply not_is_Some_None.
  - intros H. destruct (decide (p = out_dir)) as [|Hne]; [assumption|].
    rewrite lookup_insert_ne, Hp in H by congruence.
    exact (not_is_Some_None _ H).
Qed.

Lemma write_chunk_file_new turns ch_id out_dir (fs : filesystem) p :
  fs !! p = None ->
  is_Some ((write_chunk_file turns ch_id out_dir fs).1 !! p) ->
  p = out_dir \/ p = chunk_path out_dir ch_id.
Proof.
  intros Hp. rewrite write_chunk_file_result.
  pose proof (mkdir_new out_dir fs p Hp) as Hm.
  destruct (mkdir out_dir fs) as [fs1 [[]|e]]; cbn [fst snd] in *;
    [|rewrite Hp; apply not_is_Some_None].
  destruct (chunk_text turns ch_id); cbn [fst]; [|auto].
  destruct (fs !! chunk_path out_dir ch_id) as [[|b]|]; cbn [fst]; auto.
  all: intros H; destruct (decide (p = chunk_path out_dir ch_id)); [auto|];
    rewrite lookup_insert_ne in H by congruence; auto.
Qed.

Lemma write_memory_yaml_new safe_dump ch_id schema t0 tn out_dir
      (fs : filesystem) p :
  fs !! p = None ->
  is_Some ((write_memory_yaml safe_dump ch_id schema t0 tn out_dir fs).1 !! p) ->
  p = out_dir \/ p = record_path out_dir ch_id.
Proof.
  intros Hp. unfold write_memory_yaml.
  pose proof (mkdir_new out_dir fs p Hp) as Hm.
  destruct (mkdir out_dir fs) as [fs1 [[]|e]]; cbn [fst snd] in *; [|auto].
  destruct (negb (exists_ fs1 (record_path out_dir ch_id))); cbn [fst]; [|auto].
  destruct (make_skeleton schema t0 tn); cbn [fst]; [|auto].
  intros H. destruct (decide (p = record_path out_dir ch_id)); [auto|].
  rewrite lookup_insert_ne in H by congruence. auto.
Qed.

Lemma write_chunks_new safe_dump ranges turns schema :
  forall (fs : filesystem) p,
    fs !! p = None ->
    is_Some ((write_chunks safe_dump ranges turns schema fs).1 !! p) ->
    p = CHUNKS_DIR \/ p = OUT_CHAPTERS_DIR
    \/ exists r, In r ranges
                 /\ (p = chunk_path CHUNKS_DIR (ch_id r)
                     \/ p = record_path OUT_CHAPTERS_DIR (ch_id r)).
Proof.
  induction ranges as [|r ranges IH]; intros fs p Hp; cbn [write_chunks fst].
  - rewrite Hp. apply not_is_Some_None.
  - pose proof (write_chunk_file_new
                  (py_slice turns (start_i r) (end_i r)) (ch_id r)
                  CHUNKS_DIR fs p Hp) as H1.
    destruct (write_chunk_file _ _ _ fs) as [fs1 [path|e]]; cbn [fst] in *.
    2: { intros H. destruct (H1 H) as [->| ->]; [auto|].
         right; right. exists r. split; [left; reflexivity|auto]. }
    destruct (fs1 !! p) as [nd|] eqn:E1.
    { intros _. destruct (H1 ltac:(eauto)) as [->| ->]; [auto|].
      right; right. exists r. split; [left; reflexivity|auto]. }
    clear H1.
    destruct (py_slice turns (start_i r) (end_i r)) as [|t0 ts];
      cbn [last fst]; [rewrite E1; apply not_is_Some_None|].
    destruct (last (t0 :: ts)) as [tn|];
      [|cbn [fst]; rewrite E1; apply not_is_Some_None].
    pose proof (write_memory_yaml_new safe_dump (ch_id r) schema t0 tn
                  OUT_CHAPTERS_DIR fs1 p E1) as H2.
    destruct (write_memory_yaml _ _ _ _ _ _ fs1) as [fs2 [path'|e]];
      cbn [fst] in *.
    2: { intros H. destruct (H2 H) as [->| ->]; [auto|].
         right; right. exists r. split; [left; reflexivity|auto]. }
    destruct (fs2 !! p) as [nd|] eqn:E2.
    { intros _. destruct (H2 ltac:(eauto)) as [->| ->]; [auto|].
      right; right. exists r. split; [left; reflexivity|auto]. }
    intros H. destruct (IH fs2 p E2 H) as [->|[->|(r' & Hr' & Hc)]]; [auto|auto|].
    right; right. exists r'. split; [right; exact Hr'|exact Hc].
Qed.

Lemma main_mono safe_load_schema safe_dump (fs : filesystem) p :
  is_Some (fs !! p) ->
  is_Some ((main safe_load_schema safe_dump fs).1 !! p).
Proof.
  intros Hp. unfold main.
  destruct (negb (exists_ fs INPUT_PATH)); [exact Hp|].
  destruct (load_schema safe_load_schema fs) as [schema|e]; [|exact Hp].
  destruct (read_text INPUT_PATH fs) as [text|e]; [|exact Hp].
  destruct (parse_turns text) as [|t ts]; [exact Hp|].
  destruct (chunk_indices _ _ _ _) as [[rs|e]|]; try exact Hp.
  pose proof (mkdir_mono CHUNKS_DIR fs p Hp) as H1.
  destruct (mkdir CHUNKS_DIR fs) as [fs1 [[]|e]]; cbn [fst] in *; [|exact H1].
  pose proof (mkdir_mono OUT_CHAPTERS_DIR fs1 p H1) as H2.
  destruct (mkdir OUT_CHAPTERS_DIR fs1) as [fs2 [[]|e]]; cbn [fst] in *;
    [|exact H2].
  pose proof (write_chunks_mono safe_dump rs (t :: ts) schema fs2 p H2) as H3.
  destruct (write_chunks _ _ _ _ fs2) as [fs3 [[]|e]]; exact H3.
Qed.

Lemma pretty_N_go_name (x : N) : forall s, is_name s -> is_name (pretty_N_go x s).
Proof.
  induction (N.lt_wf_0 x) as [x _ IH]. intros s Hs.
  destruct (N.eq_dec x 0%N) as [->|Hx]; [exact Hs|].
  rewrite pretty_N_go_step by lia.
  apply IH; [apply N.div_lt; lia|].
  apply all_chars_cons. split; [|exact Hs].
  unfold pretty_N_char. repeat case_match; reflexivity.
Qed.

Lemma pretty_Z_name (n : Z) : (0 <= n)%Z -> is_name (pretty n).
Proof.
  intros Hn. destruct n as [|q|q]; [| |lia].
  - intros c [<-|[]]. reflexivity.
  - unfold pretty, pretty_Z, pretty, pretty_positive, pretty, pretty_N.
    rewrite decide_False by discriminate.
    apply pretty_N_go_name, all_chars_nil.
Qed.

Lemma zero_pad_name width digits : is_name digits -> is_name (zero_pad width digits).
Proof.
  intros Hd. unfold zero_pad. apply all_chars_app. split; [|exact Hd].
  induction (width - String.length digits)%nat as [|j IH]; [apply all_chars_nil|].
  rewrite zeros_S. apply all_chars_cons. split; [reflexivity|exact IH].
Qed.

Lemma format_04d_name (k : Z) : is_name (format_04d k).
Proof.
  unfold format_04d. destruct (Z.ltb_spec k 0) as [Hk|Hk].
  - apply all_chars_app. split; [intros c [<-|[]]; reflexivity|].
    apply zero_pad_name, pretty_Z_name. lia.
  - apply zero_pad_name, pretty_Z_name, Hk.
Qed.
End RunFrame.



(** X29. A completed split run leaves no chunk without a record. If the
    verify pass would list no missing record on the directories as they
    are before [main], it lists none on the directories as a run of
    [main] that ends normally leaves them; in particular it lists none
    after a run on empty or absent output directories. *)
Theorem split_then_verify_paired
        (safe_load_schema : string -> option Schema)
        (safe_dump : pydict -> string) (re_match : string -> string -> bool)
        (fs fs' : Store.filesystem) (n m : Z)
        (chunk_files chunk_files' : gset string)
        (yaml_files yaml_files' : gmap string (option value))
        (schema : Schema) :
  main safe_load_schema safe_dump fs = (fs', Some (Ok (n, m))) ->
  Listing.entries fs CHUNKS_DIR chunk_files ->
  Listing.entries fs OUT_CHAPTERS_DIR (dom yaml_files) ->
  Listing.entries fs' CHUNKS_DIR chunk_files' ->
  Listing.entries fs' OUT_CHAPTERS_DIR (dom yaml_files') ->
  Verify.missing_yaml (Verify.examine re_match chunk_files yaml_files schema) = [] ->
  Verify.missing_yaml (Verify.examine re_match chunk_files' yaml_files' schema) = [].
Proof.
  intros Hrun Hcf Hyf Hcf' Hyf' Hbefore.
  rewrite missing_yaml_nil in Hbefore. apply missing_yaml_nil.
  intros c Hc Hg. apply Hcf' in Hc. destruct Hc as [Hname Hc].
  assert (Hfs' : fs' = (main safe_load_schema safe_dump fs).1)
    by (rewrite Hrun; reflexivity).
  destruct (fs !! (CHUNKS_DIR ++ "/" ++ c)%string) as [nd|] eqn:E.
  - destruct (Hbefore c) as (y & Hy & Hgy & Hst); [apply Hcf; eauto|exact Hg|].
    exists y. split; [|auto]. apply Hyf'. apply Hyf in Hy.
    destruct Hy as [Hny Hy]. split; [exact Hny|].
    rewrite Hfs'. apply main_mono, Hy.
  - clear Hfs'. revert Hrun. unfold main.
    destruct (negb (Store.exists_ fs INPUT_PATH)); [discriminate|].
    destruct (load_schema safe_load_schema fs) as [sch|e]; [|discriminate].
    destruct (read_text INPUT_PATH fs) as [text|e]; [|discriminate].
    destruct (parse_turns text) as [|t ts] eqn:Hturns; [discriminate|].
    set (turns := t :: ts) in *.
    destruct (main_ranges (Z.of_nat (length turns)) ltac:(subst turns; cbn; lia))
      as (rs & Hrs & Hnd & _ & _ & _).
    rewrite Hrs.
    pose proof (mkdir_new CHUNKS_DIR fs _ E) as H1.
    destruct (Store.mkdir CHUNKS_DIR fs) as [fs1 [[]|e]]; cbn [fst] in *;
      [|discriminate].
    pose proof (fun H => mkdir_new OUT_CHAPTERS_DIR fs1 (CHUNKS_DIR ++ "/" ++ c) H)
      as H2.
    destruct (Store.mkdir OUT_CHAPTERS_DIR fs1) as [fs2 [[]|e]]; cbn [fst] in *;
      [|discriminate].
    destruct (write_chunks safe_dump rs turns sch fs2) as [fs3 [[]|e]] eqn:Hw;
      [|discriminate].
    intros [= <- _ _].
    assert (Hnew : exists r, In r rs
              /\ (CHUNKS_DIR ++ "/" ++ c = chunk_path CHUNKS_DIR (ch_id r)
                  \/ CHUNKS_DIR ++ "/" ++ c
                     = Store.record_path OUT_CHAPTERS_DIR (ch_id r))%string).
    { assert (Hd1 : (CHUNKS_DIR ++ "/" ++ c)%string <> CHUNKS_DIR).
      { intros Hp. apply (f_equal String.length) in Hp.
        rewrite !length_append in Hp. cbn in Hp. lia. }
      assert (Hd2 : (CHUNKS_DIR ++ "/" ++ c)%string <> OUT_CHAPTERS_DIR).
      { intros Hp. cbn in Hp. discriminate Hp. }
      destruct (fs1 !! (CHUNKS_DIR ++ "/" ++ c)%string) as [nd|] eqn:E1;
        [exfalso; apply Hd1, H1; eauto|].
      destruct (fs2 !! (CHUNKS_DIR ++ "/" ++ c)%string) as [nd|] eqn:E2;
        [exfalso; apply Hd2, H2; eauto|].
      pose proof (write_chunks_new safe_dump rs turns sch fs2 _ E2) as H3.
      rewrite Hw in H3. destruct (H3 Hc) as [Hp|[Hp|Hp]];
        [contradiction|contradiction|exact Hp]. }
    destruct Hnew as (r & Hr & [Hp|Hp]);
      [|exfalso; unfold Store.record_path in Hp; cbn in Hp; discriminate Hp].
    unfold chunk_path in Hp. apply append_inj_l, append_inj_l in Hp. subst c.
    destruct (write_chunks_result safe_dump rs turns sch fs2 fs3 Hnd Hw r Hr)
      as (_ & _ & _ & Hrec).
    destruct (glob_ch_name ".yaml" (Store.format_04d (ch_id r))) as [G S].
    destruct (glob_ch_name ".txt" (Store.format_04d (ch_id r))) as [_ S'].
    exists ("ch_" ++ Store.format_04d (ch_id r) ++ ".yaml")%string.
    split; [|split; [exact G|rewrite S, S'; reflexivity]].
    apply Hyf'. split; [|exact Hrec].
    apply all_chars_app. split; [intros x [<-|[<-|[<-|[]]]]; reflexivity|].
    apply all_chars_app. split; [apply format_04d_name|].
    intros x [<-|[<-|[<-|[<-|[<-|[]]]]]]; reflexivity.
Qed.



Lemma split_then_verify_paired_witness :
  let fs : Store.filesystem :=
    {[ "input/raw_chat.txt"%string := Store.File "[2024-01-02 10:00:00] A: hi";
       "schema.yaml"%string := Store.File "fields: []" ]} in
  let load := fun _ : string => Some (mkSchema [] ∅) in
  let dump := fun _ : pydict => "{}"%string in
  let yaml_files' : gmap string (option value) :=
    {[ "ch_0001.yaml"%string := Some (VDict []) ]} in
  Verify.missing_yaml
    (Verify.examine (fun _ _ => true) {[ "ch_0001.txt"%string ]} yaml_files'
                    (mkSchema [] ∅))
  = [].
Proof.
  intros fs load dump yaml_files'.
  assert (Hbefore : elements (dom fs)
                    = ["schema.yaml"; "input/raw_chat.txt"]%string)
    by (vm_compute; reflexivity).
  assert (Hafter : elements (dom (main load dump fs).1)
                   = ["output/chapters/ch_0001.yaml"; "output/chapters";
                      "schema.yaml"; "chunks/ch_0001.txt"; "chunks";
                      "input/raw_chat.txt"]%string)
    by (vm_compute; reflexivity).
  apply (split_then_verify_paired load dump (fun _ _ => true) fs
           (main load dump fs).1 1 1 ∅ {[ "ch_0001.txt"%string ]}
           ∅ yaml_files' (mkSchema [] ∅)).
  - vm_compute. reflexivity.
  - intros n. split; [intros H; exfalso; exact (not_elem_of_empty _ H)|].
    intros [_ H]. exfalso.
    apply elem_of_dom, elem_of_elements in H. rewrite Hbefore in H.
    apply list_elem_of_In in H.
    destruct H as [H|[H|[]]]; discriminate H.
  - intros n. rewrite dom_empty_L.
    split; [intros H; exfalso; exact (not_elem_of_empty _ H)|].
    intros [_ H]. exfalso.
    apply elem_of_dom, elem_of_elements in H. rewrite Hbefore in H.
    apply list_elem_of_In in H.
    destruct H as [H|[H|[]]]; discriminate H.
  - intros n. split.
    + intros H. apply elem_of_singleton in H. subst n. split.
      * repeat (apply all_chars_cons; split; [reflexivity|]). apply all_chars_nil.
      * vm_compute. eexists. reflexivity.
    + intros [_ H]. apply elem_of_singleton.
      apply elem_of_dom, elem_of_elements in H. rewrite Hafter in H.
      apply list_elem_of_In in H.
      destruct H as [H|[H|[H|[H|[H|[H|[]]]]]]]; try discriminate H.
      injection H as H. rewrite append_nil_l in H. subst n. reflexivity.
  - intros n. subst yaml_files'. rewrite dom_singleton_L. split.
    + intros H. apply elem_of_singleton in H. subst n. split.
      * repeat (apply all_chars_cons; split; [reflexivity|]). apply all_chars_nil.
      * vm_compute. eexists. reflexivity.
    + intros [_ H]. apply elem_of_singleton.
      apply elem_of_dom, elem_of_elements in H. rewrite Hafter in H.
      apply list_elem_of_In in H.
      destruct H as [H|[H|[H|[H|[H|[H|[]]]]]]]; try discriminate H.
      injection H as H. rewrite append_nil_l in H. subst n. reflexivity.
  - vm_compute. reflexivity.
Defined.
